(** * PATH executable cache of the terminal-suggest extension

    A shallow embedding of
    [extensions/terminal-suggest/src/env/pathExecutableCache.ts]:
    the class [PathExecutableCache] (PATH resolution, the cache check, the
    concurrent per-directory scans and their merge, [refresh], the
    configuration listener) and the function [watchPathDirectories].

    Asynchronous code is modelled the way the JavaScript event loop runs it:
    an [async] function is a state machine whose states are its [await]
    points; the code between two [await]s runs atomically; which suspended
    scan is resumed next is decided by the order in which the I/O completes,
    represented here by an explicit schedule. *)

From Stdlib Require Import Ascii String ZArith.
From stdpp Require Import base option list strings gmap.

Open Scope string_scope.
Open Scope list_scope.

(** ** Data model *)

(** [vscode.FileType] is a bit mask: [Unknown = 0], [File = 1],
    [Directory = 2], [SymbolicLink = 64]; a link to a file is listed as
    [65].  The scanner compares it with [===]. *)
Definition FileType := Z.

Module FileType.
Definition Unknown : FileType := 0%Z.
Definition File : FileType := 1%Z.
Definition Directory : FileType := 2%Z.
Definition SymbolicLink : FileType := 64%Z.
End FileType.

(** [vscode.TerminalCompletionItemKind]; the scanner only ever produces
    [Method]. *)
Inductive TerminalCompletionItemKind :=
  | File | Folder | Method | Alias | Argument | Option | OptionValue | Flag.

(** [ICompletionResource], restricted to the fields the scanner sets. *)
Record ICompletionResource := {
  label : string;
  documentation : string;
  kind : TerminalCompletionItemKind
}.

(** [TerminalSuggestMain.TerminalShellType]: the declaration lives outside
    this file; the cache only compares the hint with [GitBash]. *)
Inductive TerminalShellType :=
  | GitBash
  | OtherShell (tag : string).

(** [ITerminalEnvironment = { [key: string]: string | undefined }].
    [Object.keys] enumerates string keys in insertion order, and the Windows
    branch takes the first match, so the order is kept. *)
Definition ITerminalEnvironment := list (string * option string).

(** The value of the setting read into [_cachedWindowsExeExtensions]. *)
Definition WindowsExeExtensions := list (string * option bool).

(** ** The host: platform, process environment, Uri helpers *)

Class Host := {
  (** [osIsWindows()] *)
  isWindows : bool;
  (** [process.env], the default of the [env] parameter *)
  process_env : ITerminalEnvironment;
  (** the value of the expression [process.env.PATH] (Node reads the process
      environment case-insensitively on Windows, hence a field of its own) *)
  process_env_PATH : option string;
  (** [vscode.Uri] with [Uri.file], [Uri.joinPath] and the [fsPath] getter *)
  Uri : Type;
  Uri_file : string → Uri;
  Uri_joinPath : Uri → string → Uri;
  fsPath : Uri → string;
  (** [getFriendlyResourcePath(resource, pathSeparator)] of [helpers/uri] *)
  getFriendlyResourcePath : Uri → string → string
}.

(** ** The file system, as the scanner observes it during one pass

    Each field is the outcome of one asynchronous call; [None] is a rejected
    promise (a thrown error at the [await]). *)
Record FileSystem := {
  (** [fs.stat(path).then(stat => stat.isDirectory())] *)
  stat_isDirectory : string → option bool;
  (** [vscode.workspace.fs.readDirectory(Uri.file(path))] *)
  readDirectory : string → option (list (string * FileType));
  (** [fs.lstat(p)] then [isSymbolicLink()] *)
  lstat_isSymbolicLink : string → option bool;
  (** [fs.realpath(p)] *)
  realpath : string → option string;
  (** [isExecutable(path, windowsExeExtensions)] of [helpers/executable];
      its contract is to resolve to a boolean and never reject, but the
      scanner's [try]/[catch] blocks cover a rejection all the same *)
  isExecutable : string → option WindowsExeExtensions → option bool;
  (** whether [filesystem.watch(dir, ...)] returns a watcher ([false]: it
      throws) *)
  watch_ok : string → bool
}.

(** ** The directory scanner [_getExecutablesInPath] *)

Module Scanner.
Section WithHost.
Context `{Host}.
Variable fs : FileSystem.
(** [this._cachedWindowsExeExtensions], fixed during one pass *)
Variable exts : option WindowsExeExtensions.

(** Local variables of the [for] loop that are live across an [await]:
    [result] is a [Set] of freshly created objects, so every [add] appends
    a new element, in insertion order. *)
Record Frame := {
  path : string;
  pathSeparator : string;
  result : list ICompletionResource;
  rest : list (string * FileType)
}.

(** The suspended states of one call, one per [await]. *)
Inductive Scan :=
  | AwaitStat (path pathSeparator : string)                      (* line 101 *)
  | AwaitReadDirectory (path pathSeparator : string)             (* line 107 *)
  | AwaitLstat (fr : Frame) (file : string)                      (* line 119 *)
  | AwaitRealpath (fr : Frame) (file : string)                   (* line 122 *)
  | AwaitIsExecutableLink (fr : Frame) (file symlinkRealPath : string) (* line 123 *)
  | AwaitIsExecutable (fr : Frame) (file formattedPath : string) (* line 145 *)
  | Settled (r : option (list ICompletionResource)).

Definition resource (fr : Frame) (file : string) : Uri :=
  Uri_joinPath (Uri_file (path fr)) file.

(** Lines 108-116: from the head of the loop to the next [await]; entries
    of type [Unknown] or [Directory] are skipped without suspending. *)
Fixpoint loop (path pathSeparator : string) (result : list ICompletionResource)
    (files : list (string * FileType)) : Scan :=
  match files with
  | [] => Settled (Some result)
  | (file, fileType) :: files' =>
      if (fileType =? FileType.Unknown)%Z || (fileType =? FileType.Directory)%Z
      then loop path pathSeparator result files'
      else AwaitLstat {| path := path; pathSeparator := pathSeparator;
                         result := result; rest := files' |} file
  end.

(** [continue]: on to the next entry. *)
Definition continue (fr : Frame) : Scan :=
  loop (path fr) (pathSeparator fr) (result fr) (rest fr).

(** Lines 150-155: [result.add({...}); labels.add(file)], then the next
    entry. [kind ?? Method] is [Method] on both paths. *)
Definition accept (fr : Frame) (file formattedPath : string) (labels : gset string)
    : Scan * gset string :=
  let r := {| label := file; documentation := formattedPath; kind := Method |} in
  (loop (path fr) (pathSeparator fr) (result fr ++ [r]) (rest fr),
   labels ∪ {[ file ]}).

(** Resume a suspended call with the outcome of the call it awaits and run
    it to its next [await] (or to its [return]). *)
Definition resume (t : Scan) (labels : gset string) : Scan * gset string :=
  match t with
  | AwaitStat p sep =>
      match stat_isDirectory fs p with
      | Some true => (AwaitReadDirectory p sep, labels)
      | _ => (Settled None, labels)          (* [.catch(() => false)], line 103 *)
      end
  | AwaitReadDirectory p sep =>
      match readDirectory fs p with
      | Some files => (loop p sep [] files, labels)
      | None => (Settled None, labels)       (* outer [catch], line 160 *)
      end
  | AwaitLstat fr file =>
      match lstat_isSymbolicLink fs (fsPath (resource fr file)) with
      | None => (continue fr, labels)        (* [catch], line 135 *)
      | Some true => (AwaitRealpath fr file, labels)
      | Some false =>
          (* line 138; line 141; line 145 suspends *)
          let formattedPath := getFriendlyResourcePath (resource fr file) (pathSeparator fr) in
          if decide (file ∈ labels) then (continue fr, labels)
          else (AwaitIsExecutable fr file formattedPath, labels)
      end
  | AwaitRealpath fr file =>
      match realpath fs (fsPath (resource fr file)) with
      | None => (continue fr, labels)        (* [catch], line 130 *)
      | Some symlinkRealPath => (AwaitIsExecutableLink fr file symlinkRealPath, labels)
      end
  | AwaitIsExecutableLink fr file symlinkRealPath =>
      match isExecutable fs symlinkRealPath exts with
      | None => (continue fr, labels)        (* [catch], line 130 *)
      | Some false => (continue fr, labels)  (* line 125 *)
      | Some true =>
          (* kind = Method; line 128; line 141; line 145 short-circuits *)
          let formattedPath := fsPath (resource fr file) +:+ " -> " +:+ symlinkRealPath in
          if decide (file ∈ labels) then (continue fr, labels)
          else accept fr file formattedPath labels
      end
  | AwaitIsExecutable fr file formattedPath =>
      match isExecutable fs formattedPath exts with
      | None => (Settled None, labels)       (* outer [catch], line 160 *)
      | Some false => (continue fr, labels)  (* line 147 *)
      | Some true => accept fr file formattedPath labels
      end
  | Settled r => (Settled r, labels)
  end.

(** *** Running the fan-out

    [getExecutablesInPath] starts one call per PATH entry (each runs up to
    its first [await]) and joins them with [Promise.all]. A schedule lists
    which suspended call is resumed next. *)

Definition start (pathSeparator : string) (paths : list string) : list Scan :=
  (λ p, AwaitStat p pathSeparator) <$> paths.

Definition resume_at (i : nat) (pool : list Scan) (labels : gset string)
    : list Scan * gset string :=
  match pool !! i with
  | Some t => let '(t', labels') := resume t labels in (<[i := t']> pool, labels')
  | None => (pool, labels)
  end.

Fixpoint run_schedule (sched : list nat) (pool : list Scan) (labels : gset string)
    : list Scan * gset string :=
  match sched with
  | [] => (pool, labels)
  | i :: sched' =>
      let '(pool', labels') := resume_at i pool labels in
      run_schedule sched' pool' labels'
  end.

Definition listing (p : string) : list (string * FileType) :=
  default [] (readDirectory fs p).

(** An upper bound on the number of resumptions a call still needs. *)
Definition budget (t : Scan) : nat :=
  match t with
  | AwaitStat p _ => 2 + 3 * length (listing p)
  | AwaitReadDirectory p _ => 1 + 3 * length (listing p)
  | AwaitLstat fr _ => 3 + 3 * length (rest fr)
  | AwaitRealpath fr _ => 2 + 3 * length (rest fr)
  | AwaitIsExecutableLink fr _ _ => 1 + 3 * length (rest fr)
  | AwaitIsExecutable fr _ _ => 1 + 3 * length (rest fr)
  | Settled _ => 0
  end.

Fixpoint run_scan (n : nat) (t : Scan) (labels : gset string) : Scan * gset string :=
  match n with
  | O => (t, labels)
  | S n' => let '(t', labels') := resume t labels in run_scan n' t' labels'
  end.

(** One call run to its end without any other call in between. *)
Definition finish (t : Scan) (labels : gset string) : Scan * gset string :=
  run_scan (budget t) t labels.

(** [Promise.all] waits for every call: whatever the schedule left
    suspended is completed, here one call after the other. *)
Fixpoint drain (pool : list Scan) (labels : gset string) : list Scan * gset string :=
  match pool with
  | [] => ([], labels)
  | t :: pool' =>
      let '(t', labels') := finish t labels in
      let '(pool'', labels'') := drain pool' labels' in
      (t' :: pool'', labels'')
  end.

Definition outcome (t : Scan) : option (list ICompletionResource) :=
  match t with
  | Settled r => r
  | _ => None
  end.

(** [Promise.all] over a pool of calls: the settled value of every promise,
    in the order of the pool, and the label set they leave. *)
Definition settle (sched : list nat) (pool : list Scan) (labels : gset string)
    : list (option (list ICompletionResource)) * gset string :=
  let '(pool', labels') := run_schedule sched pool labels in
  let '(pool'', labels'') := drain pool' labels' in
  (outcome <$> pool'', labels'').

(** The fan-out and the join of lines 76-84, with the fresh label set of
    line 77. *)
Definition join (sched : list nat) (pathSeparator : string) (paths : list string)
    : list (option (list ICompletionResource)) * gset string :=
  settle sched (start pathSeparator paths) ∅.

(** The call a suspended scan awaits rejects, and no inner [try] covers it:
    the directory listing of line 107, the executability check of line 145. *)
Definition uncaught (t : Scan) : Prop :=
  match t with
  | AwaitReadDirectory p _ => readDirectory fs p = None
  | AwaitIsExecutable _ _ formattedPath => isExecutable fs formattedPath exts = None
  | _ => False
  end.

(** [_getExecutablesInPath(path, pathSeparator, labels)] awaited on its
    own. *)
Definition _getExecutablesInPath (path pathSeparator : string) (labels : gset string)
    : option (list ICompletionResource) * gset string :=
  let '(t, labels') := finish (AwaitStat path pathSeparator) labels in
  (outcome t, labels').

End WithHost.
End Scanner.

(** ** The cache manager *)

(** [String.prototype.split] with a one-character separator. *)
Fixpoint split (sep : ascii) (s : string) : list string :=
  match s with
  | EmptyString => [""]
  | String c s' =>
      if Ascii.eqb c sep then "" :: split sep s'
      else match split sep s' with
           | [] => [String c ""]
           | h :: t => String c h :: t
           end
  end.

(** The one-character string holding a backslash. *)
Definition backslash : string := String (ascii_of_nat 92) EmptyString.

(** [toLowerCase], on the ASCII letters. No other character lowers to one of
    the letters of ["path"], which is all the cache compares against. *)
Definition lower (c : ascii) : ascii :=
  let n := nat_of_ascii c in
  if (65 <=? n)%nat && (n <=? 90)%nat then ascii_of_nat (n + 32) else c.

Fixpoint toLowerCase (s : string) : string :=
  match s with
  | EmptyString => EmptyString
  | String c s' => String (lower c) (toLowerCase s')
  end.

(** [env[key]] *)
Fixpoint env_get (env : ITerminalEnvironment) (key : string) : option string :=
  match env with
  | [] => None
  | (k, v) :: env' => if String.eqb k key then v else env_get env' key
  end.

(** [Object.keys(env)] *)
Definition keys (env : ITerminalEnvironment) : list string := fst <$> env.

(** The object literal of line 95; [oid] is its identity as a JavaScript
    object (objects are compared by reference). *)
Record CachedExes := {
  oid : nat;
  completionResources : list ICompletionResource;
  labels : gset string
}.

(** The fields of [PathExecutableCache]. *)
Record PathExecutableCache := {
  _cachedPathValue : option string;
  _cachedWindowsExeExtensions : option WindowsExeExtensions;
  _cachedExes : option CachedExes
}.

(** A watcher returned by [filesystem.watch]: the directory, whether its
    callback holds a cache to refresh ([pathExecutableCache] was defined), and
    whether [close()] has been called. *)
Record FSWatcher := {
  dir : string;
  refreshes : bool;
  closed : bool
}.

(** The [vscode.Disposable] pushed at line 197: the closure captures the
    watcher, the [activeWatchers] set of its invocation, and [dir]. *)
Record Subscription := {
  watcher : nat;      (* index into [watchers] *)
  registry : nat;     (* index into [registries] *)
  subject : string
}.

(** Everything the code reads or writes, and two probes.
    - [configListening]: the listener of line 29 is registered (and not yet
      disposed through [_disposables]);
    - [watchers]: every watcher created so far;
    - [registries]: the [activeWatchers] set of every invocation of
      [watchPathDirectories], in invocation order;
    - [subscriptions]: [context.subscriptions];
    - [nextObject]: allocation counter for object identities;
    - [scanCalls] (probe): the [path] argument of every call of
      [_getExecutablesInPath], in call order;
    - [fills] (probe): for every object created at line 95, its identity and
      the [pathValue] of the call that created it. *)
Record World := {
  cache : PathExecutableCache;
  configListening : bool;
  watchers : list FSWatcher;
  registries : list (gset string);
  subscriptions : list Subscription;
  nextObject : nat;
  scanCalls : list string;
  fills : list (nat * string)
}.

Definition with_cache (c : PathExecutableCache) (w : World) : World :=
  {| cache := c; configListening := configListening w; watchers := watchers w;
     registries := registries w; subscriptions := subscriptions w;
     nextObject := nextObject w; scanCalls := scanCalls w; fills := fills w |}.

Module Cache.
Section WithHost.
Context `{Host}.

(** The constructor (lines 26-36). [setting] is what
    [getConfiguration(...).get(...)] returns. *)
Definition new (setting : option WindowsExeExtensions) : World :=
  {| cache := {| _cachedPathValue := None;
                 _cachedWindowsExeExtensions := if isWindows then setting else None;
                 _cachedExes := None |};
     configListening := isWindows;
     watchers := []; registries := []; subscriptions := [];
     nextObject := 0; scanCalls := []; fills := [] |}.

(** [dispose()] (lines 38-42). *)
Definition dispose (w : World) : World :=
  {| cache := cache w; configListening := false; watchers := watchers w;
     registries := registries w; subscriptions := subscriptions w;
     nextObject := nextObject w; scanCalls := scanCalls w; fills := fills w |}.

(** The listener body (lines 30-33). *)
Definition configurationListener (affectsConfiguration : bool)
    (setting : option WindowsExeExtensions) (c : PathExecutableCache)
    : PathExecutableCache :=
  if affectsConfiguration
  then {| _cachedPathValue := _cachedPathValue c;
          _cachedWindowsExeExtensions := setting;
          _cachedExes := None |}
  else c.

(** The host fires [onDidChangeConfiguration]: [affectsConfiguration] is
    the answer of [e.affectsConfiguration(...)], [setting] the value the
    configuration store now returns. *)
Definition onDidChangeConfiguration (affectsConfiguration : bool)
    (setting : option WindowsExeExtensions) (w : World) : World :=
  if configListening w
  then with_cache (configurationListener affectsConfiguration setting (cache w)) w
  else w.

(** [refresh()] (lines 44-47). *)
Definition refresh_cache (c : PathExecutableCache) : PathExecutableCache :=
  {| _cachedPathValue := None;
     _cachedWindowsExeExtensions := _cachedWindowsExeExtensions c;
     _cachedExes := None |}.

Definition refresh (w : World) : World := with_cache (refresh_cache (cache w)) w.

(** Lines 51-63. *)
Definition resolvePathValue (env : ITerminalEnvironment)
    (shellType : option TerminalShellType) : option string :=
  match shellType with
  | Some GitBash => process_env_PATH
  | _ =>
      if isWindows then
        match List.find (λ key, String.eqb (toLowerCase key) "path") (keys env) with
        | Some caseSensitivePathKey =>
            if String.eqb caseSensitivePathKey "" then None
            else env_get env caseSensitivePathKey
        | None => None
        end
      else env_get env "PATH"
  end.

(** Lines 83-91: every element of every non-absent result set is a
    distinct object, so the merged [Set] holds them all, in this order. *)
Definition merge (resultSets : list (option (list ICompletionResource)))
    : list ICompletionResource :=
  concat (default [] <$> resultSets).

(** Lines 94-96. *)
Definition publish (pathValue : string) (executables : list ICompletionResource)
    (labels : gset string) (w : World) : option CachedExes * World :=
  let e := {| oid := nextObject w; completionResources := executables;
              labels := labels |} in
  (Some e,
   {| cache := {| _cachedPathValue := Some pathValue;
                  _cachedWindowsExeExtensions := _cachedWindowsExeExtensions (cache w);
                  _cachedExes := Some e |};
      configListening := configListening w; watchers := watchers w;
      registries := registries w; subscriptions := subscriptions w;
      nextObject := S (nextObject w); scanCalls := scanCalls w;
      fills := fills w ++ [(nextObject w, pathValue)] |}).

(** Line 79, observed by the probe. *)
Definition record_scans (paths : list string) (w : World) : World :=
  {| cache := cache w; configListening := configListening w; watchers := watchers w;
     registries := registries w; subscriptions := subscriptions w;
     nextObject := nextObject w; scanCalls := scanCalls w ++ paths;
     fills := fills w |}.

(** Line 74: [pathValue.split(isWindows ? ';' : ':')]. *)
Definition directories (pathValue : string) : list string :=
  split (if isWindows then ";" else ":")%char pathValue.

(** Line 75: a backslash on Windows, a slash elsewhere. *)
Definition pathSeparator : string := if isWindows then backslash else "/".

(** Lines 73-96: the cache fill. *)
Definition fill (fs : FileSystem) (sched : list nat) (pathValue : string)
    (w : World) : option CachedExes * World :=
  let paths := directories pathValue in
  let '(resultSets, labels) :=
    Scanner.join fs (_cachedWindowsExeExtensions (cache w)) sched pathSeparator paths in
  publish pathValue (merge resultSets) labels (record_scans paths w).

(** [getExecutablesInPath(env, shellType)] (lines 49-97), as one call that
    no other call of the cache overlaps. [fs] is the file system during
    the pass, [sched] the order in which its scans are resumed. *)
Definition getExecutablesInPath (fs : FileSystem) (sched : list nat)
    (env : option ITerminalEnvironment) (shellType : option TerminalShellType)
    (w : World) : option CachedExes * World :=
  let env := default process_env env in
  match resolvePathValue env shellType with
  | None => (None, w)
  | Some pathValue =>
      match _cachedExes (cache w) with
      | Some e =>
          if decide (_cachedPathValue (cache w) = Some pathValue) then (Some e, w)
          else fill fs sched pathValue w
      | None => fill fs sched pathValue w
      end
  end.
End WithHost.
End Cache.

(** ** The directory-watch subsystem *)

Module Watch.
Section WithHost.
Context `{Host}.

(** [Set.prototype.add] on a set that is later iterated: insertion order,
    no duplicates. *)
Definition Set_add (x : string) (s : list string) : list string :=
  if decide (x ∈ s) then s else s ++ [x].

(** Lines 166-171; [path.delimiter] is [;] on Windows and [:] elsewhere,
    and [if (envPath)] rejects [undefined] and the empty string. [env] lists
    the properties of an ordinary object, on which [env.PATH] is the value
    stored under that exact key. *)
Definition pathDirectories (env : ITerminalEnvironment) : list string :=
  match env_get env "PATH" with
  | Some envPath =>
      if String.eqb envPath "" then []
      else foldl (λ s p, Set_add p s) [] (split (if isWindows then ";" else ":")%char envPath)
  | None => []
  end.

(** One iteration of the loop of lines 176-204, for the invocation whose
    [activeWatchers] set is [registries !! reg]. *)
Definition watch_dir (fs : FileSystem) (hasCache : bool) (reg : nat) (d : string)
    (w : World) : World :=
  if decide (d ∈ default ∅ (registries w !! reg)) then w      (* line 178 *)
  else
    match stat_isDirectory fs d with
    | Some true =>
        if watch_ok fs d then
          {| cache := cache w; configListening := configListening w;
             watchers := watchers w ++ [{| dir := d; refreshes := hasCache; closed := false |}];
             registries := alter (λ active, active ∪ {[ d ]}) reg (registries w);
             subscriptions := subscriptions w ++
               [{| watcher := length (watchers w); registry := reg; subject := d |}];
             nextObject := nextObject w; scanCalls := scanCalls w; fills := fills w |}
        else w                                                 (* [catch], line 203 *)
    | _ => w                                                   (* lines 185, 203 *)
    end.

(** [watchPathDirectories(context, env, pathExecutableCache)]: line 173
    creates the [activeWatchers] set of this invocation. *)
Definition watchPathDirectories (fs : FileSystem) (env : ITerminalEnvironment)
    (hasCache : bool) (w : World) : World :=
  let reg := length (registries w) in
  let w0 :=
    {| cache := cache w; configListening := configListening w; watchers := watchers w;
       registries := registries w ++ [∅]; subscriptions := subscriptions w;
       nextObject := nextObject w; scanCalls := scanCalls w; fills := fills w |} in
  foldl (λ w' d, watch_dir fs hasCache reg d w') w0 (pathDirectories env).

(** The teardown of lines 198-201: [watcher.close()] and
    [activeWatchers.delete(dir)]. *)
Definition release (s : Subscription) (w : World) : World :=
  {| cache := cache w; configListening := configListening w;
     watchers := alter (λ wt, {| dir := dir wt; refreshes := refreshes wt; closed := true |})
                       (watcher s) (watchers w);
     registries := alter (λ active, active ∖ {[ subject s ]}) (registry s) (registries w);
     subscriptions := subscriptions w;
     nextObject := nextObject w; scanCalls := scanCalls w; fills := fills w |}.

(** The change callback of lines 188-193, for the watcher at index [i]. *)
Definition onChange (i : nat) (w : World) : World :=
  match watchers w !! i with
  | Some wt => if closed wt then w else if refreshes wt then Cache.refresh w else w
  | None => w
  end.

(** The watchers on [d] that have not been closed. *)
Definition active (d : string) (w : World) : list FSWatcher :=
  filter (λ wt, closed wt = false ∧ dir wt = d) (watchers w).

End WithHost.
End Watch.


(** ** Concrete hosts and file systems used in the examples *)

Module Posix.
(** A POSIX host whose Uri is its path: [joinPath] inserts a slash, the
    friendly path is the [fsPath]. *)
#[export] Instance host : Host := {|
  isWindows := false;
  process_env := [("PATH", Some "/usr/bin")];
  process_env_PATH := Some "/usr/bin";
  Uri := string;
  Uri_file := λ p, p;
  Uri_joinPath := λ u f, u +:+ "/" +:+ f;
  fsPath := λ u, u;
  getFriendlyResourcePath := λ u _, u
|}.
End Posix.

Module Windows.
(** A Windows host; its Uri is the path as well, joined with a backslash. *)
#[export] Instance host : Host := {|
  isWindows := true;
  process_env := [("Path", Some "C:/Windows/system32")];
  process_env_PATH := Some "C:/Windows/system32";
  Uri := string;
  Uri_file := λ p, p;
  Uri_joinPath := λ u f, u +:+ backslash +:+ f;
  fsPath := λ u, u;
  getFriendlyResourcePath := λ u _, u
|}.
End Windows.

Module Example.

Fixpoint assoc {A} (l : list (string * A)) (k : string) : option A :=
  match l with
  | [] => None
  | (k', v) :: l' => if String.eqb k' k then Some v else assoc l' k
  end.

(** A disk given by its directories (with their listings), its symbolic
    links (with their targets, [None] for a dangling link) and its executable
    files. No call fails except on a missing path. *)
Definition disk (dirs : list (string * list (string * FileType)))
    (links : list (string * option string)) (execs : list string) : FileSystem :=
  {| stat_isDirectory := λ p,
       match assoc dirs p with
       | Some _ => Some true
       | None => if bool_decide (p ∈ execs) then Some false else None
       end;
     readDirectory := assoc dirs;
     lstat_isSymbolicLink := λ p, Some (bool_decide (p ∈ links.*1));
     realpath := λ p, match assoc links p with Some target => target | None => Some p end;
     isExecutable := λ p _, Some (bool_decide (p ∈ execs));
     watch_ok := λ _, true |}.

(** [/a] and [/b] both hold a regular executable [foo]. *)
Definition twice : FileSystem :=
  disk [("/a", [("foo", FileType.File)]); ("/b", [("foo", FileType.File)])]
       [] ["/a/foo"; "/b/foo"].

(** [/a] holds a regular executable [foo]; [/b/foo] is a link to the
    executable [/opt/foo]. *)
Definition shadowed : FileSystem :=
  disk [("/a", [("foo", FileType.File)]); ("/b", [("foo", 65%Z)])]
       [("/b/foo", Some "/opt/foo")] ["/a/foo"; "/opt/foo"].

(** [/usr/bin] holds the executable [ls], a non-executable [notes], a
    subdirectory, a dangling link and a link [vi] to the executable
    [/usr/bin/vim]. *)
Definition usr : FileSystem :=
  disk [("/usr/bin", [("ls", FileType.File); ("notes", FileType.File);
                      ("sub", FileType.Directory); ("gone", 64%Z);
                      ("vi", 65%Z); ("vim", FileType.File)])]
       [("/usr/bin/gone", None); ("/usr/bin/vi", Some "/usr/bin/vim")]
       ["/usr/bin/ls"; "/usr/bin/vim"].

(** [/a] holds the executable [foo] and a file [bad] on which the
    executability check rejects; [/b] holds another executable [foo]. *)
Definition flaky : FileSystem :=
  let d := disk [("/a", [("foo", FileType.File); ("bad", FileType.File)]);
                 ("/b", [("foo", FileType.File)])]
                [] ["/a/foo"; "/b/foo"] in
  {| stat_isDirectory := stat_isDirectory d;
     readDirectory := readDirectory d;
     lstat_isSymbolicLink := lstat_isSymbolicLink d;
     realpath := realpath d;
     isExecutable := λ p exts, if String.eqb p "/a/bad" then None else isExecutable d p exts;
     watch_ok := watch_ok d |}.

(** [C:/tools] holds [run.exe]. *)
Definition tools : FileSystem :=
  disk [("C:/tools", [("run.exe", FileType.File)])] []
       ["C:/tools" +:+ backslash +:+ "run.exe"].

End Example.

(** The environments and histories of the examples. *)
Module Scenario.

Definition posix_env : ITerminalEnvironment := [("PATH", Some "/usr/bin")].

(** On Windows the key is usually spelled [Path]. *)
Definition windows_env : ITerminalEnvironment := [("Path", Some "C:/tools")].

End Scenario.

Module Example2.

(** [/usr/bin] holds the executable [ls], [/usr/local/bin] the executable
    [mytool] and a link [ll] to [/usr/bin/ls]. *)
Definition two_dirs : FileSystem :=
  Example.disk
    [("/usr/bin", [("ls", FileType.File)]);
     ("/usr/local/bin", [("mytool", FileType.File); ("ll", 65%Z)])]
    [("/usr/local/bin/ll", Some "/usr/bin/ls")]
    ["/usr/bin/ls"; "/usr/local/bin/mytool"].

Definition two_dirs_env : ITerminalEnvironment :=
  [("PATH", Some "/usr/bin:/usr/local/bin")].

End Example2.

(** ** Histories

    What can happen to the world, one event at a time. [Lookup] is a call of
    [getExecutablesInPath] that no other event overlaps. [LatePublish] is
    the tail (lines 93-96) of a call that did overlap with other events: all
    it does to the cache is store an entry for the [pathValue] it resolved
    when it started, whatever its scans collected. *)
Inductive Event `{Host} :=
  | Lookup (fs : FileSystem) (sched : list nat)
      (env : option ITerminalEnvironment) (shellType : option TerminalShellType)
  | LatePublish (pathValue : string) (executables : list ICompletionResource)
      (labels : gset string)
  | Refresh
  | ConfigurationChanged (affectsConfiguration : bool)
      (setting : option WindowsExeExtensions)
  | WatchPathDirectories (fs : FileSystem) (env : ITerminalEnvironment) (hasCache : bool)
  | Released (s : Subscription)
  | Changed (i : nat)
  | Disposed.

Definition step `{Host} (w : World) (ev : Event) : World :=
  match ev with
  | Lookup fs sched env shellType => (Cache.getExecutablesInPath fs sched env shellType w).2
  | LatePublish pathValue executables labels =>
      (Cache.publish pathValue executables labels w).2
  | Refresh => Cache.refresh w
  | ConfigurationChanged affectsConfiguration setting =>
      Cache.onDidChangeConfiguration affectsConfiguration setting w
  | WatchPathDirectories fs env hasCache => Watch.watchPathDirectories fs env hasCache w
  | Released s => Watch.release s w
  | Changed i => Watch.onChange i w
  | Disposed => Cache.dispose w
  end.

Definition run `{Host} (evs : list Event) (w : World) : World := foldl step w evs.

(** The cache agrees with the probes: identities are handed out in order,
    and the stored entry was created for the remembered PATH string. *)
Definition consistent (w : World) : Prop :=
  (fills w).*1 = seq 0 (nextObject w)
  ∧ ∀ e, _cachedExes (cache w) = Some e →
         ∃ p, _cachedPathValue (cache w) = Some p ∧ (oid e, p) ∈ fills w.

(** ** Predicates used in the statements and proofs *)

Module Aux.
Section WithHost.
Context `{Host}.
Variable fs : FileSystem.
Variable exts : option WindowsExeExtensions.

Import Scanner.

Definition settled (t : Scan) : Prop := ∃ r, t = Settled r.

(** A scan that can only settle absent: its directory check fails, or the
    call it awaits raises an uncaught error, or it has settled absent. *)
Definition doomed (t : Scan) : Prop :=
  match t with
  | AwaitStat p _ => stat_isDirectory fs p ≠ Some true ∨ readDirectory fs p = None
  | Settled None => True
  | _ => uncaught fs exts t
  end.

(** *** One scan read as a loop

    What the body of the [for] loop does with one entry when no other scan
    is resumed while it runs: nothing, one more resource, or the uncaught
    error that ends the scan. *)
Inductive Verdict :=
  | Skip
  | Accept (formattedPath : string)
  | Abort.

Definition skipped_early (fileType : FileType) : bool :=
  (fileType =? FileType.Unknown)%Z || (fileType =? FileType.Directory)%Z.

Definition entry (p sep file : string) (labels : gset string) : Verdict :=
  let resource := Uri_joinPath (Uri_file p) file in
  match lstat_isSymbolicLink fs (fsPath resource) with
  | None => Skip
  | Some true =>
      match realpath fs (fsPath resource) with
      | None => Skip
      | Some symlinkRealPath =>
          match isExecutable fs symlinkRealPath exts with
          | Some true =>
              if decide (file ∈ labels) then Skip
              else Accept (fsPath resource +:+ " -> " +:+ symlinkRealPath)
          | _ => Skip
          end
      end
  | Some false =>
      let formattedPath := getFriendlyResourcePath resource sep in
      if decide (file ∈ labels) then Skip
      else match isExecutable fs formattedPath exts with
           | None => Abort
           | Some false => Skip
           | Some true => Accept formattedPath
           end
  end.

Fixpoint scan_loop (p sep : string) (res : list ICompletionResource)
    (files : list (string * FileType)) (labels : gset string)
    : option (list ICompletionResource) * gset string :=
  match files with
  | [] => (Some res, labels)
  | (file, fileType) :: files' =>
      if skipped_early fileType then scan_loop p sep res files' labels
      else match entry p sep file labels with
           | Skip => scan_loop p sep res files' labels
           | Accept formattedPath =>
               scan_loop p sep
                 (res ++ [{| label := file; documentation := formattedPath; kind := Method |}])
                 files' (labels ∪ {[ file ]})
           | Abort => (None, labels)
           end
  end.

Definition scanDirectory (p sep : string) (labels : gset string)
    : option (list ICompletionResource) * gset string :=
  match stat_isDirectory fs p with
  | Some true =>
      match readDirectory fs p with
      | Some files => scan_loop p sep [] files labels
      | None => (None, labels)
      end
  | _ => (None, labels)
  end.

(** A pass whose scans run one after the other, in PATH order. *)
Fixpoint scan_all (sep : string) (paths : list string) (labels : gset string)
    : list (option (list ICompletionResource)) * gset string :=
  match paths with
  | [] => ([], labels)
  | p :: paths' =>
      let '(r, labels') := scanDirectory p sep labels in
      let '(rs, labels'') := scan_all sep paths' labels' in
      (r :: rs, labels'')
  end.

End WithHost.
End Aux.

(** ** Predicates on a pool of scans *)

Module Pool.
Section WithHost.
Context `{Host}.
Variable fs : FileSystem.
Variable exts : option WindowsExeExtensions.

Import Scanner Aux.

(** The resources a scan holds in its [result] set at this point. *)
Definition collected (t : Scan) : list ICompletionResource :=
  match t with
  | AwaitStat _ _ | AwaitReadDirectory _ _ => []
  | AwaitLstat fr _ | AwaitRealpath fr _
  | AwaitIsExecutableLink fr _ _ | AwaitIsExecutable fr _ _ => result fr
  | Settled r => default [] r
  end.

(** A resource that stands for an entry of a PATH directory which passed
    every test of the loop body: listed with a type other than unknown and
    directory, and either a regular entry documented by its friendly path
    and found executable under that path, or a symbolic link that resolves
    to an executable target and is documented as ["link -> target"]. *)
Definition genuine (sep : string) (paths : list string) (r : ICompletionResource) : Prop :=
  kind r = Method
  ∧ ∃ p fileType,
      p ∈ paths
      ∧ stat_isDirectory fs p = Some true
      ∧ (label r, fileType) ∈ listing fs p
      ∧ skipped_early fileType = false
      ∧ ((lstat_isSymbolicLink fs (fsPath (Uri_joinPath (Uri_file p) (label r))) = Some false
          ∧ documentation r
            = getFriendlyResourcePath (Uri_joinPath (Uri_file p) (label r)) sep
          ∧ isExecutable fs (documentation r) exts = Some true)
         ∨ (lstat_isSymbolicLink fs (fsPath (Uri_joinPath (Uri_file p) (label r))) = Some true
            ∧ ∃ target,
                realpath fs (fsPath (Uri_joinPath (Uri_file p) (label r))) = Some target
                ∧ isExecutable fs target exts = Some true
                ∧ documentation r
                  = fsPath (Uri_joinPath (Uri_file p) (label r)) +:+ " -> " +:+ target)).

Definition sound_frame (sep : string) (paths : list string) (fr : Frame) (file : string)
    : Prop :=
  path fr ∈ paths
  ∧ pathSeparator fr = sep
  ∧ stat_isDirectory fs (path fr) = Some true
  ∧ (∀ x, x ∈ rest fr → x ∈ listing fs (path fr))
  ∧ (∃ fileType, (file, fileType) ∈ listing fs (path fr) ∧ skipped_early fileType = false)
  ∧ Forall (genuine sep paths) (result fr).

(** What is known of a scan of the pass over [paths] at each of its
    suspension points. *)
Definition sound (sep : string) (paths : list string) (t : Scan) : Prop :=
  match t with
  | AwaitStat p s => p ∈ paths ∧ s = sep
  | AwaitReadDirectory p s => p ∈ paths ∧ s = sep ∧ stat_isDirectory fs p = Some true
  | AwaitLstat fr file => sound_frame sep paths fr file
  | AwaitRealpath fr file =>
      sound_frame sep paths fr file
      ∧ lstat_isSymbolicLink fs (fsPath (resource fr file)) = Some true
  | AwaitIsExecutableLink fr file symlinkRealPath =>
      sound_frame sep paths fr file
      ∧ lstat_isSymbolicLink fs (fsPath (resource fr file)) = Some true
      ∧ realpath fs (fsPath (resource fr file)) = Some symlinkRealPath
  | AwaitIsExecutable fr file formattedPath =>
      sound_frame sep paths fr file
      ∧ lstat_isSymbolicLink fs (fsPath (resource fr file)) = Some false
      ∧ formattedPath = getFriendlyResourcePath (resource fr file) sep
  | Settled r => Forall (genuine sep paths) (default [] r)
  end.

(** The names a scan has still to decide on: the entry it is working on and
    those after it in the listing. *)
Definition pending (t : Scan) : list string :=
  match t with
  | AwaitStat p _ | AwaitReadDirectory p _ => (listing fs p).*1
  | AwaitLstat fr file | AwaitRealpath fr file
  | AwaitIsExecutableLink fr file _ | AwaitIsExecutable fr file _ => file :: (rest fr).*1
  | Settled _ => []
  end.

(** A resumption in which the name test of line 141 finds the name free. *)
Definition free_step (t : Scan) : Scan := (resume fs exts t ∅).1.

Definition free_run (n : nat) (t : Scan) : Scan := Nat.iter n free_step t.

(** The names listed by the directories of [paths], in PATH order. *)
Definition names (paths : list string) : list string :=
  concat ((λ p, (listing fs p).*1) <$> paths).

End WithHost.
End Pool.

(** ** Predicates on watchers *)

Module WatchAux.

(** The watcher that line 188 creates for [d]. *)
Definition opened (hasCache : bool) (d : string) : FSWatcher :=
  {| dir := d; refreshes := hasCache; closed := false |}.

(** The same watcher after [close()]. *)
Definition closed_down (hasCache : bool) (d : string) : FSWatcher :=
  {| dir := d; refreshes := hasCache; closed := true |}.

(** [d] passes lines 183-188: it is a directory and [filesystem.watch]
    returns a watcher for it. *)
Definition watchable (fs : FileSystem) (d : string) : Prop :=
  stat_isDirectory fs d = Some true ∧ watch_ok fs d = true.

#[export] Instance watchable_dec fs d : Decision (watchable fs d).
Proof. unfold watchable. apply _. Defined.

(** The teardown pushed at line 197 for the [j]-th watcher created after
    [n] earlier ones, by the invocation whose registry is [reg]. *)
Definition teardown (n reg j : nat) (d : string) : Subscription :=
  {| watcher := n + j; registry := reg; subject := d |}.

(** Running the teardowns in [subs], in order. *)
Definition release_all (subs : list Subscription) (w : World) : World :=
  foldl (λ w' s, Watch.release s w') w subs.

End WatchAux.

(** ** Events that store no entry

    An entry reaches the cache at line 95 only, that is in a call of
    [getExecutablesInPath] or in the tail of one that was waiting for its
    scans. Every other event is quiet. *)
Definition quiet `{Host} (ev : Event) : Prop :=
  match ev with
  | Lookup _ _ _ _ | LatePublish _ _ _ => False
  | _ => True
  end.

(** ** The environment object handed to [watchPathDirectories]

    [ITerminalEnvironment] is a structural type: the object a caller passes
    is an ordinary object, whose properties are the listed entries, or
    Node's [process.env] itself. [watchPathDirectories] reads its argument
    once, in the property access [env.PATH] of line 168. On an ordinary
    object the access yields the value stored under that exact key; on
    [process.env] it yields [process_env_PATH], which on Windows does not
    depend on the casing of the key the variable is listed under. *)
Inductive EnvObject :=
  | PlainObject (entries : ITerminalEnvironment)
  | ProcessEnv.

Module WatchObject.
Section WithHost.
Context `{Host}.

(** [env.PATH] (line 168) *)
Definition PATH (env : EnvObject) : option string :=
  match env with
  | PlainObject entries => env_get entries "PATH"
  | ProcessEnv => process_env_PATH
  end.

(** Lines 166-171. *)
Definition pathDirectories (env : EnvObject) : list string :=
  match PATH env with
  | Some envPath =>
      if String.eqb envPath "" then []
      else foldl (λ s p, Watch.Set_add p s) []
             (split (if isWindows then ";" else ":")%char envPath)
  | None => []
  end.

(** [watchPathDirectories(context, env, pathExecutableCache)] (lines
    165-205) on an environment object; the loop body is [Watch.watch_dir]. *)
Definition watchPathDirectories (fs : FileSystem) (env : EnvObject)
    (hasCache : bool) (w : World) : World :=
  let reg := length (registries w) in
  let w0 :=
    {| cache := cache w; configListening := configListening w; watchers := watchers w;
       registries := registries w ++ [∅]; subscriptions := subscriptions w;
       nextObject := nextObject w; scanCalls := scanCalls w; fills := fills w |} in
  foldl (λ w' d, Watch.watch_dir fs hasCache reg d w') w0 (pathDirectories env).

End WithHost.
End WatchObject.

Module ExampleWindows.

(** [C:/Windows/system32] holds [cmd.exe]. *)
Definition system32 : FileSystem :=
  Example.disk [("C:/Windows/system32", [("cmd.exe", FileType.File)])] []
    ["C:/Windows/system32" +:+ backslash +:+ "cmd.exe"].

End ExampleWindows.

(** ** Symbolic links of a PATH directory *)

Module Link.
Section WithHost.
Context `{Host}.
Variable fs : FileSystem.

(** [resource.fsPath] for the entry [file] of the directory [p]
    (lines 106, 111, 119). *)
Definition linkPath (p file : string) : string :=
  fsPath (Uri_joinPath (Uri_file p) file).

(** [lstat] reports the entry [file] of [p] as a symbolic link (line 120). *)
Definition is_link (p file : string) : Prop :=
  lstat_isSymbolicLink fs (linkPath p file) = Some true.

(** The resource of lines 150-154 for a link: [kind] is [Method] (line 127)
    and the documentation is the template of line 128. *)
Definition link_resource (p file symlinkRealPath : string) : ICompletionResource :=
  {| label := file;
     documentation := linkPath p file +:+ " -> " +:+ symlinkRealPath;
     kind := Method |}.

(** *** What holds of a pool of scans between two resumptions *)

Variable exts : option WindowsExeExtensions.

Import Scanner.

(** The scan at position [i] works on the PATH entry at position [i]. *)
Definition own (sep : string) (paths : list string) (pool : list Scan) : Prop :=
  ∀ i p t, paths !! i = Some p → pool !! i = Some t → Pool.sound fs exts sep [p] t.

(** The name of every resource a scan holds is in the label set. *)
Definition covered (pool : list Scan) (labels : gset string) : Prop :=
  ∀ i t r, pool !! i = Some t → r ∈ Pool.collected t → label r ∈ labels.

(** No two resources held by the scans stand for links of the same name. *)
Definition one_link_per_name (paths : list string) (pool : list Scan) : Prop :=
  ∀ i i' p p' t t' k k' r r',
    paths !! i = Some p → paths !! i' = Some p' →
    pool !! i = Some t → pool !! i' = Some t' →
    Pool.collected t !! k = Some r → Pool.collected t' !! k' = Some r' →
    label r = label r' →
    is_link p (label r) → is_link p' (label r') →
    i = i' ∧ k = k'.

(** The entry [file] is the one the scan is working on, or comes later in
    its listing. *)
Definition ahead (file : string) (t : Scan) : Prop :=
  match t with
  | AwaitStat _ _ | AwaitReadDirectory _ _ => True
  | AwaitLstat fr f | AwaitRealpath fr f
  | AwaitIsExecutableLink fr f _ | AwaitIsExecutable fr f _ =>
      f = file
      ∨ ∃ fileType, (file, fileType) ∈ rest fr ∧ Aux.skipped_early fileType = false
  | Settled _ => False
  end.

(** The scan at position [i] has not passed the entry [file] without the
    name being in the label set. *)
Definition reached (i : nat) (file : string) (pool : list Scan) (labels : gset string)
    : Prop :=
  ∀ t, pool !! i = Some t → file ∈ labels ∨ ahead file t ∨ t = Settled None.

(** If the name [file] is in the label set, the scan at position [i] holds
    a resource of that name, unless it was aborted. *)
Definition held (i : nat) (file : string) (pool : list Scan) (labels : gset string)
    : Prop :=
  file ∈ labels →
  ∀ t, pool !! i = Some t →
       (∃ r, r ∈ Pool.collected t ∧ label r = file) ∨ t = Settled None.

End WithHost.
End Link.

(** * Properties *)

Open Scope nat_scope.

#[local] Set Warnings "-clear-no-such-hyp".

(** ** Every scan settles *)

Section ScannerFacts.
Context `{Host}.
Variable fs : FileSystem.
Variable exts : option WindowsExeExtensions.

Import Scanner Aux.

Abbreviation resume := (resume fs exts).
Abbreviation budget := (budget fs).
Abbreviation run_scan := (run_scan fs exts).
Abbreviation finish := (finish fs exts).
Abbreviation drain := (drain fs exts).
Abbreviation run_schedule := (run_schedule fs exts).
Abbreviation resume_at := (resume_at fs exts).

Lemma budget_loop p sep r files : budget (loop p sep r files) ≤ 3 * length files.
Proof.
  revert r. induction files as [|[file fileType] files IH]; intros r; simpl.
  - lia.
  - destruct (_ || _); simpl; [specialize (IH r)|]; lia.
Qed.

Lemma budget_continue fr : budget (continue fr) ≤ 3 * length (rest fr).
Proof. apply budget_loop. Qed.

Lemma budget_zero t : budget t = 0 → settled t.
Proof. destruct t; simpl; try lia. intros _. by eexists. Qed.

Lemma resume_budget t labels : budget t ≠ 0 → budget (resume t labels).1 < budget t.
Proof.
  destruct t as [p sep|p sep|fr file|fr file|fr file real|fr file fp|r]; simpl; intros Hne.
  - destruct (stat_isDirectory fs p) as [[]|]; simpl; lia.
  - unfold listing. destruct (readDirectory fs p) as [files|]; simpl; [|lia].
    pose proof (budget_loop p sep [] files). lia.
  - pose proof (budget_continue fr).
    destruct (lstat_isSymbolicLink fs _) as [[]|]; simpl; try lia.
    destruct (decide _); simpl; lia.
  - pose proof (budget_continue fr).
    destruct (realpath fs _); simpl; lia.
  - pose proof (budget_continue fr).
    pose proof (budget_loop (path fr) (pathSeparator fr)
      (result fr ++ [{| label := file;
                        documentation := fsPath (resource fr file) +:+ " -> " +:+ real;
                        kind := Method |}]) (rest fr)).
    destruct (isExecutable fs real exts) as [[]|]; simpl; try lia.
    destruct (decide _); simpl; lia.
  - pose proof (budget_continue fr).
    pose proof (budget_loop (path fr) (pathSeparator fr)
      (result fr ++ [{| label := file; documentation := fp; kind := Method |}]) (rest fr)).
    destruct (isExecutable fs fp exts) as [[]|]; simpl; lia.
  - lia.
Qed.

Lemma run_scan_settled n t labels : budget t ≤ n → settled (run_scan n t labels).1.
Proof.
  revert t labels. induction n as [|n IH]; intros t labels Hb; simpl.
  - apply budget_zero. lia.
  - destruct (decide (budget t = 0)) as [Hz|Hnz].
    + destruct (budget_zero t Hz) as [r ->]. simpl. apply IH. simpl. lia.
    + pose proof (resume_budget t labels Hnz) as Hlt.
      destruct (resume t labels) as [t' labels'] eqn:E. simpl in Hlt.
      apply IH. lia.
Qed.

Lemma finish_settled t labels : settled (finish t labels).1.
Proof. by apply run_scan_settled. Qed.

Lemma run_scan_Settled n r labels : run_scan n (Settled r) labels = (Settled r, labels).
Proof. induction n; simpl; auto. Qed.

Lemma finish_Settled r labels : finish (Settled r) labels = (Settled r, labels).
Proof. reflexivity. Qed.

Lemma drain_settled pool labels : Forall settled (drain pool labels).1.
Proof.
  revert labels. induction pool as [|t pool IH]; intros labels; simpl.
  - constructor.
  - pose proof (finish_settled t labels) as Hs.
    destruct (finish t labels) as [t' labels'].
    specialize (IH labels'). destruct (drain pool labels') as [pool' labels''].
    simpl in *. by constructor.
Qed.

Lemma drain_length pool labels : length (drain pool labels).1 = length pool.
Proof.
  revert labels. induction pool as [|t pool IH]; intros labels; simpl; [done|].
  destruct (finish t labels) as [t' labels'].
  specialize (IH labels'). destruct (drain pool labels') as [pool' labels''].
  simpl in *. by rewrite IH.
Qed.

(** A settled scan stays settled, so more resumptions change nothing. *)
Lemma run_scan_more n m t labels :
  settled (run_scan n t labels).1 → n ≤ m → run_scan m t labels = run_scan n t labels.
Proof.
  revert m t labels. induction n as [|n IH]; intros m t labels Hs Hle; simpl in *.
  - destruct Hs as [r ->]. apply run_scan_Settled.
  - destruct m as [|m]; [lia|]. simpl.
    destruct (resume t labels) as [t' labels']. apply IH; [done|lia].
Qed.

Lemma run_scan_finish n t labels : budget t ≤ n → run_scan n t labels = finish t labels.
Proof. intros Hn. apply run_scan_more; [apply finish_settled|done]. Qed.

(** Finishing a scan is resuming it once and finishing what comes out. *)
Lemma finish_resume t labels :
  finish t labels = finish (resume t labels).1 (resume t labels).2.
Proof.
  destruct (decide (budget t = 0)) as [Hz|Hnz].
  - destruct (budget_zero t Hz) as [r ->]. reflexivity.
  - pose proof (resume_budget t labels Hnz) as Hlt.
    unfold finish at 1. destruct (budget t) as [|n] eqn:Eb; [done|]. simpl.
    destruct (resume t labels) as [t' labels'] eqn:E. simpl in *.
    apply run_scan_finish. lia.
Qed.

(** *** Doomed scans settle absent under every schedule *)

Lemma doomed_resume t labels :
  doomed fs exts t → doomed fs exts (resume t labels).1 ∧ (resume t labels).2 = labels.
Proof.
  destruct t as [p sep|p sep|fr file|fr file|fr file real|fr file fp|[r|]];
    simpl; try done.
  - intros [Hs|Hr].
    + destruct (stat_isDirectory fs p) as [[]|]; simpl; done.
    + destruct (stat_isDirectory fs p) as [[]|]; simpl; done.
  - intros ->. done.
  - intros ->. done.
Qed.

Lemma doomed_run_scan n t labels :
  doomed fs exts t → doomed fs exts (run_scan n t labels).1 ∧ (run_scan n t labels).2 = labels.
Proof.
  revert t labels. induction n as [|n IH]; intros t labels Hd; simpl; [done|].
  destruct (doomed_resume t labels Hd) as [Hd' Hl].
  destruct (resume t labels) as [t' labels']. simpl in *. subst. by apply IH.
Qed.

Lemma doomed_finish t labels : doomed fs exts t → finish t labels = (Settled None, labels).
Proof.
  intros Hd. destruct (doomed_run_scan (budget t) t labels Hd) as [Hd' Hl].
  destruct (finish_settled t labels) as [r Hr]. unfold finish in *.
  destruct (run_scan (budget t) t labels) as [t' labels']. simpl in *. subst.
  destruct r; simpl in Hd'; done.
Qed.

Lemma resume_at_lookup_ne i j pool labels :
  i ≠ j → (resume_at j pool labels).1 !! i = pool !! i.
Proof.
  intros Hne. unfold resume_at. destruct (pool !! j) as [t|] eqn:E; [|done].
  destruct (resume t labels) as [t' labels']. simpl.
  by apply list_lookup_insert_ne.
Qed.

Lemma resume_at_lookup_eq i pool labels t :
  pool !! i = Some t →
  (resume_at i pool labels).1 !! i = Some (resume t labels).1
  ∧ (resume_at i pool labels).2 = (resume t labels).2.
Proof.
  intros E. unfold resume_at. rewrite E.
  destruct (resume t labels) as [t' labels']. simpl. split; [|done].
  apply list_lookup_insert_eq. by eapply lookup_lt_Some.
Qed.

Lemma doomed_run_schedule sched pool labels i t :
  pool !! i = Some t → doomed fs exts t →
  ∃ t', (run_schedule sched pool labels).1 !! i = Some t' ∧ doomed fs exts t'.
Proof.
  revert pool labels t. induction sched as [|j sched IH]; intros pool labels t Hi Hd; simpl.
  - eauto.
  - destruct (decide (i = j)) as [<-|Hne].
    + destruct (resume_at_lookup_eq i pool labels t Hi) as [Hl _].
      destruct (doomed_resume t labels Hd) as [Hd' _].
      destruct (resume_at i pool labels) as [pool' labels']. simpl in *. eauto.
    + pose proof (resume_at_lookup_ne i j pool labels Hne) as Hl.
      destruct (resume_at j pool labels) as [pool' labels']. simpl in *.
      rewrite <- Hl in Hi. eauto.
Qed.

Lemma drain_lookup pool labels i t :
  pool !! i = Some t → ∃ labels', (drain pool labels).1 !! i = Some (finish t labels').1.
Proof.
  revert labels i. induction pool as [|u pool IH]; intros labels i Hi; [done|]. simpl.
  destruct (finish u labels) as [u' labels1] eqn:Eu.
  destruct (drain pool labels1) as [pool' labels2] eqn:Ed.
  destruct i as [|i]; simpl in *.
  - inversion Hi; subst. exists labels. by rewrite Eu.
  - destruct (IH labels1 i Hi) as [labels' Hl]. rewrite Ed in Hl. eauto.
Qed.

Lemma doomed_settle sched pool labels i t :
  pool !! i = Some t → doomed fs exts t →
  (settle fs exts sched pool labels).1 !! i = Some None.
Proof.
  intros Hi Hd. unfold settle.
  destruct (doomed_run_schedule sched pool labels i t Hi Hd) as (t' & Hi' & Hd').
  destruct (run_schedule sched pool labels) as [pool' labels'] eqn:E1. simpl in Hi'.
  destruct (drain_lookup pool' labels' i t' Hi') as [labels'' Hl].
  destruct (drain pool' labels') as [pool'' labels3] eqn:E2. simpl in *.
  rewrite list_lookup_fmap, Hl. simpl. by rewrite doomed_finish.
Qed.

End ScannerFacts.

(** ** Failed directories (C6) *)

Section ScanErrors.
Context `{Host}.
Variable fs : FileSystem.
Variable exts : option WindowsExeExtensions.

Import Scanner Aux.

Lemma merge_absent rs1 rs2 : Cache.merge (rs1 ++ None :: rs2) = Cache.merge (rs1 ++ rs2).
Proof. unfold Cache.merge. by rewrite !fmap_app, !concat_app. Qed.

Lemma start_lookup sep paths i p :
  paths !! i = Some p → start sep paths !! i = Some (AwaitStat p sep).
Proof. intros Hp. unfold start. by rewrite list_lookup_fmap, Hp. Qed.

(** C6. A scan whose path is missing, is not a directory, or cannot be
    checked, returns absent, raises nothing and leaves the label set alone;
    in a whole pass, under every order of resumption, the promise of such a
    directory settles absent; a scan that has reached a call whose error no
    inner [try] catches settles absent however much it had collected; and an
    absent result adds nothing to the merged set. *)
Theorem scan_absent_on_failure :
  (∀ path sep labels,
     stat_isDirectory fs path ≠ Some true →
     _getExecutablesInPath fs exts path sep labels = (None, labels))
  ∧ (∀ sched sep paths i p,
       paths !! i = Some p →
       stat_isDirectory fs p ≠ Some true ∨ readDirectory fs p = None →
       (join fs exts sched sep paths).1 !! i = Some None)
  ∧ (∀ sched pool labels i t,
       pool !! i = Some t → uncaught fs exts t →
       resume fs exts t labels = (Settled None, labels)
       ∧ (settle fs exts sched pool labels).1 !! i = Some None)
  ∧ (∀ rs1 rs2, Cache.merge (rs1 ++ None :: rs2) = Cache.merge (rs1 ++ rs2)).
Proof.
  split; [|split; [|split]].
  - intros path sep labels Hs. unfold _getExecutablesInPath.
    rewrite doomed_finish; [done|]. simpl. by left.
  - intros sched sep paths i p Hp Hbad. unfold join.
    eapply doomed_settle; [by apply start_lookup|]. exact Hbad.
  - intros sched pool labels i t Hi Hu. split.
    + destruct t; simpl in *; try done; by rewrite Hu.
    + eapply doomed_settle; [done|]. destruct t; simpl in *; done.
  - apply merge_absent.
Qed.

End ScanErrors.

(** A scan that ends on an uncaught error drops its result set, not the
    labels it had added: with [PATH=/a:/b], [/a] accepts [foo] and then
    fails on [bad], and [/b/foo] is skipped as a duplicate. The merged set is
    empty while the label set holds [foo]. This needs an executability check
    that rejects, which its contract rules out. *)
Lemma aborted_scan_keeps_its_labels :
  (Scanner.join (H := Posix.host) Example.flaky None [] "/" ["/a"; "/b"]).1
  = [None; Some []]
  ∧ (Scanner.join (H := Posix.host) Example.flaky None [] "/" ["/a"; "/b"]).2
    = {[ "foo" ]}.
Proof. split; vm_compute; reflexivity. Qed.

(** ** A scan that runs alone is the loop it was written as *)

Section Sequential.
Context `{Host}.
Variable fs : FileSystem.
Variable exts : option WindowsExeExtensions.

Import Scanner Aux.

Lemma finish_loop p sep res files labels :
  finish fs exts (loop p sep res files) labels
  = (Settled (scan_loop fs exts p sep res files labels).1,
     (scan_loop fs exts p sep res files labels).2).
Proof.
  revert res labels. induction files as [|[file fileType] files IH]; intros res labels.
  - reflexivity.
  - simpl. fold (skipped_early fileType). destruct (skipped_early fileType); [apply IH|].
    rewrite finish_resume. unfold entry. simpl. unfold resource. simpl.
    destruct (lstat_isSymbolicLink fs _) as [[]|]; simpl.
    + rewrite finish_resume. simpl. unfold resource. simpl.
      destruct (realpath fs _) as [real|]; simpl; [|apply IH].
      rewrite finish_resume. simpl. unfold resource. simpl.
      destruct (isExecutable fs real exts) as [[]|]; simpl; try apply IH.
      destruct (decide (file ∈ labels)); simpl; apply IH.
    + destruct (decide (file ∈ labels)); simpl; [apply IH|].
      rewrite finish_resume. simpl.
      destruct (isExecutable fs _ exts) as [[]|]; simpl; try apply IH.
      reflexivity.
    + apply IH.
Qed.

Lemma scan_alone_is_scanDirectory p sep labels :
  _getExecutablesInPath fs exts p sep labels = scanDirectory fs exts p sep labels.
Proof.
  unfold _getExecutablesInPath, scanDirectory. rewrite finish_resume. simpl.
  destruct (stat_isDirectory fs p) as [[]|]; simpl; try done.
  rewrite finish_resume. simpl.
  destruct (readDirectory fs p) as [files|]; simpl; [|done].
  rewrite finish_loop. simpl. by destruct (scan_loop _ _ _ _ _ _ _).
Qed.

(** What the loop adds: fresh names only, each from an entry it accepted. *)
Lemma scan_loop_sound p sep res files labels res' labels' :
  scan_loop fs exts p sep res files labels = (Some res', labels') →
  ∃ added : list ICompletionResource,
    res' = (res ++ added)%list
    ∧ labels' = labels ∪ list_to_set (label <$> added)
    ∧ NoDup (label <$> added)
    ∧ (∀ x, x ∈ label <$> added → x ∉ labels)
    ∧ (∀ r, r ∈ added →
         kind r = Method
         ∧ ∃ fileType labels0,
             (label r, fileType) ∈ files
             ∧ skipped_early fileType = false
             ∧ entry fs exts p sep (label r) labels0 = Accept (documentation r)).
Proof.
  revert res labels. induction files as [|[file fileType] files IH]; intros res labels; simpl.
  - intros [= <- <-]. exists []. rewrite app_nil_r. simpl.
    repeat split; try set_solver. constructor.
  - destruct (skipped_early fileType) eqn:Esk.
    { intros Hs. destruct (IH _ _ Hs) as (added & ? & ? & ? & ? & Hfrom).
      exists added. repeat split; try done; try (by apply Hfrom).
      destruct (Hfrom r) as (_ & ft & l0 & ? & ? & ?); [done|].
      exists ft, l0. repeat split; try done. by right. }
    destruct (entry fs exts p sep file labels) as [|fp|] eqn:Een; [| |done].
    { intros Hs. destruct (IH _ _ Hs) as (added & ? & ? & ? & ? & Hfrom).
      exists added. repeat split; try done; try (by apply Hfrom).
      destruct (Hfrom r) as (_ & ft & l0 & ? & ? & ?); [done|].
      exists ft, l0. repeat split; try done. by right. }
    intros Hs. destruct (IH _ _ Hs) as (added & -> & -> & Hnd & Hfresh & Hfrom).
    assert (file ∉ labels) as Hfile.
    { unfold entry in Een. simpl in Een.
      destruct (lstat_isSymbolicLink fs _) as [[]|]; try done.
      - destruct (realpath fs _); try done.
        destruct (isExecutable fs _ exts) as [[]|]; try done.
        by destruct (decide (file ∈ labels)).
      - by destruct (decide (file ∈ labels)). }
    exists ({| label := file; documentation := fp; kind := Method |} :: added).
    split; [by rewrite <- app_assoc|].
    split; [simpl; set_solver|].
    split.
    { simpl. constructor; [|done]. intros Hin. apply Hfresh in Hin. set_solver. }
    split.
    { simpl. intros x [->|Hx]%elem_of_cons; [done|]. apply Hfresh in Hx. set_solver. }
    intros r [->|Hr]%elem_of_cons; simpl.
    + split; [done|]. exists fileType, labels. repeat split; try done. by left.
    + destruct (Hfrom r Hr) as (? & ft & l0 & ? & ? & ?). split; [done|].
      exists ft, l0. repeat split; try done. by right.
Qed.

(** The label set only grows. *)
Lemma scan_loop_mono p sep res files labels :
  labels ⊆ (scan_loop fs exts p sep res files labels).2.
Proof.
  revert res labels. induction files as [|[file fileType] files IH]; intros res labels; simpl.
  - done.
  - destruct (skipped_early fileType); [apply IH|].
    destruct (entry fs exts p sep file labels); [apply IH| |done].
    etrans; [|apply IH]. set_solver.
Qed.

(** With an executability check that never rejects, the loop returns a set. *)
Lemma scan_loop_total p sep res files labels :
  (∀ q, isExecutable fs q exts ≠ None) →
  ∃ res' labels', scan_loop fs exts p sep res files labels = (Some res', labels').
Proof.
  intros Hex. revert res labels.
  induction files as [|[file fileType] files IH]; intros res labels; simpl.
  - eauto.
  - destruct (skipped_early fileType); [apply IH|].
    destruct (entry fs exts p sep file labels) eqn:Een; try apply IH.
    unfold entry in Een. simpl in Een.
    destruct (lstat_isSymbolicLink fs _) as [[]|]; try done.
    + destruct (realpath fs _); try done.
      destruct (isExecutable fs _ exts) as [[]|]; try done.
      by destruct (decide (file ∈ labels)).
    + destruct (decide (file ∈ labels)); [done|].
      destruct (isExecutable fs _ exts) as [[]|] eqn:E; try done.
      by apply Hex in E.
Qed.

(** An entry that the body accepts whenever its name is free ends up in the
    result, provided the listing names it once and the name was free at the
    start. *)
Lemma scan_loop_accepts p sep res files labels res' labels' file fileType doc :
  NoDup (files.*1) →
  (file, fileType) ∈ files →
  skipped_early fileType = false →
  (∀ labels0, file ∉ labels0 → entry fs exts p sep file labels0 = Accept doc) →
  file ∉ labels →
  scan_loop fs exts p sep res files labels = (Some res', labels') →
  {| label := file; documentation := doc; kind := Method |} ∈ res'.
Proof.
  intros Hnd Hin Hsk Hacc. revert res labels Hnd Hin.
  induction files as [|[f t] files IH]; intros res labels Hnd Hin Hfree; simpl.
  { by apply elem_of_nil in Hin. }
  simpl in Hnd. apply NoDup_cons in Hnd as [Hf Hnd].
  apply elem_of_cons in Hin as [[= <- <-]|Hin].
  - rewrite Hsk, (Hacc labels Hfree). intros Hs.
    apply scan_loop_sound in Hs as (added & -> & _). set_solver.
  - assert (f ≠ file) as Hne.
    { intros ->. apply Hf. apply list_elem_of_fmap. by exists (file, fileType). }
    destruct (skipped_early t); [by apply IH|].
    destruct (entry fs exts p sep f labels); [by apply IH| |done].
    apply IH; [done..|]. set_solver.
Qed.

End Sequential.

(** ** Symbolic links: one scan on its own *)

Section Symlinks.
Context `{Host}.
Variable fs : FileSystem.
Variable exts : option WindowsExeExtensions.

Import Scanner Aux.

(** Under every schedule: a link whose target is executable passes the name
    test and is added in one resumption, with nothing in between. *)
Lemma link_accepted_in_one_step fr file target labels :
  isExecutable fs target exts = Some true →
  file ∉ labels →
  resume fs exts (AwaitIsExecutableLink fr file target) labels
  = (loop (path fr) (pathSeparator fr)
       (result fr ++ [{| label := file;
                         documentation := fsPath (resource fr file) +:+ " -> " +:+ target;
                         kind := Method |}])
       (rest fr),
     labels ∪ {[ file ]}).
Proof. intros Hex Hfree. simpl. rewrite Hex. by destruct (decide (file ∈ labels)). Qed.

(** A scan that runs alone, with a listing that names every entry once and
    an executability check that never rejects: what becomes of an entry that
    [lstat] reports as a symbolic link. *)
Lemma symlink_entry_alone path sep labels files file fileType :
  stat_isDirectory fs path = Some true →
  readDirectory fs path = Some files →
  NoDup (files.*1) →
  (file, fileType) ∈ files →
  skipped_early fileType = false →
  lstat_isSymbolicLink fs (fsPath (Uri_joinPath (Uri_file path) file)) = Some true →
  (∀ q, isExecutable fs q exts ≠ None) →
  ∃ res labels',
    _getExecutablesInPath fs exts path sep labels = (Some res, labels')
    ∧ match realpath fs (fsPath (Uri_joinPath (Uri_file path) file)) with
      | Some target =>
          if decide (isExecutable fs target exts = Some true ∧ file ∉ labels)
          then
            {| label := file;
               documentation :=
                 fsPath (Uri_joinPath (Uri_file path) file) +:+ " -> " +:+ target;
               kind := Method |} ∈ res
            ∧ (∀ r, r ∈ res → label r = file →
                 documentation r
                 = fsPath (Uri_joinPath (Uri_file path) file) +:+ " -> " +:+ target)
          else ∀ r, r ∈ res → label r ≠ file
      | None => ∀ r, r ∈ res → label r ≠ file
      end.
Proof.
  intros Hstat Hread Hnd Hin Hsk Hlstat Hex.
  rewrite scan_alone_is_scanDirectory. unfold scanDirectory.
  rewrite Hstat, Hread.
  destruct (scan_loop_total fs exts path sep [] files labels Hex) as (res & labels' & Hs).
  exists res, labels'. split; [done|].
  pose proof (scan_loop_sound fs exts _ _ _ _ _ _ _ Hs) as (added & Hres & _ & _ & Hfresh & Hfrom).
  simpl in Hres. subst added.
  assert (∀ r, r ∈ res → label r = file →
            (file ∉ labels)
            ∧ ∃ labels0, entry fs exts path sep file labels0 = Accept (documentation r))
    as Hfile.
  { intros r Hr Hl. split.
    - apply Hfresh. apply list_elem_of_fmap. by exists r.
    - destruct (Hfrom r Hr) as (_ & ft & labels0 & _ & _ & Hacc).
      rewrite Hl in Hacc. eauto. }
  unfold entry in Hfile. simpl in Hfile. rewrite Hlstat in Hfile.
  destruct (realpath fs _) as [target|] eqn:Ereal.
  - destruct (decide _) as [[Hexec Hfree]|Hno].
    + split.
      * eapply scan_loop_accepts; [done..| |done|exact Hs].
        intros labels0 Hfree0. unfold entry. simpl.
        rewrite Hlstat, Ereal, Hexec. by destruct (decide (file ∈ labels0)).
      * intros r Hr Hl. destruct (Hfile r Hr Hl) as (_ & labels0 & Hacc).
        rewrite Hexec in Hacc. destruct (decide (file ∈ labels0)); [done|].
        by inversion Hacc.
    + intros r Hr Hl. destruct (Hfile r Hr Hl) as (Hfree & labels0 & Hacc).
      destruct (isExecutable fs target exts) as [[]|] eqn:Eexec; try done.
      by destruct Hno.
  - intros r Hr Hl. by destruct (Hfile r Hr Hl) as (_ & labels0 & Hacc).
Qed.

End Symlinks.

(** C7 as stated fails: with [PATH=/a:/b], a regular executable [/a/foo] and
    a link [/b/foo] to the executable [/opt/foo], the link resolves and its
    target is executable, yet the result holds no resource documented
    ["/b/foo -> /opt/foo"]: the name [foo] was taken by [/a]. *)
Lemma symlink_resource_suppressed_by_earlier_name :
  readDirectory Example.shadowed "/b" = Some [("foo", 65%Z)]
  ∧ lstat_isSymbolicLink Example.shadowed "/b/foo" = Some true
  ∧ realpath Example.shadowed "/b/foo" = Some "/opt/foo"
  ∧ isExecutable Example.shadowed "/opt/foo" None = Some true
  ∧ ¬ ∃ e, (Cache.getExecutablesInPath (H := Posix.host) Example.shadowed []
              (Some [("PATH", Some "/a:/b")]) None (Cache.new (H := Posix.host) None)).1 = Some e
           ∧ ∃ r, r ∈ completionResources e
                  ∧ documentation r = "/b/foo -> /opt/foo".
Proof.
  repeat split; try reflexivity.
  intros (e & He & r & Hr & Hd).
  assert (completionResources <$>
            (Cache.getExecutablesInPath (H := Posix.host) Example.shadowed []
               (Some [("PATH", Some "/a:/b")]) None (Cache.new (H := Posix.host) None)).1
          = Some [{| label := "foo"; documentation := "/a/foo"; kind := Method |}]) as Hc.
  { vm_compute. reflexivity. }
  rewrite He in Hc. simpl in Hc. injection Hc as Hc. rewrite Hc in Hr.
  apply list_elem_of_singleton in Hr. subst r. simpl in Hd. discriminate.
Qed.

(** ** Label uniqueness (C1) *)

Section Labels.
Context `{Host}.
Variable fs : FileSystem.
Variable exts : option WindowsExeExtensions.

Import Scanner Aux.

Lemma drain_start sep paths labels :
  drain fs exts (start sep paths) labels
  = (Settled <$> (scan_all fs exts sep paths labels).1, (scan_all fs exts sep paths labels).2).
Proof.
  revert labels. induction paths as [|p paths IH]; intros labels; simpl; [done|].
  pose proof (scan_alone_is_scanDirectory fs exts p sep labels) as Hp.
  unfold _getExecutablesInPath in Hp.
  destruct (finish_settled fs exts (AwaitStat p sep) labels) as [r Hr].
  destruct (finish fs exts (AwaitStat p sep) labels) as [t labels1]. simpl in *. subst t.
  rewrite <- Hp. unfold start in IH. rewrite IH.
  by destruct (scan_all fs exts sep paths labels1).
Qed.

Lemma join_in_order sep paths :
  join fs exts [] sep paths = scan_all fs exts sep paths ∅.
Proof.
  unfold join, settle. simpl. rewrite drain_start.
  destruct (scan_all fs exts sep paths ∅) as [rs labels]. simpl.
  f_equal. rewrite <- list_fmap_compose. simpl. by rewrite list_fmap_id.
Qed.

Lemma scanDirectory_fresh p sep labels r labels' :
  scanDirectory fs exts p sep labels = (r, labels') →
  labels ⊆ labels'
  ∧ NoDup (label <$> default [] r)
  ∧ (∀ x, x ∈ label <$> default [] r → (x ∉ labels) ∧ x ∈ labels').
Proof.
  unfold scanDirectory.
  destruct (stat_isDirectory fs p) as [[]|];
    [|intros [= <- <-]; simpl; split; [done|split; [constructor|set_solver]]..].
  destruct (readDirectory fs p) as [files|];
    [|intros [= <- <-]; simpl; split; [done|split; [constructor|set_solver]]].
  intros Hs. pose proof (scan_loop_mono fs exts p sep [] files labels) as Hm.
  rewrite Hs in Hm. simpl in Hm. split; [done|].
  destruct r as [res|]; simpl; [|split; [constructor|set_solver]].
  apply scan_loop_sound in Hs as (added & -> & -> & Hnd & Hfresh & _). simpl.
  split; [done|]. intros x Hx. split; [by apply Hfresh|]. set_solver.
Qed.

Lemma scan_all_fresh sep paths labels rs labels' :
  scan_all fs exts sep paths labels = (rs, labels') →
  labels ⊆ labels'
  ∧ NoDup (label <$> Cache.merge rs)
  ∧ (∀ x, x ∈ label <$> Cache.merge rs → (x ∉ labels) ∧ x ∈ labels').
Proof.
  revert labels rs labels'. induction paths as [|p paths IH]; intros labels rs labels'; simpl.
  - intros [= <- <-]. simpl. split; [done|]. split; [constructor|set_solver].
  - destruct (scanDirectory fs exts p sep labels) as [r labels1] eqn:Ep.
    destruct (scan_all fs exts sep paths labels1) as [rs' labels2] eqn:Eps.
    intros [= <- <-].
    apply scanDirectory_fresh in Ep as (Hsub1 & Hnd1 & Hfresh1).
    apply IH in Eps as (Hsub2 & Hnd2 & Hfresh2).
    split; [set_solver|].
    unfold Cache.merge in *. simpl. rewrite fmap_app. split.
    + apply NoDup_app. split; [done|]. split; [|done].
      intros x Hx1 Hx2. apply Hfresh1 in Hx1 as [_ Hx1]. apply Hfresh2 in Hx2 as [Hx2 _]. done.
    + intros x [Hx|Hx]%elem_of_app.
      * apply Hfresh1 in Hx as [? ?]. set_solver.
      * apply Hfresh2 in Hx as [? ?]. set_solver.
Qed.

(** When the scans of a pass run one after the other, no two resources of
    the merged set share a label. *)
Lemma pass_in_order_labels_unique sep paths :
  NoDup (label <$> Cache.merge (join fs exts [] sep paths).1).
Proof.
  rewrite join_in_order.
  destruct (scan_all fs exts sep paths ∅) as [rs labels] eqn:E.
  by apply scan_all_fresh in E as (_ & Hnd & _).
Qed.

End Labels.

(** C1 fails on the code. [PATH=/a:/b], both directories hold a regular
    executable [foo]; the scans are resumed alternately so that both pass the
    [labels.has] test of line 141 before either reaches the [labels.add] of
    line 155 (the [await] of line 145 lies between the two). The merged set
    then holds two resources labelled [foo]. *)
Theorem labels_duplicated_by_interleaving :
  (λ e, label <$> completionResources e) <$>
    (Cache.getExecutablesInPath (H := Posix.host) Example.twice [0; 1; 0; 1; 0; 1; 0; 1]
       (Some [("PATH", Some "/a:/b")]) None (Cache.new (H := Posix.host) None)).1
  = Some ["foo"; "foo"]
  ∧ completionResources <$>
      (Cache.getExecutablesInPath (H := Posix.host) Example.twice [0; 1; 0; 1; 0; 1; 0; 1]
         (Some [("PATH", Some "/a:/b")]) None (Cache.new (H := Posix.host) None)).1
    = Some [{| label := "foo"; documentation := "/a/foo"; kind := Method |};
            {| label := "foo"; documentation := "/b/foo"; kind := Method |}].
Proof. split; vm_compute; reflexivity. Qed.

(** ** The cache manager *)

Section CacheFacts.
Context `{Host}.

(** *** Frames: what the watch subsystem leaves alone *)

Lemma watch_dir_frame fs hasCache reg d w :
  cache (Watch.watch_dir fs hasCache reg d w) = cache w
  ∧ configListening (Watch.watch_dir fs hasCache reg d w) = configListening w
  ∧ nextObject (Watch.watch_dir fs hasCache reg d w) = nextObject w
  ∧ scanCalls (Watch.watch_dir fs hasCache reg d w) = scanCalls w
  ∧ fills (Watch.watch_dir fs hasCache reg d w) = fills w.
Proof.
  unfold Watch.watch_dir. destruct (decide _); [done|].
  destruct (stat_isDirectory fs d) as [[]|]; try done.
  by destruct (watch_ok fs d).
Qed.

Lemma watchPathDirectories_frame fs env hasCache w :
  cache (Watch.watchPathDirectories fs env hasCache w) = cache w
  ∧ configListening (Watch.watchPathDirectories fs env hasCache w) = configListening w
  ∧ nextObject (Watch.watchPathDirectories fs env hasCache w) = nextObject w
  ∧ scanCalls (Watch.watchPathDirectories fs env hasCache w) = scanCalls w
  ∧ fills (Watch.watchPathDirectories fs env hasCache w) = fills w.
Proof.
  unfold Watch.watchPathDirectories.
  generalize (length (registries w)). intros reg.
  set (w0 := {| cache := cache w; configListening := configListening w;
                watchers := watchers w; registries := registries w ++ [∅];
                subscriptions := subscriptions w; nextObject := nextObject w;
                scanCalls := scanCalls w; fills := fills w |}).
  change (cache w) with (cache w0). change (configListening w) with (configListening w0).
  change (nextObject w) with (nextObject w0). change (scanCalls w) with (scanCalls w0).
  change (fills w) with (fills w0). clearbody w0.
  revert w0. induction (Watch.pathDirectories env) as [|d ds IH]; intros w0; simpl; [done|].
  destruct (IH (Watch.watch_dir fs hasCache reg d w0)) as (-> & -> & -> & -> & ->).
  apply watch_dir_frame.
Qed.

(** *** The cache stays consistent with the probes *)

Lemma consistent_new setting : consistent (Cache.new setting).
Proof. split; [done|]. intros e. simpl. done. Qed.

Lemma consistent_publish pathValue executables labels w :
  consistent w → consistent (Cache.publish pathValue executables labels w).2.
Proof.
  intros [Hids _]. split.
  - change ((fills w ++ [(nextObject w, pathValue)]).*1 = seq 0 (S (nextObject w))).
    by rewrite seq_S, fmap_app, Hids.
  - simpl. intros e [= <-]. exists pathValue. split; [done|]. simpl. set_solver.
Qed.

Lemma consistent_record_scans paths w : consistent w → consistent (Cache.record_scans paths w).
Proof. done. Qed.

Lemma consistent_fill fs sched pathValue w :
  consistent w → consistent (Cache.fill fs sched pathValue w).2.
Proof.
  intros Hc. unfold Cache.fill. destruct (Scanner.join _ _ _ _ _) as [rs labels].
  by apply consistent_publish, consistent_record_scans.
Qed.

Lemma consistent_lookup fs sched env shellType w :
  consistent w → consistent (Cache.getExecutablesInPath fs sched env shellType w).2.
Proof.
  intros Hc. unfold Cache.getExecutablesInPath.
  destruct (Cache.resolvePathValue _ _) as [pathValue|]; [|done].
  destruct (_cachedExes (cache w)) as [e|]; [|by apply consistent_fill].
  destruct (decide _); [done|by apply consistent_fill].
Qed.

Lemma consistent_without_entry c w :
  _cachedExes c = None → consistent w → consistent (with_cache c w).
Proof. intros Hn [Hids _]. split; [done|]. simpl. rewrite Hn. done. Qed.

Lemma consistent_step w ev : consistent w → consistent (step w ev).
Proof.
  intros Hc. destruct ev as [fs sched env shellType|p ex l| |affects setting|fs env hc|s|i|]; simpl.
  - by apply consistent_lookup.
  - by apply consistent_publish.
  - by apply consistent_without_entry.
  - unfold Cache.onDidChangeConfiguration. destruct (configListening w); [|done].
    unfold Cache.configurationListener. destruct affects.
    + by apply consistent_without_entry.
    + by destruct w.
  - destruct (watchPathDirectories_frame fs env hc w) as (Hca & _ & Hn & _ & Hf).
    unfold consistent. rewrite Hca, Hn, Hf. exact Hc.
  - exact Hc.
  - unfold Watch.onChange. destruct (watchers w !! i) as [wt|]; [|done].
    destruct (closed wt); [done|]. destruct (refreshes wt); [|done].
    by apply consistent_without_entry.
  - exact Hc.
Qed.

Lemma consistent_run evs w : consistent w → consistent (run evs w).
Proof.
  revert w. induction evs as [|ev evs IH]; intros w Hc; simpl; [done|].
  by apply IH, consistent_step.
Qed.

Lemma NoDup_fst_functional {A B} (l : list (A * B)) a b b' :
  NoDup (l.*1) → (a, b) ∈ l → (a, b') ∈ l → b = b'.
Proof.
  induction l as [|[a0 b0] l IH]; simpl; intros Hnd Hb Hb'.
  - by apply elem_of_nil in Hb.
  - apply NoDup_cons in Hnd as [Hnotin Hnd].
    apply elem_of_cons in Hb as [Hb|Hb]; apply elem_of_cons in Hb' as [Hb'|Hb'];
      simplify_eq.
    + done.
    + destruct Hnotin. apply list_elem_of_fmap. by exists (a0, b').
    + destruct Hnotin. apply list_elem_of_fmap. by exists (a0, b).
    + by apply IH.
Qed.

Lemma fills_functional w o p p' :
  consistent w → (o, p) ∈ fills w → (o, p') ∈ fills w → p = p'.
Proof.
  intros [Hids _] Hp Hp'.
  assert (NoDup (fills w).*1) as Hnd by (rewrite Hids; apply NoDup_seq).
  by eapply NoDup_fst_functional.
Qed.

(** *** Reading the environment *)

Lemma split_nonempty sep s : split sep s ≠ [].
Proof.
  destruct s as [|c s]; simpl; [done|].
  destruct (Ascii.eqb c sep); [done|]. by destruct (split sep s).
Qed.

Lemma directories_nonempty pathValue : Cache.directories pathValue ≠ [].
Proof. apply split_nonempty. Qed.

Lemma env_get_Some env k v : env_get env k = Some v → k ∈ keys env.
Proof.
  induction env as [|[k' v'] env IH]; simpl; [done|].
  destruct (String.eqb k' k) eqn:E.
  - apply String.eqb_eq in E as ->. intros _. set_solver.
  - intros Hg. apply IH in Hg. set_solver.
Qed.

Lemma find_path_key_None env :
  (∀ k, k ∈ keys env → toLowerCase k ≠ "path") →
  List.find (λ key, String.eqb (toLowerCase key) "path") (keys env) = None.
Proof.
  intros Hno. destruct (List.find _ _) as [k|] eqn:E; [|done].
  apply List.find_some in E as [Hin Hk].
  apply String.eqb_eq in Hk. apply list_elem_of_In in Hin. by apply Hno in Hin.
Qed.

Lemma find_path_key_first (pre post : ITerminalEnvironment) k v :
  toLowerCase k = "path" →
  (∀ k', k' ∈ keys pre → toLowerCase k' ≠ "path") →
  List.find (λ key, String.eqb (toLowerCase key) "path") (keys (pre ++ (k, v) :: post)) = Some k
  ∧ env_get (pre ++ (k, v) :: post) k = v.
Proof.
  intros Hk. induction pre as [|[k' v'] pre IH]; simpl; intros Hpre.
  - rewrite Hk. simpl. by rewrite String.eqb_refl.
  - assert (toLowerCase k' ≠ "path") as Hk' by (apply Hpre; set_solver).
    destruct (String.eqb (toLowerCase k') "path") eqn:E1;
      [by apply String.eqb_eq in E1|].
    destruct (String.eqb k' k) eqn:E2; [apply String.eqb_eq in E2; by subst|].
    apply IH. intros k'' Hin. apply Hpre. set_solver.
Qed.

Lemma resolve_without_key env shellType :
  shellType ≠ Some GitBash →
  (∀ k, k ∈ keys env → toLowerCase k ≠ "path") →
  Cache.resolvePathValue env shellType = None.
Proof.
  intros Hshell Hno. unfold Cache.resolvePathValue.
  destruct shellType as [[]|]; try done.
  - destruct isWindows.
    + by rewrite find_path_key_None.
    + destruct (env_get env "PATH") eqn:E; [|done].
      apply env_get_Some in E. by apply Hno in E.
  - destruct isWindows.
    + by rewrite find_path_key_None.
    + destruct (env_get env "PATH") eqn:E; [|done].
      apply env_get_Some in E. by apply Hno in E.
Qed.

Lemma resolve_first_path_key (env pre post : ITerminalEnvironment) shellType k v :
  shellType ≠ Some GitBash → isWindows = true →
  env = pre ++ (k, v) :: post →
  toLowerCase k = "path" →
  (∀ k', k' ∈ keys pre → toLowerCase k' ≠ "path") →
  Cache.resolvePathValue env shellType = v.
Proof.
  intros Hshell Hwin -> Hk Hpre.
  destruct (find_path_key_first pre post k v Hk Hpre) as [Hfind Hget].
  unfold Cache.resolvePathValue. rewrite Hwin, Hfind, Hget.
  destruct (String.eqb k "") eqn:E; [|by destruct shellType as [[]|]].
  apply String.eqb_eq in E. by subst k.
Qed.

(** *** What a fill does *)

Lemma fill_spec fs sched pathValue w :
  ∃ e w',
    Cache.fill fs sched pathValue w = (Some e, w')
    ∧ oid e = nextObject w
    ∧ completionResources e
      = Cache.merge (Scanner.join fs (_cachedWindowsExeExtensions (cache w)) sched
                       Cache.pathSeparator (Cache.directories pathValue)).1
    ∧ labels e
      = (Scanner.join fs (_cachedWindowsExeExtensions (cache w)) sched
           Cache.pathSeparator (Cache.directories pathValue)).2
    ∧ _cachedPathValue (cache w') = Some pathValue
    ∧ _cachedExes (cache w') = Some e
    ∧ _cachedWindowsExeExtensions (cache w') = _cachedWindowsExeExtensions (cache w)
    ∧ scanCalls w' = scanCalls w ++ Cache.directories pathValue
    ∧ fills w' = fills w ++ [(nextObject w, pathValue)]
    ∧ nextObject w' = S (nextObject w)
    ∧ configListening w' = configListening w
    ∧ watchers w' = watchers w
    ∧ registries w' = registries w
    ∧ subscriptions w' = subscriptions w.
Proof.
  unfold Cache.fill. destruct (Scanner.join _ _ _ _ _) as [rs labels]. simpl.
  eexists _, _. split; [reflexivity|]. simpl. done.
Qed.

Lemma lookup_serves_resolved fs sched (env : ITerminalEnvironment) shellType w :
  match Cache.resolvePathValue env shellType with
  | None => Cache.getExecutablesInPath fs sched (Some env) shellType w = (None, w)
  | Some pathValue =>
      ∃ e w', Cache.getExecutablesInPath fs sched (Some env) shellType w = (Some e, w')
              ∧ _cachedPathValue (cache w') = Some pathValue
  end.
Proof.
  unfold Cache.getExecutablesInPath. simpl.
  destruct (Cache.resolvePathValue env shellType) as [pathValue|]; [|done].
  destruct (_cachedExes (cache w)) as [e|] eqn:Ee.
  - destruct (decide _) as [Hk|Hk]; [by eexists _, _|].
    destruct (fill_spec fs sched pathValue w) as (e' & w' & -> & _ & _ & _ & ? & _).
    by eexists _, _.
  - destruct (fill_spec fs sched pathValue w) as (e' & w' & -> & _ & _ & _ & ? & _).
    by eexists _, _.
Qed.

(** *** Between two fills

    A quiet event stores no entry, calls no scanner and creates no object;
    it may clear the cache or replace the suffix setting. *)

Lemma quiet_step w ev :
  quiet ev → _cachedExes (cache w) = None →
  _cachedExes (cache (step w ev)) = None
  ∧ scanCalls (step w ev) = scanCalls w
  ∧ nextObject (step w ev) = nextObject w.
Proof.
  intros Hq Hn.
  destruct ev as [fs sched env shellType|p ex l| |affects setting|fs env hc|s|i|]; simpl;
    try done.
  - unfold Cache.onDidChangeConfiguration.
    destruct (configListening w); [|done]. by destruct affects.
  - by destruct (watchPathDirectories_frame fs env hc w) as (-> & _ & -> & -> & _).
  - unfold Watch.onChange. destruct (watchers w !! i) as [wt|]; [|done].
    destruct (closed wt); [done|]. by destruct (refreshes wt).
Qed.

Lemma quiet_run evs w :
  Forall quiet evs → _cachedExes (cache w) = None →
  _cachedExes (cache (run evs w)) = None
  ∧ scanCalls (run evs w) = scanCalls w
  ∧ nextObject (run evs w) = nextObject w.
Proof.
  revert w. induction evs as [|ev evs IH]; intros w Hq Hn; simpl; [done|].
  apply Forall_cons in Hq as [Hev Hq].
  destruct (quiet_step w ev Hev Hn) as (Hn' & Hs & Ho).
  destruct (IH (step w ev) Hq Hn') as (? & ? & ?).
  split; [done|]. split; congruence.
Qed.

(** A lookup that finds no entry stored fills the cache. *)
Lemma lookup_without_entry fs sched (env : option ITerminalEnvironment)
    shellType pathValue w :
  Cache.resolvePathValue (default process_env env) shellType = Some pathValue →
  _cachedExes (cache w) = None →
  ∃ e w',
    Cache.getExecutablesInPath fs sched env shellType w = (Some e, w')
    ∧ scanCalls w' = scanCalls w ++ Cache.directories pathValue
    ∧ oid e = nextObject w
    ∧ completionResources e
      = Cache.merge (Scanner.join fs (_cachedWindowsExeExtensions (cache w)) sched
                       Cache.pathSeparator (Cache.directories pathValue)).1
    ∧ _cachedPathValue (cache w') = Some pathValue
    ∧ _cachedExes (cache w') = Some e.
Proof.
  intros Hr Hn. unfold Cache.getExecutablesInPath. rewrite Hr, Hn.
  destruct (fill_spec fs sched pathValue w)
    as (e & w' & -> & Hoid & Hres & _ & Hpv & Hce & _ & Hsc & _).
  by exists e, w'.
Qed.

End CacheFacts.

(** ** The claims about the cache manager *)

Section CacheClaims.
Context `{Host}.

(** C5. The PATH string is resolved in this order: with the Git Bash hint,
    the process-level PATH, whatever the supplied environment holds;
    otherwise on Windows, the value of the first key that equals ["path"]
    without regard to case (absent when there is none); otherwise the value
    of the key ["PATH"] itself. The lookup is absent when nothing is
    resolved and otherwise serves an entry under the resolved string. *)
Theorem PATH_resolution_priority (env : ITerminalEnvironment) :
  Cache.resolvePathValue env (Some GitBash) = process_env_PATH
  ∧ (∀ shellType, shellType ≠ Some GitBash → isWindows = true →
       (∀ pre k v post,
          env = pre ++ (k, v) :: post →
          toLowerCase k = "path" →
          (∀ k', k' ∈ keys pre → toLowerCase k' ≠ "path") →
          Cache.resolvePathValue env shellType = v)
       ∧ ((∀ k, k ∈ keys env → toLowerCase k ≠ "path") →
          Cache.resolvePathValue env shellType = None))
  ∧ (∀ shellType, shellType ≠ Some GitBash → isWindows = false →
       Cache.resolvePathValue env shellType = env_get env "PATH"
       ∧ (∀ pre v post,
            env = pre ++ ("PATH", v) :: post → "PATH" ∉ keys pre →
            Cache.resolvePathValue env shellType = v)
       ∧ ("PATH" ∉ keys env → Cache.resolvePathValue env shellType = None))
  ∧ (∀ fs sched shellType w,
       match Cache.resolvePathValue env shellType with
       | None => Cache.getExecutablesInPath fs sched (Some env) shellType w = (None, w)
       | Some pathValue =>
           ∃ e w', Cache.getExecutablesInPath fs sched (Some env) shellType w = (Some e, w')
                   ∧ _cachedPathValue (cache w') = Some pathValue
       end).
Proof.
  split; [done|]. split; [|split].
  - intros shellType Hshell Hwin. split.
    + intros pre k v post Henv Hk Hpre. by eapply resolve_first_path_key.
    + intros Hno. by apply resolve_without_key.
  - intros shellType Hshell Hposix.
    assert (Cache.resolvePathValue env shellType = env_get env "PATH") as Hr.
    { unfold Cache.resolvePathValue. rewrite Hposix. by destruct shellType as [[]|]. }
    split; [done|]. rewrite Hr. split.
    + clear Hr. intros pre v post -> Hpre. induction pre as [|[k' v'] pre IH]; simpl.
      * done.
      * destruct (String.eqb k' "PATH") eqn:E.
        -- apply String.eqb_eq in E. subst k'. destruct Hpre. apply elem_of_cons. by left.
        -- apply IH. intros Hin. apply Hpre. apply elem_of_cons. by right.
    + intros Hno. destruct (env_get env "PATH") eqn:E; [|done].
      apply env_get_Some in E. done.
  - intros fs sched shellType w. apply lookup_serves_resolved.
Qed.

(** C3. A lookup is absent exactly when no PATH value is resolved. Without
    the Git Bash hint, an environment none of whose keys equals ["path"]
    (in any casing) resolves nothing, so the lookup is absent and the world
    is left as it was. Whenever a value is resolved the lookup returns an
    entry. *)
Theorem lookup_absent_iff_unresolved fs sched
    (env : option ITerminalEnvironment) shellType w :
  ((Cache.getExecutablesInPath fs sched env shellType w).1 = None
   ↔ Cache.resolvePathValue (default process_env env) shellType = None)
  ∧ (shellType ≠ Some GitBash →
     (∀ k, k ∈ keys (default process_env env) → toLowerCase k ≠ "path") →
     Cache.getExecutablesInPath fs sched env shellType w = (None, w))
  ∧ (∀ pathValue,
       Cache.resolvePathValue (default process_env env) shellType = Some pathValue →
       ∃ e, (Cache.getExecutablesInPath fs sched env shellType w).1 = Some e).
Proof.
  assert (∀ pathValue,
            Cache.resolvePathValue (default process_env env) shellType = Some pathValue →
            ∃ e, (Cache.getExecutablesInPath fs sched env shellType w).1 = Some e) as Hsome.
  { intros pathValue Hr. unfold Cache.getExecutablesInPath. rewrite Hr.
    destruct (fill_spec fs sched pathValue w) as (e' & w' & Hf & _).
    destruct (_cachedExes (cache w)) as [e|]; [|rewrite Hf; eauto].
    destruct (decide _); [eauto|rewrite Hf; eauto]. }
  split; [|split; [|done]].
  - split.
    + intros Hnone.
      destruct (Cache.resolvePathValue _ shellType) as [pathValue|] eqn:Hr; [|done].
      destruct (Hsome pathValue eq_refl) as [e He]. congruence.
    + intros Hr. unfold Cache.getExecutablesInPath. by rewrite Hr.
  - intros Hshell Hno. unfold Cache.getExecutablesInPath.
    by rewrite resolve_without_key.
Qed.

(** C4, amended. [refresh] clears the stored entry and the remembered PATH
    string, whatever the state (also when nothing is stored: it is then the
    identity), and touches nothing else. As long as no fill completes after
    it (whatever else happens: further refreshes, configuration changes,
    watch events, a dispose), the next lookup, for any resolved PATH string,
    misses the cache: it calls the scanner once per PATH entry (at least
    once) and returns a new object. *)
Theorem refresh_forces_rescan fs sched (env : option ITerminalEnvironment)
    shellType pathValue w evs :
  Cache.resolvePathValue (default process_env env) shellType = Some pathValue →
  Forall quiet evs →
  _cachedExes (cache (Cache.refresh w)) = None
  ∧ _cachedPathValue (cache (Cache.refresh w)) = None
  ∧ Cache.refresh w
    = with_cache {| _cachedPathValue := None;
                    _cachedWindowsExeExtensions := _cachedWindowsExeExtensions (cache w);
                    _cachedExes := None |} w
  ∧ (_cachedExes (cache w) = None → _cachedPathValue (cache w) = None →
     Cache.refresh w = w)
  ∧ ∃ e w',
      Cache.getExecutablesInPath fs sched env shellType (run evs (Cache.refresh w))
      = (Some e, w')
      ∧ scanCalls w' = scanCalls w ++ Cache.directories pathValue
      ∧ Cache.directories pathValue ≠ []
      ∧ oid e = nextObject w
      ∧ completionResources e
        = Cache.merge
            (Scanner.join fs
               (_cachedWindowsExeExtensions (cache (run evs (Cache.refresh w)))) sched
               Cache.pathSeparator (Cache.directories pathValue)).1
      ∧ _cachedPathValue (cache w') = Some pathValue
      ∧ _cachedExes (cache w') = Some e.
Proof.
  intros Hr Hq. split; [done|]. split; [done|]. split; [done|]. split.
  - intros He Hp. destruct w as [[pv ex ce] ? ? ? ? ? ? ?]. simpl in *. by subst.
  - destruct (quiet_run evs (Cache.refresh w) Hq eq_refl) as (Hn & Hs & Ho).
    destruct (lookup_without_entry fs sched env shellType pathValue
                (run evs (Cache.refresh w)) Hr Hn)
      as (e & w' & Hget & Hsc & Hoid & Hres & Hpv & Hce).
    exists e, w'. split; [done|]. split; [by rewrite Hsc, Hs|].
    split; [apply directories_nonempty|]. split; [by rewrite Hoid, Ho|]. done.
Qed.

Lemma lookup_on_consistent fs sched (env : option ITerminalEnvironment)
    shellType pathValue w :
  consistent w →
  Cache.resolvePathValue (default process_env env) shellType = Some pathValue →
  ∃ e w',
    Cache.getExecutablesInPath fs sched env shellType w = (Some e, w')
    ∧ _cachedPathValue (cache w') = Some pathValue
    ∧ _cachedExes (cache w') = Some e
    ∧ (∀ p, (oid e, p) ∈ fills w' ↔ p = pathValue)
    ∧ (∀ e0, _cachedExes (cache w) = Some e0 →
             _cachedPathValue (cache w) = Some pathValue →
             e = e0 ∧ w' = w)
    ∧ (oid e < nextObject w →
       _cachedExes (cache w) = Some e
       ∧ _cachedPathValue (cache w) = Some pathValue
       ∧ w' = w)
    ∧ (_cachedExes (cache w) = None ∨ _cachedPathValue (cache w) ≠ Some pathValue →
       oid e = nextObject w
       ∧ scanCalls w' = scanCalls w ++ Cache.directories pathValue).
Proof.
  intros Hc Hr.
  pose proof (consistent_lookup fs sched env shellType w Hc) as Hc'.
  unfold Cache.getExecutablesInPath in *. rewrite Hr in *.
  assert (∀ e w',
            Cache.fill fs sched pathValue w = (Some e, w') → consistent w' →
            (_cachedExes (cache w) = None ∨ _cachedPathValue (cache w) ≠ Some pathValue) →
            _cachedPathValue (cache w') = Some pathValue
            ∧ _cachedExes (cache w') = Some e
            ∧ (∀ p, (oid e, p) ∈ fills w' ↔ p = pathValue)
            ∧ (∀ e0, _cachedExes (cache w) = Some e0 →
                     _cachedPathValue (cache w) = Some pathValue →
                     e = e0 ∧ w' = w)
            ∧ (oid e < nextObject w →
               _cachedExes (cache w) = Some e
               ∧ _cachedPathValue (cache w) = Some pathValue
               ∧ w' = w)
            ∧ (_cachedExes (cache w) = None ∨ _cachedPathValue (cache w) ≠ Some pathValue →
               oid e = nextObject w
               ∧ scanCalls w' = scanCalls w ++ Cache.directories pathValue)) as Hmiss.
  { intros e w' Hf Hcw' Hnot.
    destruct (fill_spec fs sched pathValue w)
      as (e1 & w1 & Hf1 & Hoid & _ & _ & Hpv & Hce & _ & Hsc & Hfl & _).
    rewrite Hf in Hf1. injection Hf1 as <- <-.
    split; [done|]. split; [done|]. split; [|split; [|split]].
    - intros p. split.
      + intros Hp. eapply fills_functional; [exact Hcw'|exact Hp|].
        rewrite Hfl, Hoid. set_solver.
      + intros ->. rewrite Hfl, Hoid. set_solver.
    - intros e0 He0 Hk. destruct Hnot as [Hn|Hn]; [congruence|done].
    - lia.
    - done. }
  destruct (fill_spec fs sched pathValue w) as (e1 & w1 & Hf1 & _).
  destruct (_cachedExes (cache w)) as [e|] eqn:Ee.
  - destruct (decide (_cachedPathValue (cache w) = Some pathValue)) as [Hk|Hk].
    + exists e, w. split; [done|]. split; [done|]. split; [done|].
      destruct Hc as [Hids Hstored]. destruct (Hstored e Ee) as (p & Hp & Hin).
      assert (p = pathValue) as -> by congruence.
      split; [|split; [|split]].
      * intros p. split; [|by intros ->].
        intros Hp'. eapply fills_functional; [by split|exact Hp'|exact Hin].
      * intros e0 [= <-] _. done.
      * done.
      * intros [?|?]; done.
    + rewrite Hf1 in *. exists e1, w1. split; [done|]. apply Hmiss; auto.
  - rewrite Hf1 in *. exists e1, w1. split; [done|]. apply Hmiss; auto.
Qed.

(** C2. After any history (lookups, also overlapping ones, refreshes,
    configuration changes, watch events), a lookup that resolves a PATH
    string returns an entry that is stored under exactly that string and was
    created for that string and for no other. If an entry is stored and the
    remembered string equals the resolved one, the lookup returns that very
    object and leaves the world as it was: no scanner call, no new object.
    An object that existed before the call is returned in that case only;
    in every other case the object is new and the scanner was called once
    per PATH entry. *)
Theorem cached_entry_served_only_for_its_key setting evs fs sched
    (env : option ITerminalEnvironment) shellType pathValue :
  Cache.resolvePathValue (default process_env env) shellType = Some pathValue →
  ∃ e w',
    Cache.getExecutablesInPath fs sched env shellType (run evs (Cache.new setting))
    = (Some e, w')
    ∧ _cachedPathValue (cache w') = Some pathValue
    ∧ _cachedExes (cache w') = Some e
    ∧ (∀ p, (oid e, p) ∈ fills w' ↔ p = pathValue)
    ∧ (∀ e0, _cachedExes (cache (run evs (Cache.new setting))) = Some e0 →
             _cachedPathValue (cache (run evs (Cache.new setting))) = Some pathValue →
             e = e0 ∧ w' = run evs (Cache.new setting))
    ∧ (oid e < nextObject (run evs (Cache.new setting)) →
       _cachedExes (cache (run evs (Cache.new setting))) = Some e
       ∧ _cachedPathValue (cache (run evs (Cache.new setting))) = Some pathValue
       ∧ w' = run evs (Cache.new setting))
    ∧ (_cachedExes (cache (run evs (Cache.new setting))) = None
       ∨ _cachedPathValue (cache (run evs (Cache.new setting))) ≠ Some pathValue →
       oid e = nextObject (run evs (Cache.new setting))
       ∧ scanCalls w'
         = scanCalls (run evs (Cache.new setting)) ++ Cache.directories pathValue).
Proof.
  intros Hr. apply lookup_on_consistent; [|done].
  apply consistent_run, consistent_new.
Qed.

(** *** The configuration listener *)




End CacheClaims.

(** ** The directory-watch subsystem *)

Section WatchFacts.
Context `{Host}.

Lemma watch_nothing fs env hasCache w :
  Watch.pathDirectories env = [] →
  Watch.watchPathDirectories fs env hasCache w
  = {| cache := cache w; configListening := configListening w; watchers := watchers w;
       registries := registries w ++ [∅]; subscriptions := subscriptions w;
       nextObject := nextObject w; scanCalls := scanCalls w; fills := fills w |}.
Proof. intros Hd. unfold Watch.watchPathDirectories. by rewrite Hd. Qed.

Lemma watch_object_plain fs (entries : ITerminalEnvironment) hasCache w :
  WatchObject.watchPathDirectories fs (PlainObject entries) hasCache w
  = Watch.watchPathDirectories fs entries hasCache w.
Proof. done. Qed.

(** C10, amended. [watchPathDirectories] takes no shell hint and reads its
    environment argument in the one property access [env.PATH]: two
    environment objects on which the access yields the same value are
    watched alike. On an ordinary object the access is the lookup of the
    exact key ["PATH"]: when there is no value under it, no watcher is
    created and no teardown registered, also when, on Windows, a key in
    another casing holds the PATH string that [getExecutablesInPath]
    resolves and serves an entry for. On [process.env] the access is the
    process-level PATH, whatever the casing of its key: the call does what
    it does on the ordinary object that holds that value under ["PATH"]. *)
Theorem watch_reads_only_the_PATH_key fs (entries : ITerminalEnvironment) hasCache w :
  env_get entries "PATH" = None →
  WatchObject.watchPathDirectories fs (PlainObject entries) hasCache w
  = Watch.watchPathDirectories fs entries hasCache w
  ∧ watchers (WatchObject.watchPathDirectories fs (PlainObject entries) hasCache w)
    = watchers w
  ∧ subscriptions (WatchObject.watchPathDirectories fs (PlainObject entries) hasCache w)
    = subscriptions w
  ∧ (∀ d, Watch.active d (WatchObject.watchPathDirectories fs (PlainObject entries) hasCache w)
          = Watch.active d w)
  ∧ (∀ env1 env2 : EnvObject,
       WatchObject.PATH env1 = WatchObject.PATH env2 →
       WatchObject.watchPathDirectories fs env1 hasCache w
       = WatchObject.watchPathDirectories fs env2 hasCache w)
  ∧ (isWindows = true →
     ∀ pre k v post fs' sched shellType,
       entries = pre ++ (k, Some v) :: post →
       toLowerCase k = "path" →
       (∀ k', k' ∈ keys pre → toLowerCase k' ≠ "path") →
       shellType ≠ Some GitBash →
       Cache.resolvePathValue entries shellType = Some v
       ∧ ∃ e w',
           Cache.getExecutablesInPath fs' sched (Some entries) shellType w = (Some e, w')
           ∧ _cachedPathValue (cache w') = Some v)
  ∧ WatchObject.watchPathDirectories fs ProcessEnv hasCache w
    = Watch.watchPathDirectories fs [("PATH", process_env_PATH)] hasCache w.
Proof.
  intros Hno. split; [done|]. rewrite watch_object_plain.
  assert (Watch.pathDirectories entries = []) as Hd.
  { unfold Watch.pathDirectories. by rewrite Hno. }
  rewrite (watch_nothing fs entries hasCache w Hd).
  split; [done|]. split; [done|]. split; [done|]. split; [|split].
  - intros env1 env2 Heq.
    unfold WatchObject.watchPathDirectories, WatchObject.pathDirectories.
    by rewrite Heq.
  - intros Hwin pre k v post fs' sched shellType Henv Hk Hpre Hshell.
    assert (Cache.resolvePathValue entries shellType = Some v) as Hr
      by (by eapply resolve_first_path_key).
    split; [done|].
    pose proof (lookup_serves_resolved fs' sched entries shellType w) as Hlook.
    by rewrite Hr in Hlook.
  - done.
Qed.

(** *** One invocation watches a directory once *)

Lemma Set_add_NoDup x s : NoDup s → NoDup (Watch.Set_add x s).
Proof.
  intros Hnd. unfold Watch.Set_add. destruct (decide (x ∈ s)); [done|].
  apply NoDup_app. split; [done|]. split; [|apply NoDup_singleton].
  intros y Hy ->%list_elem_of_singleton. done.
Qed.

Lemma pathDirectories_NoDup env : NoDup (Watch.pathDirectories env).
Proof.
  unfold Watch.pathDirectories. destruct (env_get env "PATH") as [envPath|]; [|constructor].
  destruct (String.eqb envPath ""); [constructor|].
  generalize (split (if isWindows then ";"%char else ":"%char) envPath). intros l.
  assert (NoDup (@nil string)) as Hnil by constructor. revert Hnil.
  generalize (@nil string). induction l as [|p l IH]; intros s Hs; simpl; [done|].
  by apply IH, Set_add_NoDup.
Qed.

Lemma watch_dir_adds fs hasCache reg d w :
  (watchers (Watch.watch_dir fs hasCache reg d w) = watchers w
   ∧ subscriptions (Watch.watch_dir fs hasCache reg d w) = subscriptions w
   ∧ registries (Watch.watch_dir fs hasCache reg d w) = registries w)
  ∨ (watchers (Watch.watch_dir fs hasCache reg d w)
     = watchers w ++ [{| dir := d; refreshes := hasCache; closed := false |}]
     ∧ subscriptions (Watch.watch_dir fs hasCache reg d w)
       = subscriptions w ++ [{| watcher := length (watchers w); registry := reg; subject := d |}]
     ∧ registries (Watch.watch_dir fs hasCache reg d w)
       = alter (λ active, active ∪ {[ d ]}) reg (registries w)
     ∧ stat_isDirectory fs d = Some true).
Proof.
  unfold Watch.watch_dir. destruct (decide _); [by left|].
  destruct (stat_isDirectory fs d) as [[]|]; try by left.
  destruct (watch_ok fs d); [right|left]; done.
Qed.

Lemma watch_dirs_added fs hasCache reg ds w :
  ∃ added,
    watchers (foldl (λ w' d, Watch.watch_dir fs hasCache reg d w') w ds)
    = watchers w ++ added
    ∧ dir <$> added `sublist_of` ds
    ∧ Forall (λ wt, closed wt = false ∧ refreshes wt = hasCache
                    ∧ stat_isDirectory fs (dir wt) = Some true) added.
Proof.
  revert w. induction ds as [|d ds IH]; intros w; simpl.
  - exists []. by rewrite app_nil_r.
  - destruct (IH (Watch.watch_dir fs hasCache reg d w)) as (added & -> & Hsub & Hall).
    destruct (watch_dir_adds fs hasCache reg d w) as [(-> & _)|(-> & _ & _ & Hst)].
    + exists added. split; [done|]. split; [by apply sublist_cons|done].
    + exists ({| dir := d; refreshes := hasCache; closed := false |} :: added).
      split; [by rewrite <- app_assoc|]. split; [by apply sublist_skip|].
      by constructor.
Qed.

(** Within one invocation every directory gets at most one watcher: the
    list of directories is a set. *)
Lemma one_watcher_per_directory_in_one_invocation fs env hasCache w :
  ∃ added,
    watchers (Watch.watchPathDirectories fs env hasCache w) = watchers w ++ added
    ∧ NoDup (dir <$> added)
    ∧ Forall (λ wt, closed wt = false ∧ refreshes wt = hasCache
                    ∧ stat_isDirectory fs (dir wt) = Some true) added.
Proof.
  unfold Watch.watchPathDirectories.
  match goal with |- context [foldl _ ?w0 _] =>
    destruct (watch_dirs_added fs hasCache (length (registries w))
                (Watch.pathDirectories env) w0) as (added & Hw & Hsub & Hall)
  end.
  exists added. split; [done|]. split; [|done].
  eapply sublist_NoDup; [apply pathDirectories_NoDup|exact Hsub].
Qed.

(** The teardown closes the watcher and takes the directory out of the
    registry of its invocation. *)
Lemma release_removes s w wt active :
  watchers w !! watcher s = Some wt →
  registries w !! registry s = Some active →
  ∃ wt',
    watchers (Watch.release s w) !! watcher s = Some wt'
    ∧ closed wt' = true ∧ dir wt' = dir wt
    ∧ registries (Watch.release s w) !! registry s = Some (active ∖ {[ subject s ]})
    ∧ subject s ∉ default ∅ (registries (Watch.release s w) !! registry s).
Proof.
  intros Hw Hr. unfold Watch.release. simpl.
  rewrite !list_lookup_alter_eq, Hw, Hr. simpl.
  eexists. split; [done|]. simpl. repeat split. set_solver.
Qed.

End WatchFacts.

(** C8 fails on the code across invocations. [activeWatchers] is created
    anew by every invocation (line 173), so the test of line 178 never sees
    a directory watched by an earlier invocation: after two invocations with
    [PATH=/usr/bin], two open watchers stand on [/usr/bin]. *)
Theorem directory_watched_again_by_second_invocation :
  length (Watch.active "/usr/bin"
            (Watch.watchPathDirectories (H := Posix.host) Example.usr
               [("PATH", Some "/usr/bin")] true (Cache.new (H := Posix.host) None))) = 1
  ∧ length (Watch.active "/usr/bin"
              (Watch.watchPathDirectories (H := Posix.host) Example.usr
                 [("PATH", Some "/usr/bin")] true
                 (Watch.watchPathDirectories (H := Posix.host) Example.usr
                    [("PATH", Some "/usr/bin")] true (Cache.new (H := Posix.host) None)))) = 2
  ∧ watchers
      (Watch.watchPathDirectories (H := Posix.host) Example.usr
         [("PATH", Some "/usr/bin")] true
         (Watch.watchPathDirectories (H := Posix.host) Example.usr
            [("PATH", Some "/usr/bin")] true (Cache.new (H := Posix.host) None)))
    = [{| dir := "/usr/bin"; refreshes := true; closed := false |};
       {| dir := "/usr/bin"; refreshes := true; closed := false |}].
Proof. repeat split; vm_compute; reflexivity. Qed.

(** ** The theorems at concrete inputs *)

(** C2 at a second lookup with the PATH string of the first. *)
Lemma cached_entry_served_only_for_its_key_witness :
  ∃ e w',
    Cache.getExecutablesInPath (H := Posix.host) Example.usr [] (Some Scenario.posix_env) None
      (run (H := Posix.host) [Lookup Example.usr [] (Some Scenario.posix_env) None]
         (Cache.new (H := Posix.host) None))
    = (Some e, w')
    ∧ _cachedPathValue (cache w') = Some "/usr/bin"
    ∧ (∀ p, (oid e, p) ∈ fills w' ↔ p = "/usr/bin").
Proof.
  destruct (cached_entry_served_only_for_its_key (H := Posix.host) None
              [Lookup Example.usr [] (Some Scenario.posix_env) None]
              Example.usr [] (Some Scenario.posix_env) None "/usr/bin")
    as (e & w' & Hget & Hkey & _ & Hfor & _).
  - reflexivity.
  - exists e, w'. split; [exact Hget|]. split; [exact Hkey|exact Hfor].
Defined.

(** C4 at a refresh after a first lookup, followed by a configuration
    change and a second refresh. *)
Lemma refresh_forces_rescan_witness :
  ∃ e w',
    Cache.getExecutablesInPath (H := Posix.host) Example.usr [] (Some Scenario.posix_env) None
      (run (H := Posix.host) [ConfigurationChanged true None; Refresh]
         (Cache.refresh
            (run (H := Posix.host) [Lookup Example.usr [] (Some Scenario.posix_env) None]
               (Cache.new (H := Posix.host) None))))
    = (Some e, w')
    ∧ scanCalls w' = ["/usr/bin"; "/usr/bin"]
    ∧ oid e = 1.
Proof.
  destruct (refresh_forces_rescan (H := Posix.host) Example.usr []
              (Some Scenario.posix_env) None "/usr/bin"
              (run (H := Posix.host) [Lookup Example.usr [] (Some Scenario.posix_env) None]
                 (Cache.new (H := Posix.host) None))
              [ConfigurationChanged true None; Refresh])
    as (_ & _ & _ & _ & e & w' & Hget & Hscans & _ & Hoid & _).
  - reflexivity.
  - repeat constructor.
  - exists e, w'. split; [exact Hget|]. split; [exact Hscans|exact Hoid].
Defined.

(** C4 as stated fails. A first call misses the cache and starts its scan of
    [/usr/bin] (line 79); while it waits at line 84, [refresh] runs; the
    scan settles and the call stores its entry (lines 94-95). The next call
    with the same PATH string is served that entry: the world is left as it
    was, with the one scanner call of the first call and no new object. *)
Lemma refresh_undone_by_fill_in_flight :
  let started := Cache.record_scans ["/usr/bin"] (Cache.new (H := Posix.host) None) in
  let scans := Scanner.join (H := Posix.host) Example.usr None [] "/" ["/usr/bin"] in
  let w := run (H := Posix.host)
             [Refresh; LatePublish "/usr/bin" (Cache.merge scans.1) scans.2] started in
  ∃ e,
    Cache.getExecutablesInPath (H := Posix.host) Example.usr [] (Some Scenario.posix_env)
      None w = (Some e, w)
    ∧ oid e = 0
    ∧ nextObject w = 1
    ∧ scanCalls w = ["/usr/bin"].
Proof.
  simpl. eexists. split; [|split; [|split]]; reflexivity.
Qed.


(** C10 on a Windows host, for an ordinary object that spells the key
    [Path]: no watcher, and a lookup that serves [run.exe]. *)
Lemma watch_reads_only_the_PATH_key_witness :
  watchers (WatchObject.watchPathDirectories (H := Windows.host) Example.tools
              (PlainObject Scenario.windows_env) true (Cache.new (H := Windows.host) None))
  = []
  ∧ (∃ e w',
       Cache.getExecutablesInPath (H := Windows.host) Example.tools []
         (Some Scenario.windows_env) None (Cache.new (H := Windows.host) None)
       = (Some e, w')
       ∧ _cachedPathValue (cache w') = Some "C:/tools")
  ∧ (λ e, label <$> completionResources e) <$>
      (Cache.getExecutablesInPath (H := Windows.host) Example.tools []
         (Some Scenario.windows_env) None (Cache.new (H := Windows.host) None)).1
    = Some ["run.exe"].
Proof.
  destruct (watch_reads_only_the_PATH_key (H := Windows.host) Example.tools
              Scenario.windows_env true (Cache.new (H := Windows.host) None))
    as (_ & Hw & _ & _ & _ & Hlookup & _).
  - reflexivity.
  - split; [exact Hw|]. split.
    + destruct (Hlookup eq_refl [] "Path" "C:/tools" [] Example.tools [] None)
        as (_ & e & w' & Hget & Hkey).
      * reflexivity.
      * reflexivity.
      * intros k' Hk'. by apply elem_of_nil in Hk'.
      * discriminate.
      * exists e, w'. split; [exact Hget|exact Hkey].
    + vm_compute. reflexivity.
Defined.

(** C10 as stated fails. On the Windows host the process environment lists
    its PATH under the key [Path] and holds nothing under the exact key
    [PATH]; handed [process.env], [watchPathDirectories] reads
    [process.env.PATH], which Node answers without regard to case, and
    creates a watcher on [C:/Windows/system32]. *)
Lemma process_env_watched_under_any_casing :
  keys (@process_env Windows.host) = ["Path"]
  ∧ env_get (@process_env Windows.host) "PATH" = None
  ∧ Cache.resolvePathValue (H := Windows.host) (@process_env Windows.host) None
    = Some "C:/Windows/system32"
  ∧ watchers (WatchObject.watchPathDirectories (H := Windows.host) ExampleWindows.system32
                ProcessEnv true (Cache.new (H := Windows.host) None))
    = [WatchAux.opened true "C:/Windows/system32"]
  ∧ subscriptions (WatchObject.watchPathDirectories (H := Windows.host)
                     ExampleWindows.system32 ProcessEnv true
                     (Cache.new (H := Windows.host) None))
    = [WatchAux.teardown 0 0 0 "C:/Windows/system32"].
Proof.
  repeat split; vm_compute; reflexivity.
Qed.

(** ** Facts that hold under every schedule *)

Section Schedules.
Context `{Host}.
Variable fs : FileSystem.
Variable exts : option WindowsExeExtensions.

Import Scanner Aux Pool.

Lemma run_schedule_app s1 s2 pool labels :
  run_schedule fs exts (s1 ++ s2) pool labels
  = run_schedule fs exts s2 (run_schedule fs exts s1 pool labels).1
      (run_schedule fs exts s1 pool labels).2.
Proof.
  revert pool labels. induction s1 as [|i s1 IH]; intros pool labels; simpl; [done|].
  destruct (resume_at fs exts i pool labels) as [pool' labels']. apply IH.
Qed.

Lemma run_schedule_replicate n i pool labels t :
  pool !! i = Some t →
  run_schedule fs exts (replicate n i) pool labels
  = (<[i := (run_scan fs exts n t labels).1]> pool, (run_scan fs exts n t labels).2).
Proof.
  revert pool labels t. induction n as [|n IH]; intros pool labels t Hi; simpl.
  - by rewrite list_insert_id.
  - unfold resume_at. rewrite Hi.
    destruct (resume fs exts t labels) as [t' labels'] eqn:E.
    rewrite (IH _ _ t'); [|apply list_lookup_insert_eq; by eapply lookup_lt_Some].
    by rewrite list_insert_insert_eq.
Qed.

(** Completing the pool is one more schedule. *)
Lemma drain_as_schedule pre pool labels :
  ∃ sched,
    run_schedule fs exts sched (pre ++ pool) labels
    = (pre ++ (drain fs exts pool labels).1, (drain fs exts pool labels).2).
Proof.
  revert pre labels. induction pool as [|t pool IH]; intros pre labels; simpl.
  - by exists [].
  - destruct (finish fs exts t labels) as [t' labels'] eqn:Et.
    destruct (IH (pre ++ [t']) labels') as [sched Hs].
    destruct (drain fs exts pool labels') as [pool' labels''] eqn:Ed. simpl in *.
    exists (replicate (budget fs t) (length pre) ++ sched).
    rewrite run_schedule_app.
    rewrite (run_schedule_replicate _ _ _ _ t); [|by rewrite list_lookup_middle].
    fold (finish fs exts t labels). rewrite Et. simpl.
    rewrite insert_app_r_alt by done. rewrite Nat.sub_diag. simpl.
    rewrite <- app_assoc in Hs. simpl in Hs. rewrite Hs.
    by rewrite <- app_assoc.
Qed.

Lemma settle_as_schedule sched pool labels :
  ∃ sched',
    settle fs exts sched pool labels
    = (outcome <$> (run_schedule fs exts sched' pool labels).1,
       (run_schedule fs exts sched' pool labels).2)
    ∧ Forall settled (run_schedule fs exts sched' pool labels).1.
Proof.
  unfold settle.
  destruct (run_schedule fs exts sched pool labels) as [pool1 labels1] eqn:E1.
  destruct (drain_as_schedule [] pool1 labels1) as [s2 Hs2]. simpl in Hs2.
  pose proof (drain_settled fs exts pool1 labels1) as Hset.
  destruct (drain fs exts pool1 labels1) as [pool2 labels2] eqn:E2. simpl in *.
  exists (sched ++ s2). rewrite run_schedule_app, E1. simpl. rewrite Hs2. done.
Qed.

(** A property of the pool and the label set that every resumption keeps is
    kept by every schedule. *)
Lemma run_schedule_invariant (P : list Scan → gset string → Prop) sched pool labels :
  (∀ pool labels i t,
     pool !! i = Some t → P pool labels →
     P (<[i := (resume fs exts t labels).1]> pool) (resume fs exts t labels).2) →
  P pool labels →
  P (run_schedule fs exts sched pool labels).1 (run_schedule fs exts sched pool labels).2.
Proof.
  intros Hstep. revert pool labels.
  induction sched as [|i sched IH]; intros pool labels HP; simpl; [done|].
  unfold resume_at. destruct (pool !! i) as [t|] eqn:Hi; [|by apply IH].
  specialize (Hstep pool labels i t Hi HP).
  destruct (resume fs exts t labels) as [t' labels']. by apply IH.
Qed.

(** *** Every collected resource is a listed entry that passed the tests *)

Lemma sound_loop sep paths p res files :
  p ∈ paths → stat_isDirectory fs p = Some true →
  (∀ x, x ∈ files → x ∈ listing fs p) →
  Forall (genuine fs exts sep paths) res →
  sound fs exts sep paths (loop p sep res files).
Proof.
  intros Hp Hst. revert res. induction files as [|[file fileType] files IH];
    intros res Hin Hres; simpl.
  - done.
  - fold (skipped_early fileType). destruct (skipped_early fileType) eqn:Esk.
    + apply IH; [|done]. intros x Hx. apply Hin. by right.
    + simpl. repeat split; simpl; try done.
      * intros x Hx. apply Hin. by right.
      * exists fileType. split; [|done]. apply Hin. by left.
Qed.

Lemma sound_continue sep paths fr file :
  sound_frame fs exts sep paths fr file → sound fs exts sep paths (continue fr).
Proof.
  intros (Hp & Hsep & Hst & Hrest & _ & Hres). unfold continue. rewrite Hsep.
  by apply sound_loop.
Qed.

Lemma sound_accept sep paths fr file doc labels :
  sound_frame fs exts sep paths fr file →
  genuine fs exts sep paths {| label := file; documentation := doc; kind := Method |} →
  sound fs exts sep paths (accept fr file doc labels).1.
Proof.
  intros (Hp & Hsep & Hst & Hrest & _ & Hres) Hgen. unfold accept. simpl. rewrite Hsep.
  apply sound_loop; try done. apply Forall_app. split; [done|]. by constructor.
Qed.

Lemma sound_resume sep paths t labels :
  sound fs exts sep paths t → sound fs exts sep paths (resume fs exts t labels).1.
Proof.
  destruct t as [p s|p s|fr file|fr file|fr file real|fr file fp|r]; simpl.
  - intros [Hp ->]. destruct (stat_isDirectory fs p) as [[]|] eqn:E; simpl; try done.
  - intros (Hp & -> & Hst). destruct (readDirectory fs p) as [files|] eqn:E; simpl; [|done].
    apply sound_loop; try done. unfold listing. by rewrite E.
  - intros Hfr. destruct (lstat_isSymbolicLink fs _) as [[]|] eqn:E; simpl.
    + done.
    + destruct (decide (file ∈ labels)); simpl; [by eapply sound_continue|].
      destruct Hfr as (? & Hsep & ?). by rewrite Hsep.
    + by eapply sound_continue.
  - intros [Hfr Hl]. destruct (realpath fs _) as [real|] eqn:E; simpl;
      [done|by eapply sound_continue].
  - intros (Hfr & Hl & Hr).
    destruct (isExecutable fs real exts) as [[]|] eqn:E; simpl;
      try by eapply sound_continue.
    destruct (decide (file ∈ labels)); [by eapply sound_continue|].
    apply sound_accept; [done|].
    destruct Hfr as (Hp & Hsep & Hst & Hrest & (ft & Hft & Hsk) & Hres).
    split; [done|]. exists (path fr), ft. simpl. repeat split; try done.
    right. split; [done|]. by exists real.
  - intros (Hfr & Hl & ->).
    destruct (isExecutable fs _ exts) as [[]|] eqn:E; simpl.
    + apply (sound_accept sep paths fr file _ labels); [done|].
      destruct Hfr as (Hp & Hsep & Hst & Hrest & (ft & Hft & Hsk) & Hres).
      split; [done|]. exists (path fr), ft. simpl. repeat split; try done.
      left. done.
    + by eapply sound_continue.
    + constructor.
  - done.
Qed.

Lemma sound_start sep paths : Forall (sound fs exts sep paths) (start sep paths).
Proof.
  unfold start. apply Forall_fmap, Forall_forall. intros p Hp. simpl. done.
Qed.

Lemma sound_run_schedule sep paths sched pool labels :
  Forall (sound fs exts sep paths) pool →
  Forall (sound fs exts sep paths) (run_schedule fs exts sched pool labels).1.
Proof.
  intros Hs.
  apply (run_schedule_invariant (λ pool _, Forall (sound fs exts sep paths) pool));
    [|done].
  intros pool' labels' i t Hi Hpool. apply Forall_insert; [done|].
  apply sound_resume. by eapply Forall_lookup_1.
Qed.

Lemma merge_Forall (P : ICompletionResource → Prop) rs :
  Forall (λ o, Forall P (default [] o)) rs → Forall P (Cache.merge rs).
Proof.
  intros Hrs. unfold Cache.merge. apply Forall_concat, Forall_fmap.
  eapply Forall_impl; [exact Hrs|]. done.
Qed.

Lemma join_genuine sep paths sched :
  Forall (genuine fs exts sep paths) (Cache.merge (join fs exts sched sep paths).1).
Proof.
  unfold join. destruct (settle_as_schedule sched (start sep paths) ∅) as (s' & -> & Hset).
  simpl. apply merge_Forall, Forall_fmap.
  pose proof (sound_run_schedule sep paths s' (start sep paths) ∅ (sound_start sep paths))
    as Hsound.
  apply Forall_forall. intros t Ht.
  rewrite Forall_forall in Hsound, Hset.
  destruct (Hset t Ht) as [r ->]. specialize (Hsound _ Ht). done.
Qed.

(** *** The label set and the collected resources *)

Lemma collected_loop p sep res files : collected (loop p sep res files) = res.
Proof.
  revert res. induction files as [|[file fileType] files IH]; intros res; simpl; [done|].
  destruct (_ || _); [apply IH|done].
Qed.

(** One resumption leaves the label set and the collected resources alone,
    or drops the resources on a rejected executability check, or adds one
    resource together with its label. *)
Lemma resume_effect t labels :
  ((resume fs exts t labels).2 = labels
   ∧ collected (resume fs exts t labels).1 = collected t)
  ∨ ((resume fs exts t labels).2 = labels
     ∧ collected (resume fs exts t labels).1 = []
     ∧ ∃ fr file fp, t = AwaitIsExecutable fr file fp ∧ isExecutable fs fp exts = None)
  ∨ (∃ r,
       collected (resume fs exts t labels).1 = collected t ++ [r]
       ∧ (resume fs exts t labels).2 = labels ∪ {[ label r ]}).
Proof.
  destruct t as [p s|p s|fr file|fr file|fr file real|fr file fp|r]; simpl.
  - left. by destruct (stat_isDirectory fs p) as [[]|].
  - left. destruct (readDirectory fs p); simpl; [|done]. by rewrite collected_loop.
  - left. unfold continue.
    destruct (lstat_isSymbolicLink fs _) as [[]|]; simpl; try by rewrite ?collected_loop.
    destruct (decide _); simpl; by rewrite ?collected_loop.
  - left. unfold continue. destruct (realpath fs _); simpl; by rewrite ?collected_loop.
  - unfold continue.
    destruct (isExecutable fs real exts) as [[]|]; simpl;
      try (left; by rewrite collected_loop).
    destruct (decide _); simpl; [left; by rewrite collected_loop|].
    right. right. eexists. rewrite collected_loop. split; done.
  - unfold continue. destruct (isExecutable fs fp exts) as [[]|] eqn:E; simpl.
    + right. right. eexists. rewrite collected_loop. split; done.
    + left. by rewrite collected_loop.
    + right. left. split; [done|]. split; [done|]. by exists fr, file, fp.
  - by left.
Qed.

Lemma labels_cover_run_schedule sched pool labels :
  (∀ i t r, pool !! i = Some t → r ∈ collected t → label r ∈ labels) →
  ∀ i t r,
    (run_schedule fs exts sched pool labels).1 !! i = Some t →
    r ∈ collected t → label r ∈ (run_schedule fs exts sched pool labels).2.
Proof.
  apply (run_schedule_invariant
           (λ pool labels, ∀ i t r, pool !! i = Some t → r ∈ collected t → label r ∈ labels)).
  clear pool labels. intros pool labels i t Hi HP j u r Hj Hr.
  assert (labels ⊆ (resume fs exts t labels).2) as Hmono.
  { destruct (resume_effect t labels) as [[-> _]|[(-> & _)|(r0 & _ & ->)]]; set_solver. }
  destruct (decide (j = i)) as [->|Hne].
  - rewrite list_lookup_insert_eq in Hj by (by eapply lookup_lt_Some).
    injection Hj as <-.
    destruct (resume_effect t labels) as [[Hl Hc]|[(Hl & Hc & _)|(r0 & Hc & Hl)]].
    + rewrite Hl. rewrite Hc in Hr. by eapply HP.
    + rewrite Hc in Hr. by apply elem_of_nil in Hr.
    + rewrite Hl. rewrite Hc in Hr. apply elem_of_app in Hr as [Hr|Hr].
      * apply elem_of_union_l. by eapply HP.
      * apply list_elem_of_singleton in Hr as ->. set_solver.
  - rewrite list_lookup_insert_ne in Hj by done. apply Hmono. by eapply HP.
Qed.

Lemma labels_exact_run_schedule sched pool labels :
  (∀ q, isExecutable fs q exts ≠ None) →
  (∀ x, x ∈ labels → ∃ i t r, pool !! i = Some t ∧ r ∈ collected t ∧ label r = x) →
  ∀ x, x ∈ (run_schedule fs exts sched pool labels).2 →
       ∃ i t r, (run_schedule fs exts sched pool labels).1 !! i = Some t
                ∧ r ∈ collected t ∧ label r = x.
Proof.
  intros Hex.
  apply (run_schedule_invariant
           (λ pool labels,
              ∀ x, x ∈ labels → ∃ i t r, pool !! i = Some t ∧ r ∈ collected t ∧ label r = x)).
  clear pool labels. intros pool labels i t Hi HP x Hx.
  assert (i < length pool) as Hlt by (by eapply lookup_lt_Some).
  destruct (resume_effect t labels) as [[Hl Hc]|[(_ & _ & fr & file & fp & _ & Hno)|(r0 & Hc & Hl)]].
  - rewrite Hl in Hx. destruct (HP x Hx) as (j & u & r & Hj & Hr & Hlab).
    destruct (decide (j = i)) as [->|Hne].
    + exists i, (resume fs exts t labels).1, r. rewrite list_lookup_insert_eq by done.
      rewrite Hc. rewrite Hi in Hj. injection Hj as ->. done.
    + exists j, u, r. by rewrite list_lookup_insert_ne.
  - by apply Hex in Hno.
  - rewrite Hl in Hx. apply elem_of_union in Hx as [Hx|Hx].
    + destruct (HP x Hx) as (j & u & r & Hj & Hr & Hlab).
      destruct (decide (j = i)) as [->|Hne].
      * exists i, (resume fs exts t labels).1, r. rewrite list_lookup_insert_eq by done.
        rewrite Hc. rewrite Hi in Hj. injection Hj as ->.
        split; [done|]. split; [|done]. apply elem_of_app. by left.
      * exists j, u, r. by rewrite list_lookup_insert_ne.
    + apply elem_of_singleton in Hx as ->.
      exists i, (resume fs exts t labels).1, r0. rewrite list_lookup_insert_eq by done.
      rewrite Hc. split; [done|]. split; [|done]. apply elem_of_app. right. by left.
Qed.

Lemma elem_of_concat {A} (x : A) (ls : list (list A)) :
  x ∈ concat ls ↔ ∃ l, x ∈ l ∧ l ∈ ls.
Proof.
  induction ls as [|l ls IH]; simpl.
  - split; [by intros ?%elem_of_nil|]. intros (l & _ & Hl). by apply elem_of_nil in Hl.
  - rewrite elem_of_app, IH. split.
    + intros [Hx|(l' & Hx & Hl')]; [exists l|exists l']; split; try done;
        apply elem_of_cons; auto.
    + intros (l' & Hx & [->|Hl']%elem_of_cons); [by left|right; eauto].
Qed.

Lemma elem_of_merge r (pool : list Scan) :
  r ∈ Cache.merge (outcome <$> pool) → Forall settled pool →
  ∃ i t, pool !! i = Some t ∧ r ∈ collected t.
Proof.
  unfold Cache.merge. intros Hr Hset.
  apply elem_of_concat in Hr as (l & Hr & Hl).
  apply list_elem_of_fmap in Hl as (o & -> & Ho).
  apply list_elem_of_fmap in Ho as (t & -> & Ht).
  apply list_elem_of_lookup in Ht as [i Hi]. exists i, t. split; [done|].
  rewrite Forall_forall in Hset. destruct (Hset t) as [res ->]; [by eapply list_elem_of_lookup_2|].
  done.
Qed.

Lemma merge_elem_of r (pool : list Scan) i t :
  pool !! i = Some t → settled t → r ∈ collected t → r ∈ Cache.merge (outcome <$> pool).
Proof.
  intros Hi [res ->] Hr. unfold Cache.merge. apply elem_of_concat.
  exists (default [] res). split; [done|].
  apply list_elem_of_fmap. exists res. split; [done|].
  apply list_elem_of_fmap. exists (Settled res). split; [done|].
  by eapply list_elem_of_lookup_2.
Qed.

Lemma join_labels_cover sep paths sched :
  Forall (λ r, label r ∈ (join fs exts sched sep paths).2)
         (Cache.merge (join fs exts sched sep paths).1).
Proof.
  unfold join. destruct (settle_as_schedule sched (start sep paths) ∅) as (s' & -> & Hset).
  simpl. apply Forall_forall. intros r Hr.
  apply elem_of_merge in Hr as (i & t & Hi & Hr); [|done].
  eapply labels_cover_run_schedule; [|exact Hi|exact Hr].
  intros j u r' Hj Hr'. unfold start in Hj. rewrite list_lookup_fmap in Hj.
  destruct (paths !! j); simpl in Hj; [|done]. injection Hj as <-. by apply elem_of_nil in Hr'.
Qed.

Lemma join_labels_exact sep paths sched x :
  (∀ q, isExecutable fs q exts ≠ None) →
  x ∈ (join fs exts sched sep paths).2 →
  x ∈ label <$> Cache.merge (join fs exts sched sep paths).1.
Proof.
  intros Hex. unfold join.
  destruct (settle_as_schedule sched (start sep paths) ∅) as (s' & -> & Hset).
  simpl. intros Hx.
  destruct (labels_exact_run_schedule s' (start sep paths) ∅ Hex) with (x := x)
    as (i & t & r & Hi & Hr & Hl); [set_solver|done|].
  apply list_elem_of_fmap. exists r. split; [done|].
  eapply merge_elem_of; [exact Hi| |exact Hr].
  rewrite Forall_forall in Hset. apply Hset. by eapply list_elem_of_lookup_2.
Qed.

End Schedules.

(** ** Passes without name collisions do not depend on the schedule *)

Section Independence.
Context `{Host}.
Variable fs : FileSystem.
Variable exts : option WindowsExeExtensions.

Import Scanner Aux Pool.

Lemma NoDup_concat_lookup {A} (ls : list (list A)) i a :
  NoDup (concat ls) → ls !! i = Some a → NoDup a.
Proof.
  revert i. induction ls as [|l ls IH]; intros i Hnd Hi; [done|]. simpl in Hnd.
  apply NoDup_app in Hnd as (Hl & _ & Hls).
  destruct i as [|i]; simpl in Hi; [by injection Hi as <-|by eapply IH].
Qed.

Lemma NoDup_concat_disjoint {A} (ls : list (list A)) i j a b x :
  NoDup (concat ls) → i ≠ j → ls !! i = Some a → ls !! j = Some b →
  x ∈ a → x ∉ b.
Proof.
  revert i j. induction ls as [|l ls IH]; intros i j Hnd Hne Hi Hj Ha Hb; [done|].
  simpl in Hnd. apply NoDup_app in Hnd as (Hl & Hdis & Hls).
  destruct i as [|i], j as [|j]; simpl in *; try done.
  - injection Hi as <-. apply (Hdis x Ha). apply elem_of_concat. exists b.
    split; [done|]. by eapply list_elem_of_lookup_2.
  - injection Hj as <-. apply (Hdis x Hb). apply elem_of_concat. exists a.
    split; [done|]. by eapply list_elem_of_lookup_2.
  - eapply (IH i j); try done. congruence.
Qed.

Lemma sublist_elem_of {A} (l1 l2 : list A) x : l1 `sublist_of` l2 → x ∈ l1 → x ∈ l2.
Proof. intros Hs Hx. by eapply elem_of_sublist. Qed.

Lemma pending_loop p sep res files :
  pending fs (loop p sep res files) `sublist_of` files.*1.
Proof.
  revert res. induction files as [|[file fileType] files IH]; intros res; simpl.
  - done.
  - destruct (_ || _); simpl; [by apply sublist_cons|done].
Qed.

Lemma pending_continue fr : pending fs (continue fr) `sublist_of` (rest fr).*1.
Proof. apply pending_loop. Qed.

(** When none of its pending names is in the label set, a resumption does
    what it would do with an empty label set; it adds at most the name it
    was working on, and then that name is no longer pending. *)
Lemma resume_free t labels :
  (∀ x, x ∈ pending fs t → x ∉ labels) →
  (resume fs exts t labels).1 = free_step fs exts t
  ∧ pending fs (free_step fs exts t) `sublist_of` pending fs t
  ∧ ((resume fs exts t labels).2 = labels
     ∨ ∃ f others,
         pending fs t = f :: others
         ∧ (resume fs exts t labels).2 = labels ∪ {[ f ]}
         ∧ pending fs (free_step fs exts t) `sublist_of` others).
Proof.
  intros Hfree. unfold free_step.
  destruct t as [p s|p s|fr file|fr file|fr file real|fr file fp|r]; simpl in *.
  - destruct (stat_isDirectory fs p) as [[]|]; simpl;
      (split; [done|]); (split; [|by left]); try done; apply sublist_nil_l.
  - unfold listing. destruct (readDirectory fs p) as [files|]; simpl;
      (split; [done|]); (split; [|by left]); [apply pending_loop|done].
  - assert (file ∉ labels) as Hf by (apply Hfree; by left).
    destruct (lstat_isSymbolicLink fs _) as [[]|]; simpl.
    + split; [done|]. split; [done|by left].
    + destruct (decide (file ∈ labels)); [done|].
      destruct (decide (file ∈ (∅ : gset string))); [set_solver|]. simpl.
      split; [done|]. split; [done|by left].
    + split; [done|]. split; [|by left]. apply sublist_cons, pending_continue.
  - destruct (realpath fs _); simpl; (split; [done|]); (split; [|by left]);
      [done|apply sublist_cons, pending_continue].
  - assert (file ∉ labels) as Hf by (apply Hfree; by left).
    destruct (isExecutable fs real exts) as [[]|]; simpl;
      try (split; [done|]; split; [|by left]; apply sublist_cons, pending_continue).
    destruct (decide (file ∈ labels)); [done|].
    destruct (decide (file ∈ (∅ : gset string))); [set_solver|]. simpl.
    split; [done|]. split; [apply sublist_cons, pending_loop|].
    right. exists file, (rest fr).*1. split; [done|]. split; [done|apply pending_loop].
  - destruct (isExecutable fs fp exts) as [[]|]; simpl.
    + split; [done|]. split; [apply sublist_cons, pending_loop|].
      right. exists file, (rest fr).*1. split; [done|]. split; [done|apply pending_loop].
    + split; [done|]. split; [|by left]. apply sublist_cons, pending_continue.
    + split; [done|]. split; [|by left]. apply sublist_nil_l.
  - split; [done|]. split; [done|by left].
Qed.

Lemma free_step_budget t : budget fs t ≠ 0 → budget fs (free_step fs exts t) < budget fs t.
Proof. apply resume_budget. Qed.

Lemma free_run_S n t : free_run fs exts (S n) t = free_run fs exts n (free_step fs exts t).
Proof. unfold free_run. by rewrite Nat.iter_succ_r. Qed.

Lemma free_run_settled n t : budget fs t ≤ n → settled (free_run fs exts n t).
Proof.
  revert t. induction n as [|n IH]; intros t Hb.
  - apply budget_zero with (fs := fs). simpl. lia.
  - rewrite free_run_S. destruct (decide (budget fs t = 0)) as [Hz|Hnz].
    + destruct (budget_zero fs t Hz) as [r ->]. apply IH. simpl. lia.
    + apply IH. pose proof (free_step_budget t Hnz). lia.
Qed.

Lemma free_run_Settled n r : free_run fs exts n (Settled r) = Settled r.
Proof. induction n as [|n IH]; [done|]. by rewrite free_run_S. Qed.

Lemma free_run_stable k m t :
  settled (free_run fs exts k t) → k ≤ m → free_run fs exts m t = free_run fs exts k t.
Proof.
  revert m t. induction k as [|k IH]; intros m t Hs Hle.
  - destruct Hs as [r Hr]. simpl in Hr. subst t. simpl. apply free_run_Settled.
  - destruct m as [|m]; [lia|]. rewrite !free_run_S in *. apply IH; [done|lia].
Qed.

(** The scan of [p] when no name test ever fails. *)
Lemma settled_free_run k p sep :
  settled (free_run fs exts k (AwaitStat p sep)) →
  free_run fs exts k (AwaitStat p sep)
  = free_run fs exts (budget fs (AwaitStat p sep)) (AwaitStat p sep).
Proof.
  intros Hs.
  pose proof (free_run_settled (budget fs (AwaitStat p sep)) (AwaitStat p sep) (le_n _)) as Hb.
  destruct (decide (k ≤ budget fs (AwaitStat p sep))).
  - symmetry. by apply free_run_stable.
  - apply free_run_stable; [done|lia].
Qed.

Lemma free_pool_run_schedule sep paths sched :
  NoDup (names fs paths) →
  length (run_schedule fs exts sched (start sep paths) ∅).1 = length paths
  ∧ ∀ i t p,
      (run_schedule fs exts sched (start sep paths) ∅).1 !! i = Some t →
      paths !! i = Some p →
      ∃ k, t = free_run fs exts k (AwaitStat p sep).
Proof.
  intros Hnd.
  pose (P := λ (pool : list Scan) (labels : gset string),
          length pool = length paths
          ∧ ∀ i t p,
              pool !! i = Some t → paths !! i = Some p →
              (∃ k, t = free_run fs exts k (AwaitStat p sep))
              ∧ NoDup (pending fs t)
              ∧ (∀ x, x ∈ pending fs t → x ∈ (listing fs p).*1)
              ∧ (∀ x, x ∈ pending fs t → x ∉ labels)).
  assert (P (run_schedule fs exts sched (start sep paths) ∅).1
            (run_schedule fs exts sched (start sep paths) ∅).2) as [Hlen HP].
  { apply (run_schedule_invariant fs exts P).
    - clear sched. intros pool labels i t Hi [Hlen HP].
      assert (i < length pool) as Hlt by (by eapply lookup_lt_Some).
      destruct (paths !! i) as [p|] eqn:Hp;
        [|apply lookup_ge_None in Hp; lia].
      destruct (HP i t p Hi Hp) as ((k & Hk) & Hnd_t & Hsub & Hfree).
      destruct (resume_free t labels Hfree) as (Hstate & Hpend & Hlabels).
      split; [by rewrite length_insert|].
      intros j u q Hj Hq. destruct (decide (j = i)) as [->|Hne].
      + rewrite list_lookup_insert_eq in Hj by done. injection Hj as <-.
        rewrite Hp in Hq. injection Hq as <-. rewrite Hstate.
        split; [exists (S k); subst t; reflexivity|].
        split; [by eapply sublist_NoDup|].
        split; [intros x Hx; apply Hsub; by eapply sublist_elem_of|].
        intros x Hx. destruct Hlabels as [->|(f & others & Hpt & -> & Hrest)].
        * apply Hfree. by eapply sublist_elem_of.
        * rewrite Hpt in Hnd_t. apply NoDup_cons in Hnd_t as [Hf _].
          intros [Hin| ->%elem_of_singleton]%elem_of_union.
          -- revert Hin. apply Hfree. by eapply sublist_elem_of.
          -- apply Hf. by eapply sublist_elem_of.
      + rewrite list_lookup_insert_ne in Hj by done.
        destruct (HP j u q Hj Hq) as (Hk' & Hnd_u & Hsub_u & Hfree_u).
        split; [done|]. split; [done|]. split; [done|].
        intros x Hx. destruct Hlabels as [->|(f & others & Hpt & -> & Hrest)];
          [by apply Hfree_u|].
        intros [Hin| ->%elem_of_singleton]%elem_of_union; [by apply Hfree_u in Hin|].
        assert (f ∈ (listing fs p).*1) as Hfp by (apply Hsub; rewrite Hpt; by left).
        apply Hsub_u in Hx. revert Hx.
        eapply (NoDup_concat_disjoint _ i j); [exact Hnd|done| | |exact Hfp];
          by rewrite list_lookup_fmap, ?Hp, ?Hq.
    - split; [unfold start; by rewrite length_fmap|].
      intros i t p Hi Hp. unfold start in Hi. rewrite list_lookup_fmap, Hp in Hi.
      injection Hi as <-. split; [by exists 0|]. simpl.
      split; [|split; [done|set_solver]].
      eapply (NoDup_concat_lookup _ i); [exact Hnd|]. by rewrite list_lookup_fmap, Hp. }
  split; [done|]. intros i t p Hi Hp. by destruct (HP i t p Hi Hp) as (Hk & _).
Qed.

Lemma join_free sep paths sched :
  NoDup (names fs paths) →
  (join fs exts sched sep paths).1
  = (λ p, outcome (free_run fs exts (budget fs (AwaitStat p sep)) (AwaitStat p sep)))
      <$> paths.
Proof.
  intros Hnd. unfold join.
  destruct (settle_as_schedule fs exts sched (start sep paths) ∅) as (s' & -> & Hset).
  simpl. destruct (free_pool_run_schedule sep paths s' Hnd) as [Hlen Hk].
  apply list_eq. intros i. rewrite !list_lookup_fmap.
  destruct ((run_schedule fs exts s' (start sep paths) ∅).1 !! i) as [t|] eqn:Hi.
  - destruct (paths !! i) as [p|] eqn:Hp;
      [|apply lookup_ge_None in Hp; apply lookup_lt_Some in Hi; lia].
    simpl. destruct (Hk i t p Hi Hp) as [k ->].
    rewrite settled_free_run; [done|].
    rewrite Forall_forall in Hset. apply Hset. by eapply list_elem_of_lookup_2.
  - apply lookup_ge_None in Hi. rewrite Hlen in Hi. apply lookup_ge_None in Hi.
    by rewrite Hi.
Qed.

End Independence.

(** ** Further properties of a cache fill *)

Section FillFacts.
Context `{Host}.

Import Scanner Aux Pool.

(** X1. When the scans of a fill complete one after the other, in PATH
    order, no two resources of the published entry share a label. *)
Theorem in_order_fill_has_unique_labels fs pathValue w :
  ∃ e w',
    Cache.fill fs [] pathValue w = (Some e, w')
    ∧ NoDup (label <$> completionResources e).
Proof.
  destruct (fill_spec fs [] pathValue w) as (e & w' & Hf & _ & Hres & _).
  exists e, w'. split; [done|]. rewrite Hres. apply pass_in_order_labels_unique.
Qed.

(** X2. Under every order of resumption, every resource of the published
    entry has kind [Method] and stands for an entry of one of the PATH
    directories: the path is a directory, its listing holds the name with a
    type other than unknown and directory, and either the entry is not a
    link, is documented by its friendly path and was found executable under
    it, or it is a link that resolved to an executable target and is
    documented as ["link -> target"]. *)
Theorem every_candidate_is_a_listed_executable fs sched pathValue w :
  ∃ e w',
    Cache.fill fs sched pathValue w = (Some e, w')
    ∧ Forall (genuine fs (_cachedWindowsExeExtensions (cache w)) Cache.pathSeparator
                (Cache.directories pathValue))
             (completionResources e).
Proof.
  destruct (fill_spec fs sched pathValue w) as (e & w' & Hf & _ & Hres & _).
  exists e, w'. split; [done|]. rewrite Hres. apply join_genuine.
Qed.

(** X3. Under every order of resumption, the label set of the published
    entry holds the label of every resource of the entry. *)
Theorem labels_cover_the_candidates fs sched pathValue w :
  ∃ e w',
    Cache.fill fs sched pathValue w = (Some e, w')
    ∧ Forall (λ r, label r ∈ labels e) (completionResources e).
Proof.
  destruct (fill_spec fs sched pathValue w) as (e & w' & Hf & _ & Hres & Hlab & _).
  exists e, w'. split; [done|]. rewrite Hres, Hlab. apply join_labels_cover.
Qed.

(** X4. When the executability check never rejects, the label set of the
    published entry is exactly the set of labels of its resources, under
    every order of resumption. *)
Theorem labels_are_the_candidate_names fs sched pathValue w :
  (∀ q, isExecutable fs q (_cachedWindowsExeExtensions (cache w)) ≠ None) →
  ∃ e w',
    Cache.fill fs sched pathValue w = (Some e, w')
    ∧ ∀ x, x ∈ labels e ↔ x ∈ label <$> completionResources e.
Proof.
  intros Hex.
  destruct (fill_spec fs sched pathValue w) as (e & w' & Hf & _ & Hres & Hlab & _).
  exists e, w'. split; [done|]. intros x. rewrite Hres, Hlab. split.
  - by apply join_labels_exact.
  - intros (r & -> & Hr)%list_elem_of_fmap.
    pose proof (join_labels_cover fs (_cachedWindowsExeExtensions (cache w))
                  Cache.pathSeparator (Cache.directories pathValue) sched) as Hcover.
    rewrite Forall_forall in Hcover. by apply Hcover.
Qed.

(** X5. When no name is listed twice, neither within one PATH directory nor
    by two PATH entries, the resources of the published entry do not depend
    on the order in which the scans are resumed, and no two of them share a
    label. *)
Theorem candidates_do_not_depend_on_the_schedule fs pathValue w sched1 sched2 :
  NoDup (names fs (Cache.directories pathValue)) →
  ∃ e1 w1 e2 w2,
    Cache.fill fs sched1 pathValue w = (Some e1, w1)
    ∧ Cache.fill fs sched2 pathValue w = (Some e2, w2)
    ∧ completionResources e1 = completionResources e2
    ∧ NoDup (label <$> completionResources e1).
Proof.
  intros Hnd.
  destruct (fill_spec fs sched1 pathValue w) as (e1 & w1 & Hf1 & _ & Hres1 & _).
  destruct (fill_spec fs sched2 pathValue w) as (e2 & w2 & Hf2 & _ & Hres2 & _).
  exists e1, w1, e2, w2. split; [done|]. split; [done|].
  rewrite Hres1, Hres2, !join_free by done. split; [done|].
  rewrite <- (join_free fs (_cachedWindowsExeExtensions (cache w))
                Cache.pathSeparator (Cache.directories pathValue) []) by done.
  apply pass_in_order_labels_unique.
Qed.

End FillFacts.

(** X4 on the example disk, in lock-step. *)
Lemma labels_are_the_candidate_names_witness :
  ∃ e w',
    Cache.fill (H := Posix.host) Example.twice [0; 1; 0; 1; 0; 1; 0; 1] "/a:/b"
      (Cache.new (H := Posix.host) None) = (Some e, w')
    ∧ ∀ x, x ∈ labels e ↔ x ∈ label <$> completionResources e.
Proof.
  apply (labels_are_the_candidate_names (H := Posix.host) Example.twice
           [0; 1; 0; 1; 0; 1; 0; 1] "/a:/b" (Cache.new (H := Posix.host) None)).
  intros q. simpl. discriminate.
Defined.

(** X5 on two directories with different names, in order and in lock-step. *)
Lemma candidates_do_not_depend_on_the_schedule_witness :
  ∃ e1 w1 e2 w2,
    Cache.fill (H := Posix.host) Example2.two_dirs [] "/usr/bin:/usr/local/bin"
      (Cache.new (H := Posix.host) None) = (Some e1, w1)
    ∧ Cache.fill (H := Posix.host) Example2.two_dirs [1; 0; 1; 0; 1; 0; 1; 1; 1; 1; 0]
        "/usr/bin:/usr/local/bin" (Cache.new (H := Posix.host) None) = (Some e2, w2)
    ∧ completionResources e1 = completionResources e2
    ∧ NoDup (label <$> completionResources e1).
Proof.
  apply (candidates_do_not_depend_on_the_schedule (H := Posix.host) Example2.two_dirs
           "/usr/bin:/usr/local/bin" (Cache.new (H := Posix.host) None)
           [] [1; 0; 1; 0; 1; 0; 1; 1; 1; 1; 0]).
  apply (bool_decide_unpack _). vm_compute. exact I.
Defined.

Section ScanFacts.
Context `{Host}.
Variable fs : FileSystem.
Variable exts : option WindowsExeExtensions.

Import Scanner Aux Pool.

(** X6. In the scan of a directory that runs without another scan in
    between, with a listing that names every entry once and an executability
    check that never rejects, take an entry that the listing does not class
    as unknown or directory. If [lstat] fails on it, the result holds no
    resource with its name. If [lstat] reports no symbolic link, the result
    holds a resource with its name exactly when the friendly path is
    executable and the name is not yet in the shared label set; that
    resource has kind [Method] and the friendly path as documentation. *)
Theorem regular_entry_documented path sep labels files file fileType :
  stat_isDirectory fs path = Some true →
  readDirectory fs path = Some files →
  NoDup (files.*1) →
  (file, fileType) ∈ files →
  skipped_early fileType = false →
  lstat_isSymbolicLink fs (fsPath (Uri_joinPath (Uri_file path) file)) ≠ Some true →
  (∀ q, isExecutable fs q exts ≠ None) →
  ∃ res labels',
    _getExecutablesInPath fs exts path sep labels = (Some res, labels')
    ∧ match lstat_isSymbolicLink fs (fsPath (Uri_joinPath (Uri_file path) file)) with
      | Some _ =>
          if decide (isExecutable fs
                       (getFriendlyResourcePath (Uri_joinPath (Uri_file path) file) sep)
                       exts = Some true
                     ∧ file ∉ labels)
          then
            {| label := file;
               documentation :=
                 getFriendlyResourcePath (Uri_joinPath (Uri_file path) file) sep;
               kind := Method |} ∈ res
            ∧ (∀ r, r ∈ res → label r = file →
                 documentation r
                 = getFriendlyResourcePath (Uri_joinPath (Uri_file path) file) sep)
          else ∀ r, r ∈ res → label r ≠ file
      | None => ∀ r, r ∈ res → label r ≠ file
      end.
Proof.
  intros Hstat Hread Hnd Hin Hsk Hlstat Hex.
  rewrite scan_alone_is_scanDirectory. unfold scanDirectory. rewrite Hstat, Hread.
  destruct (scan_loop_total fs exts path sep [] files labels Hex) as (res & labels' & Hs).
  exists res, labels'. split; [done|].
  pose proof (scan_loop_sound fs exts _ _ _ _ _ _ _ Hs)
    as (added & Hres & _ & _ & Hfresh & Hfrom).
  simpl in Hres. subst added.
  assert (∀ r, r ∈ res → label r = file →
            (file ∉ labels)
            ∧ ∃ labels0, entry fs exts path sep file labels0 = Accept (documentation r))
    as Hfile.
  { intros r Hr Hl. split.
    - apply Hfresh. apply list_elem_of_fmap. by exists r.
    - destruct (Hfrom r Hr) as (_ & ft & labels0 & _ & _ & Hacc).
      rewrite Hl in Hacc. eauto. }
  unfold entry in Hfile. simpl in Hfile.
  destruct (lstat_isSymbolicLink fs _) as [[]|] eqn:El; [done| |].
  - destruct (decide _) as [[Hexec Hfree]|Hno].
    + split.
      * eapply scan_loop_accepts; [done..| |done|exact Hs].
        intros labels0 Hfree0. unfold entry. simpl.
        rewrite El, Hexec. by destruct (decide (file ∈ labels0)).
      * intros r Hr Hl. destruct (Hfile r Hr Hl) as (_ & labels0 & Hacc).
        rewrite Hexec in Hacc. destruct (decide (file ∈ labels0)); [done|].
        by inversion Hacc.
    + intros r Hr Hl. destruct (Hfile r Hr Hl) as (Hfree & labels0 & Hacc).
      destruct (decide (file ∈ labels0)); [done|].
      destruct (isExecutable fs _ exts) as [[]|] eqn:Eexec; try done.
      by destruct Hno.
  - intros r Hr Hl. by destruct (Hfile r Hr Hl) as (_ & labels0 & Hacc).
Qed.

(** *** A bound on the resumptions of a scan *)

Lemma budget_after_schedule sched pool labels i t :
  pool !! i = Some t →
  ∃ t',
    (run_schedule fs exts sched pool labels).1 !! i = Some t'
    ∧ budget fs t' ≤ budget fs t - length (filter (λ j, j = i) sched).
Proof.
  revert pool labels t. induction sched as [|j sched IH]; intros pool labels t Hi; simpl.
  - exists t. split; [done|]. lia.
  - destruct (decide (j = i)) as [->|Hne].
    + rewrite filter_cons_True by done. simpl.
      destruct (resume_at_lookup_eq fs exts i pool labels t Hi) as [Hl _].
      destruct (resume_at fs exts i pool labels) as [pool' labels'] eqn:E. simpl in Hl.
      destruct (IH pool' labels' _ Hl) as (t' & Ht' & Hb).
      exists t'. split; [done|].
      destruct (decide (budget fs t = 0)) as [Hz|Hnz].
      * destruct (budget_zero fs t Hz) as [r ->]. simpl in *. lia.
      * pose proof (resume_budget fs exts t labels Hnz). lia.
    + rewrite filter_cons_False by done.
      pose proof (resume_at_lookup_ne fs exts i j pool labels (not_eq_sym Hne)) as Hl.
      destruct (resume_at fs exts j pool labels) as [pool' labels']. simpl in Hl.
      rewrite <- Hl in Hi. by apply IH.
Qed.

(** X7. The scan of a directory with [n] listed entries needs at most
    [2 + 3 * n] resumptions: in every schedule that resumes it that often it
    has settled, whatever the other scans did to the label set. *)
Theorem scan_settles_within_its_budget sched sep paths i p :
  paths !! i = Some p →
  2 + 3 * length (listing fs p) ≤ length (filter (λ j, j = i) sched) →
  ∃ r, (run_schedule fs exts sched (start sep paths) ∅).1 !! i = Some (Settled r).
Proof.
  intros Hp Hn.
  destruct (budget_after_schedule sched (start sep paths) ∅ i (AwaitStat p sep))
    as (t' & Ht' & Hb).
  { unfold start. by rewrite list_lookup_fmap, Hp. }
  simpl in Hb. destruct (budget_zero fs t') as [r ->]; [lia|]. by exists r.
Qed.

(** *** PATH precedence when the scans run in order *)

Lemma scan_loop_labels_from p sep res files labels x :
  x ∈ (scan_loop fs exts p sep res files labels).2 → x ∈ labels ∨ x ∈ files.*1.
Proof.
  revert res labels. induction files as [|[file fileType] files IH]; intros res labels; simpl.
  - by left.
  - destruct (skipped_early fileType).
    { intros [?|?]%IH; [by left|right; by right]. }
    destruct (entry fs exts p sep file labels).
    + intros [?|?]%IH; [by left|right; by right].
    + intros [[?| ->%elem_of_singleton]%elem_of_union|?]%IH;
        [by left|right; by left|right; by right].
    + by left.
Qed.

Lemma scanDirectory_labels_from p sep labels x :
  x ∈ (scanDirectory fs exts p sep labels).2 → x ∈ labels ∨ x ∈ (listing fs p).*1.
Proof.
  unfold scanDirectory, listing.
  destruct (stat_isDirectory fs p) as [[]|]; try by left.
  destruct (readDirectory fs p) as [files|]; simpl; [|by left].
  apply scan_loop_labels_from.
Qed.

Lemma scan_all_labels_from sep paths labels x :
  x ∈ (scan_all fs exts sep paths labels).2 →
  x ∈ labels ∨ ∃ q, q ∈ paths ∧ x ∈ (listing fs q).*1.
Proof.
  revert labels. induction paths as [|p paths IH]; intros labels; simpl; [by left|].
  pose proof (scanDirectory_labels_from p sep labels x) as Hp.
  destruct (scanDirectory fs exts p sep labels) as [r labels1].
  specialize (IH labels1). destruct (scan_all fs exts sep paths labels1) as [rs labels2].
  simpl in *. intros [Hx|(q & Hq & Hx)]%IH.
  - apply Hp in Hx as [?|?]; [by left|]. right. exists p. split; [by left|done].
  - right. exists q. split; [by right|done].
Qed.

Lemma scan_all_app sep l1 l2 labels :
  scan_all fs exts sep (l1 ++ l2) labels
  = ((scan_all fs exts sep l1 labels).1
       ++ (scan_all fs exts sep l2 (scan_all fs exts sep l1 labels).2).1,
     (scan_all fs exts sep l2 (scan_all fs exts sep l1 labels).2).2).
Proof.
  revert labels. induction l1 as [|p l1 IH]; intros labels; simpl.
  - by destruct (scan_all fs exts sep l2 labels).
  - destruct (scanDirectory fs exts p sep labels) as [r labels1].
    rewrite IH. destruct (scan_all fs exts sep l1 labels1) as [rs1 labels2]. simpl.
    by destruct (scan_all fs exts sep l2 labels2).
Qed.

Lemma NoDup_fmap_eq {A B} (f : A → B) (l : list A) x y :
  NoDup (f <$> l) → x ∈ l → y ∈ l → f x = f y → x = y.
Proof.
  induction l as [|a l IH]; simpl; intros Hnd Hx Hy Hf; [by apply elem_of_nil in Hx|].
  apply NoDup_cons in Hnd as [Ha Hnd].
  apply elem_of_cons in Hx as [->|Hx]; apply elem_of_cons in Hy as [->|Hy]; try done.
  - destruct Ha. rewrite Hf. apply list_elem_of_fmap. by exists y.
  - destruct Ha. rewrite <- Hf. apply list_elem_of_fmap. by exists x.
  - by apply IH.
Qed.

(** X8. When the scans complete in PATH order and the executability check
    never rejects, the first PATH directory that lists a name decides it: if
    no earlier PATH entry lists [file] and the directory [p] lists it once,
    as a regular entry whose friendly path is executable, then the merged
    set holds the resource documented by the path under [p], and it is the
    only resource labelled [file]. *)
Theorem first_directory_wins_in_order sep pre p post files file fileType :
  (∀ q, q ∈ pre → file ∉ (listing fs q).*1) →
  stat_isDirectory fs p = Some true →
  readDirectory fs p = Some files →
  NoDup (files.*1) →
  (file, fileType) ∈ files →
  skipped_early fileType = false →
  lstat_isSymbolicLink fs (fsPath (Uri_joinPath (Uri_file p) file)) = Some false →
  isExecutable fs (getFriendlyResourcePath (Uri_joinPath (Uri_file p) file) sep) exts
  = Some true →
  (∀ q, isExecutable fs q exts ≠ None) →
  {| label := file;
     documentation := getFriendlyResourcePath (Uri_joinPath (Uri_file p) file) sep;
     kind := Method |}
  ∈ Cache.merge (join fs exts [] sep (pre ++ p :: post)).1
  ∧ ∀ r, r ∈ Cache.merge (join fs exts [] sep (pre ++ p :: post)).1 →
         label r = file →
         r = {| label := file;
                documentation :=
                  getFriendlyResourcePath (Uri_joinPath (Uri_file p) file) sep;
                kind := Method |}.
Proof.
  intros Hpre Hstat Hread Hnd Hin Hsk Hlstat Hexec Hex.
  assert ({| label := file;
             documentation := getFriendlyResourcePath (Uri_joinPath (Uri_file p) file) sep;
             kind := Method |}
          ∈ Cache.merge (join fs exts [] sep (pre ++ p :: post)).1) as Hmem.
  { rewrite join_in_order, scan_all_app. simpl.
    assert (file ∉ (scan_all fs exts sep pre ∅).2) as Hfree.
    { intros [Hx|(q & Hq & Hx)]%scan_all_labels_from; [set_solver|]. by apply (Hpre q). }
    destruct (scan_all fs exts sep pre ∅) as [rs1 labels1]. simpl in *.
    unfold scanDirectory. rewrite Hstat, Hread.
    destruct (scan_loop_total fs exts p sep [] files labels1 Hex) as (res & labels2 & Hs).
    rewrite Hs. destruct (scan_all fs exts sep post labels2) as [rs2 labels3]. simpl.
    unfold Cache.merge. rewrite fmap_app, concat_app. simpl.
    apply elem_of_app. right. apply elem_of_app. left.
    eapply scan_loop_accepts; [done..| |exact Hfree|exact Hs].
    intros labels0 Hfree0. unfold entry. simpl. rewrite Hlstat, Hexec.
    by destruct (decide (file ∈ labels0)). }
  split; [done|]. intros r Hr Hl.
  eapply (NoDup_fmap_eq label); [apply pass_in_order_labels_unique|exact Hr|exact Hmem|done].
Qed.

End ScanFacts.

(** X6 at the entries [ls] and [notes] of the example disk. *)
Lemma regular_entry_documented_witness :
  ∃ res labels',
    Scanner._getExecutablesInPath (H := Posix.host) Example.usr None "/usr/bin" "/" ∅
    = (Some res, labels')
    ∧ {| label := "ls"; documentation := "/usr/bin/ls"; kind := Method |} ∈ res.
Proof.
  destruct (regular_entry_documented (H := Posix.host) Example.usr None
              "/usr/bin" "/" ∅
              [("ls", FileType.File); ("notes", FileType.File);
               ("sub", FileType.Directory); ("gone", 64%Z);
               ("vi", 65%Z); ("vim", FileType.File)] "ls" FileType.File)
    as (res & labels' & Hscan & Hdoc).
  - reflexivity.
  - reflexivity.
  - apply (bool_decide_unpack _). vm_compute. exact I.
  - apply (bool_decide_unpack _). vm_compute. exact I.
  - reflexivity.
  - simpl. discriminate.
  - intros q. simpl. discriminate.
  - exists res, labels'. split; [exact Hscan|].
    simpl in Hdoc. destruct (decide _) as [_|Hno]; [apply Hdoc|].
    exfalso. apply Hno. split; [reflexivity|set_solver].
Defined.

(** X7 for the one directory of the example disk: six entries, twenty
    resumptions. *)
Lemma scan_settles_within_its_budget_witness :
  ∃ r, (Scanner.run_schedule (H := Posix.host) Example.usr None (replicate 20 0)
          (Scanner.start "/" ["/usr/bin"]) ∅).1 !! 0 = Some (Scanner.Settled r).
Proof.
  apply (scan_settles_within_its_budget (H := Posix.host) Example.usr None
           (replicate 20 0) "/" ["/usr/bin"] 0 "/usr/bin").
  - reflexivity.
  - vm_compute. lia.
Defined.

(** X8 for [mytool], listed by the second PATH entry only. *)
Lemma first_directory_wins_in_order_witness :
  {| label := "mytool"; documentation := "/usr/local/bin/mytool"; kind := Method |}
  ∈ Cache.merge (Scanner.join (H := Posix.host) Example2.two_dirs None [] "/"
                   (["/usr/bin"] ++ "/usr/local/bin" :: [])).1.
Proof.
  destruct (first_directory_wins_in_order (H := Posix.host) Example2.two_dirs None "/"
              ["/usr/bin"] "/usr/local/bin" []
              [("mytool", FileType.File); ("ll", 65%Z)] "mytool" FileType.File)
    as [Hmem _].
  - intros q ->%list_elem_of_singleton. apply (bool_decide_unpack _). vm_compute. exact I.
  - reflexivity.
  - reflexivity.
  - apply (bool_decide_unpack _). vm_compute. exact I.
  - apply (bool_decide_unpack _). vm_compute. exact I.
  - reflexivity.
  - reflexivity.
  - reflexivity.
  - intros q. simpl. discriminate.
  - exact Hmem.
Defined.

(** ** Further properties of the watch subsystem *)

Section WatchExact.
Context `{Host}.

Import WatchAux.

Lemma elem_of_Set_add x y s : x ∈ Watch.Set_add y s ↔ x ∈ s ∨ x = y.
Proof.
  unfold Watch.Set_add. destruct (decide (y ∈ s)).
  - split; [by left|]. by intros [?| ->].
  - rewrite elem_of_app, list_elem_of_singleton. done.
Qed.

Lemma elem_of_foldl_Set_add x l s :
  x ∈ foldl (λ s p, Watch.Set_add p s) s l ↔ x ∈ s ∨ x ∈ l.
Proof.
  revert s. induction l as [|p l IH]; intros s; simpl.
  - split; [by left|]. intros [?|?%elem_of_nil]; done.
  - rewrite IH, elem_of_Set_add, elem_of_cons. naive_solver.
Qed.

Lemma watch_dir_exact fs hasCache reg d w R :
  registries w !! reg = Some R → d ∉ R →
  Watch.watch_dir fs hasCache reg d w
  = if decide (watchable fs d)
    then {| cache := cache w; configListening := configListening w;
            watchers := watchers w ++ [opened hasCache d];
            registries := <[reg := R ∪ {[ d ]}]> (registries w);
            subscriptions := subscriptions w ++ [teardown (length (watchers w)) reg 0 d];
            nextObject := nextObject w; scanCalls := scanCalls w; fills := fills w |}
    else w.
Proof.
  intros HR Hd. unfold Watch.watch_dir. rewrite HR. simpl.
  destruct (decide (d ∈ R)); [done|].
  destruct (decide (watchable fs d)) as [[Hs Hw]|Hn].
  - rewrite Hs, Hw. unfold teardown. rewrite Nat.add_0_r. f_equal.
    apply list_eq. intros i. destruct (decide (i = reg)) as [->|Hne].
    + rewrite list_lookup_alter_eq, HR. simpl.
      rewrite list_lookup_insert_eq; [done|]. by eapply lookup_lt_Some.
    + by rewrite list_lookup_alter_ne, list_lookup_insert_ne.
  - destruct (stat_isDirectory fs d) as [[]|] eqn:Es; try done.
    destruct (watch_ok fs d) eqn:Ew; [|done]. by destruct Hn.
Qed.

Lemma watch_dirs_exact fs hasCache reg ds w R :
  NoDup ds → registries w !! reg = Some R → (∀ d, d ∈ ds → d ∉ R) →
  watchers (foldl (λ w' d, Watch.watch_dir fs hasCache reg d w') w ds)
  = watchers w ++ (opened hasCache <$> filter (watchable fs) ds)
  ∧ subscriptions (foldl (λ w' d, Watch.watch_dir fs hasCache reg d w') w ds)
    = subscriptions w ++ imap (teardown (length (watchers w)) reg) (filter (watchable fs) ds)
  ∧ registries (foldl (λ w' d, Watch.watch_dir fs hasCache reg d w') w ds)
    = <[reg := R ∪ list_to_set (filter (watchable fs) ds)]> (registries w).
Proof.
  intros Hnd. revert w R. induction Hnd as [|d ds Hd Hnd IH]; intros w R HR Hfree; simpl.
  - rewrite !app_nil_r. split; [done|]. split; [done|].
    rewrite list_insert_id; [done|]. rewrite HR. f_equal. set_solver.
  - rewrite (watch_dir_exact fs hasCache reg d w R HR) by (apply Hfree; by left).
    destruct (decide (watchable fs d)) as [Hw|Hw].
    + rewrite filter_cons_True by done.
      match goal with |- context [foldl _ ?w1 ds] =>
        destruct (IH w1 (R ∪ {[ d ]})) as (-> & -> & ->)
      end.
      * simpl. apply list_lookup_insert_eq. by eapply lookup_lt_Some.
      * intros d' Hd'. assert (d' ≠ d) by (by intros ->).
        specialize (Hfree d'). set_solver.
      * simpl. rewrite <- !app_assoc. simpl. split; [done|]. split.
        -- f_equal. f_equal. unfold teardown. rewrite length_app. simpl.
           apply imap_ext. intros j x _. simpl. f_equal. lia.
        -- rewrite list_insert_insert_eq. f_equal. set_solver.
    + rewrite filter_cons_False by done.
      apply IH; [done|]. intros d' Hd'. apply Hfree. by right.
Qed.

Lemma watchPathDirectories_exact fs env hasCache w :
  watchers (Watch.watchPathDirectories fs env hasCache w)
  = watchers w ++ (opened hasCache <$> filter (watchable fs) (Watch.pathDirectories env))
  ∧ subscriptions (Watch.watchPathDirectories fs env hasCache w)
    = subscriptions w
      ++ imap (teardown (length (watchers w)) (length (registries w)))
              (filter (watchable fs) (Watch.pathDirectories env))
  ∧ registries (Watch.watchPathDirectories fs env hasCache w)
    = registries w ++ [list_to_set (filter (watchable fs) (Watch.pathDirectories env))].
Proof.
  unfold Watch.watchPathDirectories.
  match goal with |- context [foldl _ ?w0 _] =>
    destruct (watch_dirs_exact fs hasCache (length (registries w))
                (Watch.pathDirectories env) w0 ∅) as (-> & -> & ->)
  end.
  - apply pathDirectories_NoDup.
  - simpl. by rewrite list_lookup_middle.
  - set_solver.
  - simpl. split; [done|]. split; [done|].
    rewrite insert_app_r_alt by done. rewrite Nat.sub_diag. simpl.
    f_equal. f_equal. set_solver.
Qed.

(** X9. One invocation creates one watcher for every distinct entry of the
    [PATH] value that is a directory and that [filesystem.watch] accepts, in
    the order of first occurrence, and nothing else: the test of line 178
    never fires within an invocation. It pushes one teardown per watcher and
    records exactly the watched directories in its [activeWatchers] set. *)
Theorem one_invocation_watches_the_distinct_PATH_directories fs env hasCache w :
  watchers (Watch.watchPathDirectories fs env hasCache w)
  = watchers w ++ (opened hasCache <$> filter (watchable fs) (Watch.pathDirectories env))
  ∧ subscriptions (Watch.watchPathDirectories fs env hasCache w)
    = subscriptions w
      ++ imap (teardown (length (watchers w)) (length (registries w)))
              (filter (watchable fs) (Watch.pathDirectories env))
  ∧ registries (Watch.watchPathDirectories fs env hasCache w)
    = registries w ++ [list_to_set (filter (watchable fs) (Watch.pathDirectories env))]
  ∧ NoDup (Watch.pathDirectories env)
  ∧ (∀ d, d ∈ Watch.pathDirectories env
          ↔ ∃ envPath, env_get env "PATH" = Some envPath ∧ envPath ≠ ""
                       ∧ d ∈ split (if isWindows then ";" else ":")%char envPath).
Proof.
  destruct (watchPathDirectories_exact fs env hasCache w) as (Hw & Hs & Hr).
  split; [done|]. split; [done|]. split; [done|].
  split; [apply pathDirectories_NoDup|].
  intros d. unfold Watch.pathDirectories.
  destruct (env_get env "PATH") as [envPath|].
  - destruct (String.eqb envPath "") eqn:E.
    + apply String.eqb_eq in E. split; [by intros ?%elem_of_nil|].
      intros (p & [= <-] & Hne & _). done.
    + apply String.eqb_neq in E. rewrite elem_of_foldl_Set_add. split.
      * intros [?%elem_of_nil|Hd]; [done|]. by exists envPath.
      * intros (p & [= <-] & _ & Hd). by right.
  - split; [by intros ?%elem_of_nil|]. by intros (p & ? & _).
Qed.

(** *** Teardown *)

Lemma release_all_exact hasCache reg W C ds w R :
  watchers w = W ++ C ++ (opened hasCache <$> ds) →
  registries w !! reg = Some R →
  watchers (release_all (imap (teardown (length W + length C) reg) ds) w)
  = W ++ C ++ (closed_down hasCache <$> ds)
  ∧ registries (release_all (imap (teardown (length W + length C) reg) ds) w)
    = <[reg := R ∖ list_to_set ds]> (registries w).
Proof.
  revert C w R. induction ds as [|d ds IH]; intros C w R Hw HR; simpl.
  - split; [done|]. rewrite list_insert_id; [done|]. rewrite HR. f_equal. set_solver.
  - unfold release_all in *. simpl.
    set (w1 := Watch.release (teardown (length W + length C) reg 0 d) w).
    assert (watchers w1 = W ++ (C ++ [closed_down hasCache d]) ++ (opened hasCache <$> ds))
      as Hw1.
    { unfold w1, Watch.release, teardown. simpl. rewrite Hw, Nat.add_0_r.
      rewrite alter_app_r_alt by lia.
      replace (length W + length C - length W) with (length C + 0) by lia.
      rewrite alter_app_r. simpl. by rewrite <- !app_assoc. }
    assert (registries w1 !! reg = Some (R ∖ {[ d ]})) as HR1.
    { unfold w1, Watch.release, teardown. simpl. by rewrite list_lookup_alter_eq, HR. }
    assert (registries w1 = <[reg := R ∖ {[ d ]}]> (registries w)) as Hreg1.
    { unfold w1, Watch.release, teardown. simpl.
      apply list_eq. intros i. destruct (decide (i = reg)) as [->|Hne].
      - rewrite list_lookup_alter_eq, HR. simpl.
        rewrite list_lookup_insert_eq; [done|]. by eapply lookup_lt_Some.
      - by rewrite list_lookup_alter_ne, list_lookup_insert_ne. }
    clearbody w1.
    destruct (IH (C ++ [closed_down hasCache d]) w1 (R ∖ {[ d ]}) Hw1 HR1) as [Hws Hrs].
    rewrite length_app in Hws, Hrs. simpl in Hws, Hrs.
    assert (imap (teardown (length W + length C) reg ∘ S) ds
            = imap (teardown (length W + (length C + 1)) reg) ds) as ->.
    { apply imap_ext. intros j x _. simpl. unfold teardown. f_equal. lia. }
    rewrite Hws, Hrs, Hreg1. rewrite <- !app_assoc. simpl. split; [done|].
    rewrite list_insert_insert_eq. f_equal. set_solver.
Qed.

Lemma active_closed_down d hasCache ds :
  filter (λ wt, closed wt = false ∧ dir wt = d) (closed_down hasCache <$> ds) = [].
Proof.
  induction ds as [|d' ds IH]; simpl; [done|].
  rewrite filter_cons_False; [done|]. simpl. by intros [? _].
Qed.

(** X10. Running the teardowns that one invocation pushed closes every
    watcher that invocation created, empties its [activeWatchers] set and
    leaves every other watcher as it was: afterwards the open watchers on
    any directory are those from before the invocation. *)
Theorem teardowns_undo_one_invocation fs env hasCache w :
  watchers
    (release_all
       (drop (length (subscriptions w))
             (subscriptions (Watch.watchPathDirectories fs env hasCache w)))
       (Watch.watchPathDirectories fs env hasCache w))
  = watchers w
    ++ (closed_down hasCache <$> filter (watchable fs) (Watch.pathDirectories env))
  ∧ registries
      (release_all
         (drop (length (subscriptions w))
               (subscriptions (Watch.watchPathDirectories fs env hasCache w)))
         (Watch.watchPathDirectories fs env hasCache w))
    = registries w ++ [∅]
  ∧ ∀ d,
      Watch.active d
        (release_all
           (drop (length (subscriptions w))
                 (subscriptions (Watch.watchPathDirectories fs env hasCache w)))
           (Watch.watchPathDirectories fs env hasCache w))
      = Watch.active d w.
Proof.
  destruct (watchPathDirectories_exact fs env hasCache w)
    as (Hw & Hs & Hr).
  rewrite Hs, drop_app_length.
  destruct (release_all_exact hasCache (length (registries w)) (watchers w) []
              (filter (watchable fs) (Watch.pathDirectories env))
              (Watch.watchPathDirectories fs env hasCache w)
              (list_to_set (filter (watchable fs) (Watch.pathDirectories env))))
    as [Hws Hrs].
  { by rewrite Hw. }
  { rewrite Hr. by rewrite list_lookup_middle. }
  simpl in Hws, Hrs. rewrite Nat.add_0_r in Hws, Hrs.
  split; [done|]. split.
  - rewrite Hrs, Hr. rewrite insert_app_r_alt by done. rewrite Nat.sub_diag. simpl.
    f_equal. f_equal. set_solver.
  - intros d. unfold Watch.active. rewrite Hws, filter_app, active_closed_down.
    by rewrite app_nil_r.
Qed.

End WatchExact.

(** ** Further properties of the cache among the other events *)

Section WorldFacts.
Context `{Host}.

Lemma lookup_reads_cache_and_counter fs sched (env : option ITerminalEnvironment)
    shellType w1 w2 :
  cache w1 = cache w2 → nextObject w1 = nextObject w2 →
  (Cache.getExecutablesInPath fs sched env shellType w1).1
  = (Cache.getExecutablesInPath fs sched env shellType w2).1
  ∧ cache (Cache.getExecutablesInPath fs sched env shellType w1).2
    = cache (Cache.getExecutablesInPath fs sched env shellType w2).2.
Proof.
  intros Hc Hn. unfold Cache.getExecutablesInPath.
  destruct (Cache.resolvePathValue _ _) as [pathValue|]; [|done].
  assert ((Cache.fill fs sched pathValue w1).1 = (Cache.fill fs sched pathValue w2).1
          ∧ cache (Cache.fill fs sched pathValue w1).2
            = cache (Cache.fill fs sched pathValue w2).2) as Hfill.
  { unfold Cache.fill. rewrite Hc.
    destruct (Scanner.join _ _ _ _ _) as [rs labels]. simpl. by rewrite Hc, Hn. }
  rewrite Hc. destruct (_cachedExes (cache w2)) as [e|]; [|done].
  destruct (decide _); [|done]. simpl. done.
Qed.

(** X11. Creating watchers does not disturb the cache: a lookup made after
    an invocation of [watchPathDirectories] returns what it would have
    returned before it (the same object on a hit, an equal new object on a
    miss) and leaves the same cache fields behind. *)
Theorem watching_does_not_disturb_lookups fs0 env0 hasCache fs sched
    (env : option ITerminalEnvironment) shellType w :
  (Cache.getExecutablesInPath fs sched env shellType
     (Watch.watchPathDirectories fs0 env0 hasCache w)).1
  = (Cache.getExecutablesInPath fs sched env shellType w).1
  ∧ cache (Cache.getExecutablesInPath fs sched env shellType
             (Watch.watchPathDirectories fs0 env0 hasCache w)).2
    = cache (Cache.getExecutablesInPath fs sched env shellType w).2
  ∧ scanCalls (Watch.watchPathDirectories fs0 env0 hasCache w) = scanCalls w.
Proof.
  destruct (watchPathDirectories_frame fs0 env0 hasCache w) as (Hc & _ & Hn & Hs & _).
  destruct (lookup_reads_cache_and_counter fs sched env shellType
              (Watch.watchPathDirectories fs0 env0 hasCache w) w Hc Hn) as [H1 H2].
  done.
Qed.

(** X12. The change callback of an open watcher: when the watcher was
    created with a cache, then, as long as no fill completes after the
    callback, the next lookup that resolves a PATH string scans again (one
    scanner call per PATH entry, a new object), although the PATH string has
    not changed; when it was created without a cache, the callback changes
    nothing. *)
Theorem change_event_forces_rescan fs sched (env : option ITerminalEnvironment)
    shellType pathValue w i wt evs :
  watchers w !! i = Some wt →
  closed wt = false →
  Cache.resolvePathValue (default process_env env) shellType = Some pathValue →
  Forall quiet evs →
  if refreshes wt
  then ∃ e w',
         Cache.getExecutablesInPath fs sched env shellType (run evs (Watch.onChange i w))
         = (Some e, w')
         ∧ scanCalls w' = scanCalls w ++ Cache.directories pathValue
         ∧ oid e = nextObject w
         ∧ completionResources e
           = Cache.merge
               (Scanner.join fs
                  (_cachedWindowsExeExtensions (cache (run evs (Watch.onChange i w))))
                  sched Cache.pathSeparator (Cache.directories pathValue)).1
  else Watch.onChange i w = w.
Proof.
  intros Hi Hopen Hr Hq. unfold Watch.onChange. rewrite Hi, Hopen.
  destruct (refreshes wt); [|done].
  destruct (quiet_run evs (Cache.refresh w) Hq eq_refl) as (Hn & Hs & Ho).
  destruct (lookup_without_entry fs sched env shellType pathValue
              (run evs (Cache.refresh w)) Hr Hn)
    as (e & w' & Hget & Hsc & Hoid & Hres & _).
  exists e, w'. split; [done|]. split; [by rewrite Hsc, Hs|].
  split; [by rewrite Hoid, Ho|]. done.
Qed.

(** *** When the configuration listener is not registered *)

Lemma step_not_listening w ev :
  configListening w = false →
  configListening (step w ev) = false
  ∧ _cachedWindowsExeExtensions (cache (step w ev))
    = _cachedWindowsExeExtensions (cache w).
Proof.
  intros Hl.
  destruct ev as [fs sched env shellType|p ex l| |affects setting|fs env hc|s|i|]; simpl;
    try done.
  - unfold Cache.getExecutablesInPath.
    destruct (Cache.resolvePathValue _ _) as [pathValue|]; [|done].
    destruct (fill_spec fs sched pathValue w)
      as (e & w' & Hf & _ & _ & _ & _ & _ & Hex & _ & _ & _ & Hlis & _).
    destruct (_cachedExes (cache w)); [destruct (decide _)|]; simpl; try done;
      rewrite Hf; simpl; by rewrite Hlis.
  - unfold Cache.onDidChangeConfiguration. by rewrite Hl.
  - by destruct (watchPathDirectories_frame fs env hc w) as (-> & -> & _).
  - unfold Watch.onChange. destruct (watchers w !! i) as [wt|]; [|done].
    destruct (closed wt); [done|]. by destruct (refreshes wt).
Qed.

Lemma run_not_listening evs w :
  configListening w = false →
  configListening (run evs w) = false
  ∧ _cachedWindowsExeExtensions (cache (run evs w))
    = _cachedWindowsExeExtensions (cache w).
Proof.
  revert w. induction evs as [|ev evs IH]; intros w Hl; simpl; [done|].
  destruct (step_not_listening w ev Hl) as [Hl' Hex].
  destruct (IH (step w ev) Hl') as [? ?]. split; [done|]. congruence.
Qed.

(** X13. On a host that is not Windows the cache never holds a suffix
    setting: after every history the field is [undefined], so every
    executability check of every scan is called without one, and a
    configuration change, whatever it affects, changes nothing. *)
Theorem no_suffix_setting_outside_windows setting evs :
  isWindows = false →
  _cachedWindowsExeExtensions (cache (run evs (Cache.new setting))) = None
  ∧ ∀ affectsConfiguration setting',
      Cache.onDidChangeConfiguration affectsConfiguration setting'
        (run evs (Cache.new setting))
      = run evs (Cache.new setting).
Proof.
  intros Hposix.
  destruct (run_not_listening evs (Cache.new setting)) as [Hl Hex].
  { simpl. done. }
  split.
  - rewrite Hex. simpl. by rewrite Hposix.
  - intros affects setting'. unfold Cache.onDidChangeConfiguration. by rewrite Hl.
Qed.

(** X14. [dispose] only unregisters the configuration listener: it clears
    no cache field, closes no watcher and runs no teardown, so lookups
    return what they returned before. After it, whatever happens, the suffix
    setting held by the cache stays what it was and a configuration change
    changes nothing. *)
Theorem dispose_only_stops_configuration_updates w evs :
  cache (Cache.dispose w) = cache w
  ∧ watchers (Cache.dispose w) = watchers w
  ∧ registries (Cache.dispose w) = registries w
  ∧ subscriptions (Cache.dispose w) = subscriptions w
  ∧ (∀ fs sched (env : option ITerminalEnvironment) shellType,
       (Cache.getExecutablesInPath fs sched env shellType (Cache.dispose w)).1
       = (Cache.getExecutablesInPath fs sched env shellType w).1)
  ∧ _cachedWindowsExeExtensions (cache (run evs (Cache.dispose w)))
    = _cachedWindowsExeExtensions (cache w)
  ∧ ∀ affectsConfiguration setting,
      Cache.onDidChangeConfiguration affectsConfiguration setting
        (run evs (Cache.dispose w))
      = run evs (Cache.dispose w).
Proof.
  split; [done|]. split; [done|]. split; [done|]. split; [done|]. split.
  - intros fs sched env shellType.
    by destruct (lookup_reads_cache_and_counter fs sched env shellType
                   (Cache.dispose w) w eq_refl eq_refl).
  - destruct (run_not_listening evs (Cache.dispose w) eq_refl) as [Hl Hex].
    split; [done|].
    intros affects setting. unfold Cache.onDidChangeConfiguration. by rewrite Hl.
Qed.

(** X15. A refresh that lands while a fill is waiting for its scans is
    lost: the fill still stores its entry under its PATH string when the
    scans have settled, and the next lookup that resolves the same string is
    served that entry, the same object, without any scanner call. *)
Theorem refresh_during_a_fill_is_lost fs sched pathValue w fs' sched'
    (env : option ITerminalEnvironment) shellType :
  Cache.resolvePathValue (default process_env env) shellType = Some pathValue →
  ∃ e w',
    Cache.publish pathValue
      (Cache.merge (Scanner.join fs (_cachedWindowsExeExtensions (cache w)) sched
                      Cache.pathSeparator (Cache.directories pathValue)).1)
      (Scanner.join fs (_cachedWindowsExeExtensions (cache w)) sched
         Cache.pathSeparator (Cache.directories pathValue)).2
      (Cache.refresh (Cache.record_scans (Cache.directories pathValue) w))
    = (Some e, w')
    ∧ (Cache.fill fs sched pathValue w).1 = Some e
    ∧ Cache.getExecutablesInPath fs' sched' env shellType w' = (Some e, w')
    ∧ scanCalls w' = scanCalls w ++ Cache.directories pathValue.
Proof.
  intros Hr. eexists _, _. split; [reflexivity|]. split.
  - unfold Cache.fill. by destruct (Scanner.join _ _ _ _ _).
  - unfold Cache.getExecutablesInPath. rewrite Hr. simpl.
    destruct (decide _); done.
Qed.

End WorldFacts.

(** X15 on the example disk. *)
Lemma refresh_during_a_fill_is_lost_witness :
  ∃ e w',
    Cache.getExecutablesInPath (H := Posix.host) Example.usr [] (Some Scenario.posix_env)
      None w' = (Some e, w')
    ∧ scanCalls w' = ["/usr/bin"].
Proof.
  destruct (refresh_during_a_fill_is_lost (H := Posix.host) Example.usr [] "/usr/bin"
              (Cache.new (H := Posix.host) None) Example.usr []
              (Some Scenario.posix_env) None)
    as (e & w' & _ & _ & Hget & Hscans).
  - reflexivity.
  - exists e, w'. split; [exact Hget|exact Hscans].
Defined.

(** X12 on the watcher that one invocation creates for [/usr/bin]; a
    second change event and a dispose follow the first. *)
Lemma change_event_forces_rescan_witness :
  ∃ e w',
    Cache.getExecutablesInPath (H := Posix.host) Example.usr [] (Some Scenario.posix_env) None
      (run (H := Posix.host) [Changed 0; Disposed]
         (Watch.onChange 0
            (Watch.watchPathDirectories (H := Posix.host) Example.usr Scenario.posix_env true
               (run (H := Posix.host) [Lookup Example.usr [] (Some Scenario.posix_env) None]
                  (Cache.new (H := Posix.host) None)))))
    = (Some e, w')
    ∧ scanCalls w' = ["/usr/bin"; "/usr/bin"]
    ∧ oid e = 1.
Proof.
  pose proof (change_event_forces_rescan (H := Posix.host) Example.usr []
                (Some Scenario.posix_env) None "/usr/bin"
                (Watch.watchPathDirectories (H := Posix.host) Example.usr
                   Scenario.posix_env true
                   (run (H := Posix.host)
                      [Lookup Example.usr [] (Some Scenario.posix_env) None]
                      (Cache.new (H := Posix.host) None)))
                0 (WatchAux.opened true "/usr/bin") [Changed 0; Disposed]) as Hthm.
  destruct Hthm as (e & w' & Hget & Hscans & Hoid & _).
  - reflexivity.
  - reflexivity.
  - reflexivity.
  - repeat constructor.
  - exists e, w'. split; [exact Hget|]. split; [exact Hscans|exact Hoid].
Defined.

(** X13 on the POSIX host, after a lookup and a configuration change. *)
Lemma no_suffix_setting_outside_windows_witness :
  _cachedWindowsExeExtensions
    (cache (run (H := Posix.host)
              [Lookup Example.usr [] (Some Scenario.posix_env) None;
               ConfigurationChanged true (Some [(".ps1", Some true)])]
              (Cache.new (H := Posix.host) (Some [(".sh", Some true)]))))
  = None.
Proof.
  apply (no_suffix_setting_outside_windows (H := Posix.host)).
  reflexivity.
Defined.

(** ** Symbolic links under every schedule *)

Section LinkFacts.
Context `{Host}.
Variable fs : FileSystem.
Variable exts : option WindowsExeExtensions.

Import Scanner Aux Pool.

(** *** Every scan works on its own PATH entry *)

Lemma own_start sep paths : Link.own fs exts sep paths (start sep paths).
Proof.
  intros i p t Hp Ht. unfold start in Ht. rewrite list_lookup_fmap, Hp in Ht.
  injection Ht as <-. simpl. split; [|done]. by apply list_elem_of_singleton.
Qed.

Lemma own_resume sep paths pool labels i t :
  pool !! i = Some t → Link.own fs exts sep paths pool →
  Link.own fs exts sep paths (<[i := (resume fs exts t labels).1]> pool).
Proof.
  intros Hi Ho j p u Hp Hu. destruct (decide (j = i)) as [->|Hne].
  - rewrite list_lookup_insert_eq in Hu by (by eapply lookup_lt_Some).
    injection Hu as <-. apply sound_resume. by eapply Ho.
  - rewrite list_lookup_insert_ne in Hu by done. by eapply Ho.
Qed.

Lemma own_frame sep p fr file :
  sound_frame fs exts sep [p] fr file →
  path fr = p ∧ ∃ fileType, (file, fileType) ∈ listing fs p.
Proof.
  intros (Hp & _ & _ & _ & (ft & Hft & _) & _).
  apply list_elem_of_singleton in Hp. rewrite Hp in Hft. eauto.
Qed.

(** A resource of the scan of [p] whose name is a link of [p] is the link's
    resource: the link resolves, the target passed the executability check,
    and the documentation follows the template. *)
Lemma genuine_link sep p r :
  genuine fs exts sep [p] r → Link.is_link fs p (label r) →
  ∃ target,
    realpath fs (Link.linkPath p (label r)) = Some target
    ∧ isExecutable fs target exts = Some true
    ∧ r = Link.link_resource p (label r) target.
Proof.
  intros (Hkind & p0 & ft & Hp0 & _ & _ & _ & Hcase) Hlink.
  apply list_elem_of_singleton in Hp0. subst p0.
  unfold Link.is_link, Link.linkPath in *.
  destruct Hcase as [(Hl & _)|(_ & target & Hr & Hx & Hdoc)]; [congruence|].
  exists target. split; [done|]. split; [done|].
  destruct r as [l d k]. simpl in *. subst. done.
Qed.

(** *** What one resumption does to the label set and the collected
    resources *)

Lemma resume_cases t labels :
  ((resume fs exts t labels).2 = labels
   ∧ collected (resume fs exts t labels).1 = collected t)
  ∨ ((resume fs exts t labels).2 = labels
     ∧ (resume fs exts t labels).1 = Settled None)
  ∨ (∃ fr file target,
       t = AwaitIsExecutableLink fr file target
       ∧ isExecutable fs target exts = Some true
       ∧ (file ∉ labels)
       ∧ (resume fs exts t labels).1
         = loop (path fr) (pathSeparator fr)
             (result fr ++ [Link.link_resource (path fr) file target]) (rest fr)
       ∧ (resume fs exts t labels).2 = labels ∪ {[ file ]})
  ∨ (∃ fr file fp,
       t = AwaitIsExecutable fr file fp
       ∧ isExecutable fs fp exts = Some true
       ∧ (resume fs exts t labels).1
         = loop (path fr) (pathSeparator fr)
             (result fr ++ [{| label := file; documentation := fp; kind := Method |}])
             (rest fr)
       ∧ (resume fs exts t labels).2 = labels ∪ {[ file ]}).
Proof.
  destruct t as [p s|p s|fr file|fr file|fr file real|fr file fp|r]; simpl.
  - left. by destruct (stat_isDirectory fs p) as [[]|].
  - left. destruct (readDirectory fs p); simpl; [|done]. by rewrite collected_loop.
  - left. unfold continue.
    destruct (lstat_isSymbolicLink fs _) as [[]|]; simpl; try by rewrite ?collected_loop.
    destruct (decide _); simpl; by rewrite ?collected_loop.
  - left. unfold continue. destruct (realpath fs _); simpl; by rewrite ?collected_loop.
  - unfold continue.
    destruct (isExecutable fs real exts) as [[]|] eqn:E; simpl;
      try (left; by rewrite collected_loop).
    destruct (decide _) as [Hin|Hout]; simpl; [left; by rewrite collected_loop|].
    right. right. left. by exists fr, file, real.
  - unfold continue. destruct (isExecutable fs fp exts) as [[]|] eqn:E; simpl.
    + right. right. right. by exists fr, file, fp.
    + left. by rewrite collected_loop.
    + right. by left.
  - by left.
Qed.

Lemma labels_grow_resume t labels : labels ⊆ (resume fs exts t labels).2.
Proof.
  destruct (resume_cases t labels)
    as [[-> _]|[[-> _]|[(fr & file & tg & _ & _ & _ & _ & ->)|(fr & file & fp & _ & _ & _ & ->)]]];
    set_solver.
Qed.

Lemma labels_grow_run_schedule sched pool labels :
  labels ⊆ (run_schedule fs exts sched pool labels).2.
Proof.
  apply (run_schedule_invariant fs exts (λ _ labels', labels ⊆ labels')); [|done].
  intros pool' labels' i t _ Hsub. pose proof (labels_grow_resume t labels'). set_solver.
Qed.

Lemma labels_grow_settle sched pool labels :
  labels ⊆ (settle fs exts sched pool labels).2.
Proof.
  destruct (settle_as_schedule fs exts sched pool labels) as (s' & -> & _). simpl.
  apply labels_grow_run_schedule.
Qed.

Lemma outcome_lookup (pool : list Scan) i res :
  (outcome <$> pool) !! i = Some (Some res) → pool !! i = Some (Settled (Some res)).
Proof.
  rewrite list_lookup_fmap. destruct (pool !! i) as [t|]; simpl; [|done].
  destruct t; simpl; intros [= ->]; done.
Qed.

(** *** A collected resource stays until the scan returns or aborts *)

Lemma kept_run_schedule i r sched pool labels :
  (∀ t, pool !! i = Some t → r ∈ collected t ∨ t = Settled None) →
  ∀ t, (run_schedule fs exts sched pool labels).1 !! i = Some t →
       r ∈ collected t ∨ t = Settled None.
Proof.
  apply (run_schedule_invariant fs exts
           (λ pool _, ∀ t, pool !! i = Some t → r ∈ collected t ∨ t = Settled None)).
  clear pool labels. intros pool labels j t Hj HP u Hu.
  destruct (decide (i = j)) as [->|Hne].
  - rewrite list_lookup_insert_eq in Hu by (by eapply lookup_lt_Some).
    injection Hu as <-. destruct (HP t Hj) as [Hr| ->]; [|by right].
    destruct (resume_cases t labels)
      as [[_ Hc]|[[_ Hc]|[(fr & file & tg & -> & _ & _ & Hc & _)
                         |(fr & file & fp & -> & _ & Hc & _)]]].
    + left. by rewrite Hc.
    + by right.
    + left. rewrite Hc, collected_loop. apply elem_of_app. by left.
    + left. rewrite Hc, collected_loop. apply elem_of_app. by left.
  - rewrite list_lookup_insert_ne in Hu by done. by apply HP.
Qed.

Lemma kept_settle i r sched pool labels t res :
  pool !! i = Some t → r ∈ collected t →
  (settle fs exts sched pool labels).1 !! i = Some (Some res) → r ∈ res.
Proof.
  intros Hi Hr. destruct (settle_as_schedule fs exts sched pool labels) as (s' & -> & _).
  simpl. intros Hres%outcome_lookup.
  destruct (kept_run_schedule i r s' pool labels) with (t := Settled (Some res))
    as [Hin|Hno]; try done.
  intros t' Ht'. left. congruence.
Qed.

(** *** The step that decides on a link *)

Lemma settle_cons i sched pool labels t :
  pool !! i = Some t →
  settle fs exts (i :: sched) pool labels
  = settle fs exts sched (<[i := (resume fs exts t labels).1]> pool)
      (resume fs exts t labels).2.
Proof.
  intros Hi. unfold settle. simpl. unfold resume_at. rewrite Hi.
  by destruct (resume fs exts t labels).
Qed.

Lemma link_skipped fr file target labels :
  isExecutable fs target exts ≠ Some true ∨ file ∈ labels →
  resume fs exts (AwaitIsExecutableLink fr file target) labels = (continue fr, labels).
Proof.
  intros Hcase. simpl. destruct (isExecutable fs target exts) as [[]|]; try done.
  destruct Hcase as [?|?]; [done|]. by destruct (decide (file ∈ labels)).
Qed.

Lemma link_accepted fr file target labels :
  isExecutable fs target exts = Some true → file ∉ labels →
  resume fs exts (AwaitIsExecutableLink fr file target) labels
  = (loop (path fr) (pathSeparator fr)
       (result fr ++ [Link.link_resource (path fr) file target]) (rest fr),
     labels ∪ {[ file ]}).
Proof. intros Hx Hfree. simpl. rewrite Hx. by destruct (decide (file ∈ labels)). Qed.

(** *** No two link resources of one name *)

Lemma covered_resume pool labels i t :
  pool !! i = Some t → Link.covered pool labels →
  Link.covered (<[i := (resume fs exts t labels).1]> pool) (resume fs exts t labels).2.
Proof.
  intros Hi Hc j u r Hj Hr.
  pose proof (labels_grow_resume t labels) as Hmono.
  destruct (decide (j = i)) as [->|Hne].
  - rewrite list_lookup_insert_eq in Hj by (by eapply lookup_lt_Some).
    injection Hj as <-.
    destruct (resume_cases t labels)
      as [[Hl Hcl]|[[_ Hcl]|[(fr & file & tg & -> & _ & _ & Hcl & Hl)
                           |(fr & file & fp & -> & _ & Hcl & Hl)]]].
    + rewrite Hl. rewrite Hcl in Hr. by eapply Hc.
    + rewrite Hcl in Hr. by apply elem_of_nil in Hr.
    + rewrite Hl. rewrite Hcl, collected_loop in Hr. apply elem_of_app in Hr as [Hr|Hr].
      * apply elem_of_union_l. by eapply (Hc i _ r Hi).
      * apply list_elem_of_singleton in Hr as ->. set_solver.
    + rewrite Hl. rewrite Hcl, collected_loop in Hr. apply elem_of_app in Hr as [Hr|Hr].
      * apply elem_of_union_l. by eapply (Hc i _ r Hi).
      * apply list_elem_of_singleton in Hr as ->. set_solver.
  - rewrite list_lookup_insert_ne in Hj by done. apply Hmono. by eapply Hc.
Qed.

(** Where a resource of the pool after a resumption comes from. *)
Lemma collected_after (pool : list Scan) i t t' j u k r added :
  pool !! i = Some t →
  collected t' = collected t ++ added →
  <[i := t']> pool !! j = Some u → collected u !! k = Some r →
  (∃ u0, pool !! j = Some u0 ∧ collected u0 !! k = Some r)
  ∨ (j = i ∧ length (collected t) ≤ k ∧ added !! (k - length (collected t)) = Some r).
Proof.
  intros Hi Hc Hj Hk. destruct (decide (j = i)) as [->|Hne].
  - rewrite list_lookup_insert_eq in Hj by (by eapply lookup_lt_Some).
    injection Hj as <-. rewrite Hc in Hk.
    apply lookup_app_Some in Hk as [Hk|[Hle Hk]]; [left; eauto|right; done].
  - rewrite list_lookup_insert_ne in Hj by done. left. eauto.
Qed.

Lemma collected_shrunk (pool : list Scan) i t t' j u k r :
  pool !! i = Some t →
  (∀ k r, collected t' !! k = Some r → collected t !! k = Some r) →
  <[i := t']> pool !! j = Some u → collected u !! k = Some r →
  ∃ u0, pool !! j = Some u0 ∧ collected u0 !! k = Some r.
Proof.
  intros Hi Hc Hj Hk. destruct (decide (j = i)) as [->|Hne].
  - rewrite list_lookup_insert_eq in Hj by (by eapply lookup_lt_Some).
    injection Hj as <-. eauto.
  - rewrite list_lookup_insert_ne in Hj by done. eauto.
Qed.

Lemma one_link_per_name_resume sep paths pool labels i t :
  pool !! i = Some t →
  Link.own fs exts sep paths pool → Link.covered pool labels →
  Link.one_link_per_name fs paths pool →
  Link.one_link_per_name fs paths (<[i := (resume fs exts t labels).1]> pool).
Proof.
  intros Hi Ho Hc Hu.
  assert (∀ t',
            (∀ k r, collected t' !! k = Some r → collected t !! k = Some r) →
            Link.one_link_per_name fs paths (<[i := t']> pool)) as Hshrunk.
  { intros t' Hsub j j' p p' u u' k k' r r' Hp Hp' Hj Hj' Hk Hk' Hl Hlink Hlink'.
    destruct (collected_shrunk pool i t t' j u k r Hi Hsub Hj Hk) as (u0 & Hj0 & Hk0).
    destruct (collected_shrunk pool i t t' j' u' k' r' Hi Hsub Hj' Hk') as (u0' & Hj0' & Hk0').
    by eapply (Hu j j' p p' u0 u0' k k' r r'). }
  destruct (resume_cases t labels)
    as [[_ Hcl]|[[_ Hcl]|[(fr & file & tg & -> & _ & Hfree & Hcl & _)
                         |(fr & file & fp & -> & _ & Hcl & _)]]].
  - apply Hshrunk. intros k r. by rewrite Hcl.
  - apply Hshrunk. intros k r. rewrite Hcl. simpl. by rewrite lookup_nil.
  - (* a link is accepted: its name was in no label set so far *)
    rewrite Hcl.
    intros j j' p p' u u' k k' r r' Hp Hp' Hj Hj' Hk Hk' Hl Hlink Hlink'.
    set (r0 := Link.link_resource (path fr) file tg) in *.
    assert (∀ j u k r, pool !! j = Some u → collected u !! k = Some r → label r ≠ file)
      as Hold.
    { intros j0 u0 k0 r1 Hj0 Hk0 Heq. apply Hfree. rewrite <- Heq.
      eapply Hc; [exact Hj0|]. by eapply list_elem_of_lookup_2. }
    destruct (collected_after pool i _ _ j u k r [r0] Hi
                (collected_loop _ _ _ _) Hj Hk)
      as [(u0 & Hj0 & Hk0)|(-> & Hle & Hnew)];
    destruct (collected_after pool i _ _ j' u' k' r' [r0] Hi
                (collected_loop _ _ _ _) Hj' Hk')
      as [(u0' & Hj0' & Hk0')|(-> & Hle' & Hnew')].
    + by eapply (Hu j j' p p' u0 u0' k k' r r').
    + apply list_lookup_singleton_Some in Hnew' as [_ <-].
      destruct (Hold j u0 k r Hj0 Hk0). by rewrite Hl.
    + apply list_lookup_singleton_Some in Hnew as [_ <-].
      destruct (Hold j' u0' k' r' Hj0' Hk0'). by rewrite <- Hl.
    + apply list_lookup_singleton_Some in Hnew as [Hk0 _].
      apply list_lookup_singleton_Some in Hnew' as [Hk0' _].
      split; [done|]. simpl in *. lia.
  - (* a regular entry is accepted: it is no link of its directory *)
    rewrite Hcl.
    intros j j' p p' u u' k k' r r' Hp Hp' Hj Hj' Hk Hk' Hl Hlink Hlink'.
    set (r0 := {| label := file; documentation := fp; kind := Method |}) in *.
    assert (∀ p, paths !! i = Some p → ¬ Link.is_link fs p file) as Hreg.
    { intros q Hq Hlk. specialize (Ho i q _ Hq Hi). simpl in Ho.
      destruct Ho as (Hfr & Hfalse & _).
      destruct (own_frame sep q fr file Hfr) as [Hpath _].
      unfold Link.is_link, Link.linkPath in Hlk. unfold resource in Hfalse.
      rewrite Hpath in Hfalse. congruence. }
    destruct (collected_after pool i _ _ j u k r [r0] Hi
                (collected_loop _ _ _ _) Hj Hk)
      as [(u0 & Hj0 & Hk0)|(-> & Hle & Hnew)];
    destruct (collected_after pool i _ _ j' u' k' r' [r0] Hi
                (collected_loop _ _ _ _) Hj' Hk')
      as [(u0' & Hj0' & Hk0')|(-> & Hle' & Hnew')].
    + by eapply (Hu j j' p p' u0 u0' k k' r r').
    + apply list_lookup_singleton_Some in Hnew' as [_ <-]. by destruct (Hreg p' Hp').
    + apply list_lookup_singleton_Some in Hnew as [_ <-]. by destruct (Hreg p Hp).
    + apply list_lookup_singleton_Some in Hnew as [_ <-]. by destruct (Hreg p Hp).
Qed.

Lemma links_run_schedule sep paths sched :
  Link.own fs exts sep paths (run_schedule fs exts sched (start sep paths) ∅).1
  ∧ Link.covered (run_schedule fs exts sched (start sep paths) ∅).1
      (run_schedule fs exts sched (start sep paths) ∅).2
  ∧ Link.one_link_per_name fs paths (run_schedule fs exts sched (start sep paths) ∅).1.
Proof.
  apply (run_schedule_invariant fs exts
           (λ pool labels,
              Link.own fs exts sep paths pool ∧ Link.covered pool labels
              ∧ Link.one_link_per_name fs paths pool)).
  - intros pool labels i t Hi (Ho & Hc & Hu). split; [|split].
    + by apply own_resume.
    + by apply covered_resume.
    + by eapply one_link_per_name_resume.
  - assert (∀ j u, start sep paths !! j = Some u → collected u = []) as Hempty.
    { intros j u Hj. unfold start in Hj. rewrite list_lookup_fmap in Hj.
      destruct (paths !! j); simpl in Hj; [|done]. by injection Hj as <-. }
    split; [apply own_start|]. split.
    + intros j u r Hj Hr. rewrite (Hempty j u Hj) in Hr. by apply elem_of_nil in Hr.
    + intros j j' p p' u u' k k' r r' _ _ Hj _ Hk. rewrite (Hempty j u Hj) in Hk.
      by rewrite lookup_nil in Hk.
Qed.

(** *** A link that is listed is decided on before the scan returns *)

Section OneLink.
Variables (sep : string) (paths : list string) (i : nat) (p file : string).
Variables (fileType : FileType) (target : string).
Hypothesis Hp : paths !! i = Some p.
Hypothesis Hin : (file, fileType) ∈ listing fs p.
Hypothesis Hsk : skipped_early fileType = false.
Hypothesis Hlink : Link.is_link fs p file.
Hypothesis Hreal : realpath fs (Link.linkPath p file) = Some target.
Hypothesis Hexec : isExecutable fs target exts = Some true.

Lemma ahead_loop p0 s res files :
  (∃ ft, (file, ft) ∈ files ∧ skipped_early ft = false) →
  Link.ahead file (loop p0 s res files).
Proof.
  revert res. induction files as [|[f ft0] files IH]; intros res (ft & Hft & Hns); simpl.
  - by apply elem_of_nil in Hft.
  - fold (skipped_early ft0). apply elem_of_cons in Hft as [Heq|Hft].
    + injection Heq as <- <-. rewrite Hns. simpl. by left.
    + destruct (skipped_early ft0); [apply IH; eauto|]. simpl. right. eauto.
Qed.

Lemma reached_resume pool labels j t :
  pool !! j = Some t →
  Link.own fs exts sep paths pool →
  Link.reached i file pool labels →
  Link.reached i file (<[j := (resume fs exts t labels).1]> pool)
    (resume fs exts t labels).2.
Proof.
  intros Hj Ho Hre u Hu.
  pose proof (labels_grow_resume t labels) as Hmono.
  destruct (decide (i = j)) as [<-|Hne].
  2:{ rewrite list_lookup_insert_ne in Hu by done.
      destruct (Hre u Hu) as [?|[?|?]]; [left; set_solver|by (right; left)|by (right; right)]. }
  rewrite list_lookup_insert_eq in Hu by (by eapply lookup_lt_Some).
  injection Hu as <-.
  destruct (Hre t Hj) as [Hlab|[Hahead| ->]];
    [left; set_solver| |by (right; right)].
  specialize (Ho i p t Hp Hj). clear Hmono Hre Hj.
  unfold Link.is_link, Link.linkPath in Hlink. unfold Link.linkPath in Hreal.
  destruct t as [p0 s|p0 s|fr f|fr f|fr f real|fr f fp|r]; simpl in *.
  - destruct (stat_isDirectory fs p0) as [[]|]; simpl; auto.
  - destruct Ho as (Hp0 & _ & _). apply list_elem_of_singleton in Hp0. subst p0.
    unfold listing in Hin.
    destruct (readDirectory fs p) as [files|]; simpl in *; [|auto].
    right. left. apply ahead_loop. eauto.
  - destruct (own_frame sep p fr f Ho) as [Hpath _]. unfold resource, continue.
    rewrite Hpath. destruct Hahead as [->|Hrest].
    + rewrite Hlink. simpl. right. left. by left.
    + destruct (lstat_isSymbolicLink fs (fsPath (Uri_joinPath (Uri_file p) f)))
        as [[]|]; simpl.
      * right. left. by right.
      * destruct (decide (f ∈ labels)); simpl; right; left;
          [by apply ahead_loop|by right].
      * right. left. by apply ahead_loop.
  - destruct Ho as [Hfr _]. destruct (own_frame sep p fr f Hfr) as [Hpath _].
    unfold resource, continue. rewrite Hpath. destruct Hahead as [->|Hrest].
    + rewrite Hreal. simpl. right. left. by left.
    + destruct (realpath fs (fsPath (Uri_joinPath (Uri_file p) f))); simpl; right; left;
        [by right|by apply ahead_loop].
  - destruct Ho as (Hfr & _ & Hr). destruct (own_frame sep p fr f Hfr) as [Hpath _].
    unfold resource in Hr. rewrite Hpath in Hr. unfold continue, accept.
    destruct Hahead as [->|Hrest].
    + rewrite Hreal in Hr. injection Hr as <-. rewrite Hexec.
      destruct (decide (file ∈ labels)); simpl; left; [done|set_solver].
    + destruct (isExecutable fs real exts) as [[]|]; simpl;
        try (right; left; by apply ahead_loop).
      destruct (decide (f ∈ labels)); simpl; right; left; by apply ahead_loop.
  - destruct Ho as (Hfr & Hfalse & _). destruct (own_frame sep p fr f Hfr) as [Hpath _].
    unfold resource in Hfalse. rewrite Hpath in Hfalse. unfold continue, accept.
    destruct Hahead as [->|Hrest]; [congruence|].
    destruct (isExecutable fs fp exts) as [[]|]; simpl;
      [right; left; by apply ahead_loop|right; left; by apply ahead_loop|by (right; right)].
  - done.
Qed.

(** No other PATH entry lists the name. *)
Hypothesis Hother : ∀ j q, j ≠ i → paths !! j = Some q → file ∉ (listing fs q).*1.

Lemma held_resume pool labels j t :
  pool !! j = Some t →
  length pool = length paths →
  Link.own fs exts sep paths pool →
  Link.held i file pool labels →
  Link.held i file (<[j := (resume fs exts t labels).1]> pool)
    (resume fs exts t labels).2.
Proof.
  intros Hj Hlen Ho Hh Hfile u Hu.
  destruct (decide (i = j)) as [<-|Hne].
  - rewrite list_lookup_insert_eq in Hu by (by eapply lookup_lt_Some).
    injection Hu as <-.
    assert (∀ fr f (r0 : ICompletionResource) res,
              t = AwaitIsExecutableLink fr f res ∨ t = AwaitIsExecutable fr f res →
              label r0 = f → file ∈ labels ∪ {[ f ]} →
              ∃ r, r ∈ result fr ++ [r0] ∧ label r = file) as Hadd.
    { intros fr f r0 res Ht Hl0 [Hold|Hnew%elem_of_singleton]%elem_of_union.
      - destruct (Hh Hold t Hj) as [(r & Hr & Hlab)|Hno].
        + exists r. split; [|done]. apply elem_of_app. left.
          by destruct Ht as [-> | ->].
        + by destruct Ht as [-> | ->].
      - exists r0. split; [|congruence]. apply elem_of_app. right. by left. }
    destruct (resume_cases t labels)
      as [[Hl Hcl]|[[_ Hcl]|[(fr & f & tg & Ht & _ & _ & Hcl & Hl)
                            |(fr & f & fp & Ht & _ & Hcl & Hl)]]].
    + rewrite Hl in Hfile. destruct (Hh Hfile t Hj) as [(r & Hr & Hlab)|Hno].
      * left. exists r. by rewrite Hcl.
      * right. rewrite Hno. done.
    + by right.
    + left. rewrite Hcl, collected_loop. rewrite Hl in Hfile.
      eapply Hadd; [by left|reflexivity|done].
    + left. rewrite Hcl, collected_loop. rewrite Hl in Hfile.
      eapply Hadd; [by right|reflexivity|done].
  - rewrite list_lookup_insert_ne in Hu by done.
    apply Hh; [|done].
    destruct (paths !! j) as [q|] eqn:Hq.
    2:{ apply lookup_ge_None in Hq. apply lookup_lt_Some in Hj. lia. }
    specialize (Ho j q t Hq Hj).
    assert (∀ fr f, sound_frame fs exts sep [q] fr f → f ≠ file) as Hnot.
    { intros fr f Hfr Heq. destruct (own_frame sep q fr f Hfr) as [_ [ft Hft]].
      apply (Hother j q); [congruence|done|].
      apply list_elem_of_fmap. exists (f, ft). split; [by simpl|done]. }
    destruct (resume_cases t labels)
      as [[Hl _]|[[Hl _]|[(fr & f & tg & Ht & _ & _ & _ & Hl)
                         |(fr & f & fp & Ht & _ & _ & Hl)]]];
      rewrite Hl in Hfile; try done.
    + apply elem_of_union in Hfile as [Hfile|Hfile]; [done|].
      apply elem_of_singleton in Hfile. rewrite Ht in Ho. destruct Ho as (Hfr & _).
      by destruct (Hnot fr f Hfr).
    + apply elem_of_union in Hfile as [Hfile|Hfile]; [done|].
      apply elem_of_singleton in Hfile. rewrite Ht in Ho. destruct Ho as (Hfr & _).
      by destruct (Hnot fr f Hfr).
Qed.

End OneLink.

Lemma reached_run_schedule sep paths i p file fileType target sched :
  paths !! i = Some p →
  (file, fileType) ∈ listing fs p →
  skipped_early fileType = false →
  Link.is_link fs p file →
  realpath fs (Link.linkPath p file) = Some target →
  isExecutable fs target exts = Some true →
  Link.reached i file (run_schedule fs exts sched (start sep paths) ∅).1
    (run_schedule fs exts sched (start sep paths) ∅).2.
Proof.
  intros Hp Hin Hsk Hlink Hreal Hexec.
  apply (run_schedule_invariant fs exts
           (λ pool labels,
              Link.own fs exts sep paths pool ∧ Link.reached i file pool labels)).
  - intros pool labels j t Hj [Ho Hre]. split; [by apply own_resume|].
    by eapply reached_resume.
  - split; [apply own_start|]. intros t Ht. right. left.
    unfold start in Ht. rewrite list_lookup_fmap, Hp in Ht. by injection Ht as <-.
Qed.

Lemma held_run_schedule sep paths i file sched :
  (∀ j q, j ≠ i → paths !! j = Some q → file ∉ (listing fs q).*1) →
  Link.held i file (run_schedule fs exts sched (start sep paths) ∅).1
    (run_schedule fs exts sched (start sep paths) ∅).2.
Proof.
  intros Hother.
  apply (run_schedule_invariant fs exts
           (λ pool labels,
              length pool = length paths
              ∧ Link.own fs exts sep paths pool ∧ Link.held i file pool labels)).
  - intros pool labels j t Hj (Hlen & Ho & Hh). split; [|split].
    + by rewrite length_insert.
    + by apply own_resume.
    + by eapply held_resume.
  - split; [|split].
    + unfold start. by rewrite length_fmap.
    + apply own_start.
    + intros Hfile. by apply elem_of_empty in Hfile.
Qed.

(** C7, amended. The entries of a PATH directory [p] that [lstat] reports as
    symbolic links, in a pass over [paths] run under any schedule ([join]),
    and in any pool of scans at the moment one of them is resumed
    ([settle (i :: sched)]):
    - a resource of the result of [p] whose name is a link of [p] is that
      link's resource: the link resolves, the executability check was made
      on the resolved target and accepted it, the kind is [Method] and the
      documentation is the link path, [" -> "], the target; so a link that
      does not resolve, or whose target is not accepted, has no resource in
      the result of [p];
    - when resolution fails the scan goes on to the next entry, and when it
      succeeds the scan waits for the check of the target, in both cases
      without looking at the label set;
    - when that check completes, the name is tested against the label set
      as it is then, in the same step as the insertion: if the target is not
      accepted or the name is in the set, the scan goes on with its result
      and the set unchanged; otherwise the resource is added and the name
      inserted, and the resource is in the result of [p] whenever that
      result is not absent;
    - over the whole pass no two resources stand for links of the same
      name;
    - if the scan of [p] returns a result, the name of every listed link of
      [p] with an executable target is in the label set, and if no other
      PATH entry lists the name, the link's resource is in the result. *)
Theorem symlink_entry_documented :
  (∀ sched sep paths i p res r,
     paths !! i = Some p →
     (join fs exts sched sep paths).1 !! i = Some (Some res) →
     r ∈ res →
     Link.is_link fs p (label r) →
     ∃ target,
       realpath fs (Link.linkPath p (label r)) = Some target
       ∧ isExecutable fs target exts = Some true
       ∧ r = Link.link_resource p (label r) target)
  ∧ (∀ pool labels i fr file sched,
       pool !! i = Some (AwaitRealpath fr file) →
       settle fs exts (i :: sched) pool labels
       = settle fs exts sched
           (<[i := match realpath fs (Link.linkPath (path fr) file) with
                   | Some target => AwaitIsExecutableLink fr file target
                   | None => continue fr
                   end]> pool)
           labels)
  ∧ (∀ pool labels i fr file target sched,
       pool !! i = Some (AwaitIsExecutableLink fr file target) →
       isExecutable fs target exts ≠ Some true ∨ file ∈ labels →
       settle fs exts (i :: sched) pool labels
       = settle fs exts sched (<[i := continue fr]> pool) labels)
  ∧ (∀ pool labels i fr file target sched,
       pool !! i = Some (AwaitIsExecutableLink fr file target) →
       isExecutable fs target exts = Some true →
       file ∉ labels →
       settle fs exts (i :: sched) pool labels
       = settle fs exts sched
           (<[i := loop (path fr) (pathSeparator fr)
                     (result fr ++ [Link.link_resource (path fr) file target])
                     (rest fr)]> pool)
           (labels ∪ {[ file ]})
       ∧ file ∈ (settle fs exts (i :: sched) pool labels).2
       ∧ ∀ res,
           (settle fs exts (i :: sched) pool labels).1 !! i = Some (Some res) →
           Link.link_resource (path fr) file target ∈ res)
  ∧ (∀ sched sep paths i i' p p' res res' k k' r r',
       paths !! i = Some p → paths !! i' = Some p' →
       (join fs exts sched sep paths).1 !! i = Some (Some res) →
       (join fs exts sched sep paths).1 !! i' = Some (Some res') →
       res !! k = Some r → res' !! k' = Some r' →
       label r = label r' →
       Link.is_link fs p (label r) → Link.is_link fs p' (label r') →
       i = i' ∧ k = k')
  ∧ (∀ sched sep paths i p file fileType target res,
       paths !! i = Some p →
       (file, fileType) ∈ listing fs p →
       skipped_early fileType = false →
       Link.is_link fs p file →
       realpath fs (Link.linkPath p file) = Some target →
       isExecutable fs target exts = Some true →
       (join fs exts sched sep paths).1 !! i = Some (Some res) →
       file ∈ (join fs exts sched sep paths).2
       ∧ ((∀ j q, j ≠ i → paths !! j = Some q → file ∉ (listing fs q).*1) →
          Link.link_resource p file target ∈ res)).
Proof.
  split; [|split; [|split; [|split; [|split]]]].
  - intros sched sep paths i p res r Hp Hres Hr Hlink. unfold join in Hres.
    destruct (settle_as_schedule fs exts sched (start sep paths) ∅) as (s' & Hs & _).
    rewrite Hs in Hres. simpl in Hres. apply outcome_lookup in Hres.
    destruct (links_run_schedule sep paths s') as (Ho & _ & _).
    specialize (Ho i p _ Hp Hres). simpl in Ho. rewrite Forall_forall in Ho.
    exact (genuine_link sep p r (Ho r Hr) Hlink).
  - intros pool labels i fr file sched Hi.
    rewrite (settle_cons i sched pool labels _ Hi). simpl.
    unfold Link.linkPath, resource. by destruct (realpath fs _).
  - intros pool labels i fr file target sched Hi Hcase.
    rewrite (settle_cons i sched pool labels _ Hi). by rewrite link_skipped.
  - intros pool labels i fr file target sched Hi Hx Hfree.
    rewrite (settle_cons i sched pool labels _ Hi). rewrite link_accepted by done.
    simpl. split; [done|]. split.
    + apply labels_grow_settle. set_solver.
    + intros res Hres. eapply kept_settle; [| |exact Hres].
      * apply list_lookup_insert_eq. by eapply lookup_lt_Some.
      * rewrite collected_loop. apply elem_of_app. right. by left.
  - intros sched sep paths i i' p p' res res' k k' r r' Hp Hp' Hres Hres' Hk Hk' Hl
      Hlink Hlink'.
    unfold join in *.
    destruct (settle_as_schedule fs exts sched (start sep paths) ∅) as (s' & Hs & _).
    rewrite Hs in Hres, Hres'. simpl in *.
    apply outcome_lookup in Hres. apply outcome_lookup in Hres'.
    destruct (links_run_schedule sep paths s') as (_ & _ & Hu).
    by eapply (Hu i i' p p' _ _ k k' r r' Hp Hp' Hres Hres').
  - intros sched sep paths i p file fileType target res Hp Hin Hsk Hlink Hreal Hexec Hres.
    unfold join in *.
    destruct (settle_as_schedule fs exts sched (start sep paths) ∅) as (s' & Hs & _).
    rewrite Hs in *. simpl in *. apply outcome_lookup in Hres.
    pose proof (reached_run_schedule sep paths i p file fileType target s'
                  Hp Hin Hsk Hlink Hreal Hexec _ Hres) as Hre.
    assert (file ∈ (run_schedule fs exts s' (start sep paths) ∅).2) as Hfile.
    { destruct Hre as [?|[?|?]]; done. }
    split; [done|]. intros Hother.
    destruct (held_run_schedule sep paths i file s' Hother Hfile _ Hres)
      as [(r & Hr & Hlab)|?]; [|done].
    simpl in Hr.
    destruct (links_run_schedule sep paths s') as (Ho & _ & _).
    specialize (Ho i p _ Hp Hres). simpl in Ho. rewrite Forall_forall in Ho.
    destruct (genuine_link sep p r (Ho r Hr)) as (target' & Hreal' & _ & Heq).
    { by rewrite Hlab. }
    rewrite Hlab in Hreal', Heq. rewrite Hreal in Hreal'. injection Hreal' as <-.
    by rewrite <- Heq.
Qed.

End LinkFacts.

(** C7 on the link [/usr/local/bin/ll] of the second of two PATH
    directories, in a pass whose two scans are resumed in turn. *)
Lemma symlink_entry_documented_witness :
  ∃ res,
    (Scanner.join (H := Posix.host) Example2.two_dirs None [1; 0; 1; 0; 1; 0; 1; 0] "/"
       ["/usr/bin"; "/usr/local/bin"]).1 !! 1 = Some (Some res)
    ∧ {| label := "ll"; documentation := "/usr/local/bin/ll -> /usr/bin/ls";
         kind := Method |} ∈ res.
Proof.
  destruct (symlink_entry_documented (H := Posix.host) Example2.two_dirs None)
    as (_ & _ & _ & _ & _ & Hlisted).
  eexists. split; [reflexivity|].
  apply (Hlisted [1; 0; 1; 0; 1; 0; 1; 0] "/" ["/usr/bin"; "/usr/local/bin"] 1
           "/usr/local/bin" "ll" 65%Z "/usr/bin/ls"); try reflexivity.
  - apply list_elem_of_In. simpl. auto.
  - intros j q Hne Hq. destruct j as [|[|j]]; [|done|done].
    injection Hq as <-. intros Hin. apply list_elem_of_In in Hin. simpl in Hin.
    by destruct Hin as [|[]].
Defined.
